(** * cmlkit: the tuning run loop, the caches, the property converter and
    the settings

    A shallow embedding of five pieces of the repository:
    - [src/property_converter.py]    ([convert]),
    - [src/cmlkit/engine/caching.py] (classes [memcached], [diskcached]),
    - [src/cmlkit/tune/run/run.py]   (class [Run]),
    - [src/autotune/parse.py]        (the patterns of the settings),
    - [src/cmlkit/model_spec.py]     (class [ModelSpec]).

    Python objects become records, dictionaries become association lists
    (where the iteration order is visible to the code) or [gmap]s, Python
    integers become [Z], and code that can raise returns a [Result]. *)

From Stdlib Require Import ZArith String List Bool Lia.
From stdpp Require Import gmap strings list fin_maps fin_sets pretty.

Set Warnings "-register-all,-clear-no-such-hyp".

Open Scope string_scope.
Open Scope list_scope.
Open Scope Z_scope.

(** ** Exceptions and the error monad *)

(** The exceptions the embedded code raises, by Python class. *)
Inductive Exc : Type :=
| AssertionError (msg : string)
| AttributeError (attr : string)
| KeyError (key : string)
| Exception (msg : string)
| EvaluationError (kind msg : string)   (* an evaluator exception that is not caught *)
| SearchError                           (* the search could not suggest *)
| LogicError (msg : string).            (* protocol violation in the result database *)

Inductive Result (A : Type) : Type :=
| Ok (a : A)
| Raise (e : Exc).
Arguments Ok {A} a.
Arguments Raise {A} e.

#[global] Instance Result_ret : MRet Result := fun A a => Ok a.

#[global] Instance Result_bind : MBind Result := fun A B k m =>
  match m with
  | Ok a => k a
  | Raise e => Raise e
  end.

(** [assert c, msg]. *)
Definition assert (c : bool) (msg : string) : Result unit :=
  if c then Ok tt else Raise (AssertionError msg).

(** Reading an attribute that may never have been assigned. *)
Definition getattr {A : Type} (attr : string) (field : option A) : Result A :=
  match field with
  | Some a => Ok a
  | None => Raise (AttributeError attr)
  end.

Definition raises {A : Type} (m : Result A) : Prop :=
  exists e, m = Raise e.

(** ** [property_converter.convert] *)

Module PropertyConverter.

Section Convert.

(** The numeric type of [prop] (a float or an array) and its arithmetic
    are not fixed by the source; they are parameters, and each operation
    may itself raise. *)
Variable Num : Type.
Variable num_div : Num -> Num -> Result Num.
Variable num_mul : Num -> Num -> Result Num.

(** The [data] argument is duck-typed: the code reads the attributes
    [family], [name] and [p], any of which may be missing. *)
Record Data : Type := {
  family : option string;
  name : option string;
  p : option (gmap string Num)
}.

(** [data.p[key]]. *)
Definition getitem (d : gmap string Num) (key : string) : Result Num :=
  match d !! key with
  | Some v => Ok v
  | None => Raise (KeyError key)
  end.

(** ['key' in data.p]. *)
Definition contains (d : gmap string Num) (key : string) : bool :=
  bool_decide (is_Some (d !! key)).

Definition cant_convert (origin target : string) : Exc :=
  Exception ("Can't convert " +:+ origin +:+ " to " +:+ target).

Definition convert (data : Data) (prop : Num) (origin target : string)
  : Result Num :=
  if String.eqb origin target then Ok prop
  else
    fam ← getattr "family" (family data);
    if String.eqb fam "kaggle" then
      if String.eqb target "fe" then
        if String.eqb origin "fec" then
          dp ← getattr "p" (p data);
          _ ← assert (contains dp "n_atoms") "";
          n ← getitem dp "n_atoms";
          num_div prop n
        else if String.eqb origin "fecreal" then
          dp ← getattr "p" (p data);
          _ ← assert (contains dp "n_sub") "";
          n ← getitem dp "n_sub";
          num_div prop n
        else if String.eqb origin "fepa" then
          dp ← getattr "p" (p data);
          _ ← assert (contains dp "n_atoms") "";
          _ ← assert (contains dp "n_sub") "";
          na ← getitem dp "n_atoms";
          x ← num_mul prop na;
          ns ← getitem dp "n_sub";
          num_div x ns
        else Raise (cant_convert origin target)
      else if String.eqb target "fsb" then Ok prop
      else Raise (cant_convert origin target)
    else
      nm ← getattr "name" (name data);
      Raise (Exception nm).

End Convert.

Arguments family {Num} _.
Arguments name {Num} _.
Arguments p {Num} _.

End PropertyConverter.

(** ** [cmlkit.engine.caching.memcached] *)

Module Caching.

Section Memcached.

(** [fast_hash] lives in [cmlkit.engine.hashing], outside the embedded
    sources; it is a parameter, as are the argument and value types. *)
Context {Args Value Key : Type} `{EqDecision Key}.
Variable fast_hash : Args -> Key.

(** The wrapped function.  It is deterministic: a Rocq function. *)
Variable f : Args -> Value.

(** A cache item is the two-element list [[lruc, value]]. *)
Definition Item : Type := Z * Value.

(** [self.cache]: a Python dict, kept in insertion order, which is the
    order [self.cache.items()] iterates in. *)
Definition Dict : Type := list (Key * Item).

Record memcached : Type := {
  max_entries : Z;
  cache : Dict;
  lruc : Z;
  hits : Z;
  misses : Z;
  total_hits : Z;
  total_misses : Z;
  (* Not a field of the class: the arguments [self.f] has been invoked
     with, latest first.  It observes the invocations of [self.f]. *)
  invoked : list Args
}.

(** [memcached.__init__] *)
Definition init (max_entries : Z) : memcached :=
  {| max_entries := max_entries; cache := []; lruc := 0;
     hits := 0; misses := 0; total_hits := 0; total_misses := 0;
     invoked := [] |}.

(** [d[k]], [None] when [k not in d]. *)
Fixpoint dict_get (d : Dict) (k : Key) : option Item :=
  match d with
  | [] => None
  | (k', it) :: d' => if decide (k' = k) then Some it else dict_get d' k
  end.

(** [len(d)] *)
Definition dict_len (d : Dict) : Z := Z.of_nat (length d).

(** [d[k][0] = c]: the item stored under [k] is updated in place. *)
Fixpoint dict_touch (d : Dict) (k : Key) (c : Z) : Dict :=
  match d with
  | [] => []
  | (k', it) :: d' =>
      if decide (k' = k) then (k', (c, snd it)) :: d'
      else (k', it) :: dict_touch d' k c
  end.

(** [d[k] = it]: replaces in place, or appends a new key. *)
Fixpoint dict_set (d : Dict) (k : Key) (it : Item) : Dict :=
  match d with
  | [] => [(k, it)]
  | (k', it') :: d' =>
      if decide (k' = k) then (k', it) :: d'
      else (k', it') :: dict_set d' k it
  end.

(** [del d[k]] *)
Fixpoint dict_del (d : Dict) (k : Key) : Dict :=
  match d with
  | [] => []
  | (k', it) :: d' =>
      if decide (k' = k) then d' else (k', it) :: dict_del d' k
  end.

(** One round of the eviction loop:
    [if v_[0] < c: c, k = v_[0], k_]. *)
Definition scan_step (ck : Z * Key) (e : Key * Item) : Z * Key :=
  if fst (snd e) <? fst ck then (fst (snd e), fst e) else ck.

(** [for k_, v_ in self.cache.items(): ...] started from [(c, k)]. *)
Definition scan (ck : Z * Key) (d : Dict) : Z * Key :=
  fold_left scan_step d ck.

(** The block under [if len(self.cache) > self.max_entries]: the key
    that the loop selects, started from [c, k = self.lruc, key]. *)
Definition victim (lruc1 : Z) (key : Key) (d : Dict) : Key :=
  snd (scan (lruc1, key) d).

(** [memcached.__call__]: the returned value and the object afterwards. *)
Definition call (m : memcached) (args : Args) : Value * memcached :=
  let key := fast_hash args in
  match dict_get (cache m) key with
  | Some item =>
      (snd item,
       {| max_entries := max_entries m;
          cache := dict_touch (cache m) key (lruc m);
          lruc := lruc m + 1;
          hits := hits m + 1;
          misses := misses m;
          total_hits := total_hits m + 1;
          total_misses := total_misses m;
          invoked := invoked m |})
  | None =>
      let value := f args in
      let cache1 := dict_set (cache m) key (lruc m, value) in
      let lruc1 := lruc m + 1 in
      let cache2 :=
        if max_entries m <? dict_len cache1
        then dict_del cache1 (victim lruc1 key cache1)
        else cache1 in
      (value,
       {| max_entries := max_entries m;
          cache := cache2;
          lruc := lruc1;
          hits := hits m;
          misses := misses m + 1;
          total_hits := total_hits m;
          total_misses := total_misses m + 1;
          invoked := args :: invoked m |})
  end.

(** [memcached.clear_cache] *)
Definition clear_cache (m : memcached) : memcached :=
  {| max_entries := max_entries m; cache := []; lruc := lruc m;
     hits := 0; misses := 0;
     total_hits := total_hits m; total_misses := total_misses m;
     invoked := invoked m |}.

(** A sequence of calls: the returned values, in order, and the final
    object. *)
Fixpoint calls (m : memcached) (l : list Args) : list Value * memcached :=
  match l with
  | [] => ([], m)
  | a :: l' =>
      let '(v, m1) := call m a in
      let '(vs, m2) := calls m1 l' in
      (v :: vs, m2)
  end.

(** The object after a sequence of calls on a fresh wrapper. *)
Definition after (max_entries : Z) (l : list Args) : memcached :=
  snd (calls (init max_entries) l).

(** [k] holds the smallest recency counter of [d]. *)
Definition least_recent (d : Dict) (k : Key) : Prop :=
  exists it, dict_get d k = Some it /\
    forall k' it', dict_get d k' = Some it' -> k' <> k -> fst it < fst it'.

(** The shape every cache reachable by calls has: one entry per key,
    all recency counters below [lruc] and pairwise different, and no more
    entries than [max_entries] (none, when that is negative). *)
Record well_formed (m : memcached) : Prop := {
  wf_keys : NoDup (map fst (cache m));
  wf_below : forall k it, dict_get (cache m) k = Some it -> fst it < lruc m;
  wf_distinct : forall k k' it it',
    dict_get (cache m) k = Some it -> dict_get (cache m) k' = Some it' ->
    fst it = fst it' -> k = k';
  wf_bound : dict_len (cache m) <= Z.max 0 (max_entries m)
}.

(** Every stored value is the value of [f] at arguments of an earlier
    call that hash to the key of the entry. *)
Definition sound (called : list Args) (m : memcached) : Prop :=
  forall k it, dict_get (cache m) k = Some it ->
    exists a, a ∈ called /\ fast_hash a = k /\ snd it = f a.

End Memcached.

Arguments memcached : clear implicits.
Arguments Dict : clear implicits.

End Caching.

(** ** [cmlkit.tune.run]: configurations, trials, the collaborators of [Run] *)

Module Tune.

(** Configurations are nested mappings, the values YAML can hold.  Numbers
    are kept as integers in a fixed unit; floats are not modelled. *)
Inductive Value : Type :=
| VNone
| VNum (z : Z)
| VStr (s : string)
| VList (l : list Value)
| VDict (d : list (string * Value)).

(** [r != {}] *)
Definition nonempty (r : Value) : bool :=
  match r with
  | VDict [] => false
  | _ => true
  end.

(** Readings of [time.monotonic()] and spans of time, in integral clock
    ticks.  In the code they are floats: the code compares them, which is
    exact, and adds and subtracts them, which is rounded; the rounded sum
    and difference are [float_add] and [float_sub] of the environment
    below, not the sum and difference of [Z]. *)
Abbreviation Time := Z.

(** The [duration] argument of [run]: a number or [float("inf")]. *)
Inductive Duration : Type :=
| Finite (d : Time)
| Infinite.

(** Trial identifiers and future handles.  A handle stands for the identity
    of the future object the pool returns. *)
Abbreviation TrialID := nat.
Abbreviation Future := nat.

(** The outcome of one evaluation.  Losses are numbers in a fixed unit. *)
Inductive TrialResult : Type :=
| Success (loss loss_variance : Z) (metadata : Value)
| Failure (kind message : string).

(** How the worker process of an evaluation concludes. *)
Inductive ProcOutcome : Type :=
| Returned (loss loss_variance : Z) (metadata : Value)
| TimedOut
| Raised (kind message : string).

(** *** ResultDB *)

Record Entry : Type := {
  e_tid : TrialID;
  e_config : Value;
  e_result : TrialResult;
  e_time : Time
}.

(** Entries in submission order, oldest first. *)
Definition ResultDB : Type := list Entry.

Definition db_has (db : ResultDB) (tid : TrialID) : bool :=
  existsb (fun e => Nat.eqb (e_tid e) tid) db.

(** Modelled from the spec: [ResultDB.add] (the class is in
    [cmlkit/tune/run/resultdb.py], which is not among the sources).  The
    store is append-only and a second add for a TrialID already present is
    rejected as a logic error. *)
Definition db_add (db : ResultDB) (tid : TrialID) (config : Value)
    (result : TrialResult) (now : Time) : Result ResultDB :=
  if db_has db tid then Raise (LogicError "trial already recorded")
  else Ok (db ++ [{| e_tid := tid; e_config := config;
                     e_result := result; e_time := now |}]).

(** *** Search *)

(** The search is a pluggable black box: a stateful source of suggestions
    that may fail, may take feedback, and can serialise itself. *)
Class Search (S : Type) : Type := {
  search_suggest : S -> option (Value * S);
  search_observe : S -> TrialID -> TrialResult -> S;
  search_get_config : S -> Value
}.

(** *** State *)

Inductive Event : Type :=
| Suggested (tid : TrialID) (config : Value)
| Completed (tid : TrialID)
| Failed (tid : TrialID).

Section WithSearch.

Context {S : Type} {search_ops : Search S}.

Record State : Type := {
  search : S;
  evals : ResultDB;
  tape : list Event;
  (* bookkeeping: the configuration of every suggestion issued, and the
     next identifier to hand out *)
  suggestions : gmap TrialID Value;
  next_tid : TrialID
}.

Definition new_state (srch : S) (db : ResultDB) (tp : list Event) : State :=
  {| search := srch; evals := db; tape := tp;
     suggestions := ∅; next_tid := 0%nat |}.

(** Modelled from the spec: [State.suggest] ([cmlkit/tune/run/state.py] is
    not among the sources).  It calls into the search, assigns a TrialID
    distinct from all earlier ones, appends a "suggested" event and
    returns the pair; a search that cannot suggest is fatal. *)
Definition suggest (s : State) : Result ((TrialID * Value) * State) :=
  match search_suggest (search s) with
  | None => Raise SearchError
  | Some (config, srch') =>
      let tid := next_tid s in
      Ok ((tid, config),
          {| search := srch'; evals := evals s;
             tape := tape s ++ [Suggested tid config];
             suggestions := <[tid := config]> (suggestions s);
             next_tid := Datatypes.S tid |})
  end.

Definition outcome_event (tid : TrialID) (r : TrialResult) : Event :=
  match r with
  | Success _ _ _ => Completed tid
  | Failure _ _ => Failed tid
  end.

(** Modelled from the spec: [State.submit].  It records the result into
    the ResultDB, appends a "completed" or "failed" event, and feeds the
    result back to the search. *)
Definition submit (s : State) (tid : TrialID) (r : TrialResult) (now : Time)
  : Result State :=
  match suggestions s !! tid with
  | None => Raise (LogicError "unknown trial")
  | Some config =>
      db ← db_add (evals s) tid config r now;
      Ok {| search := search_observe (search s) tid r; evals := db;
            tape := tape s ++ [outcome_event tid r];
            suggestions := suggestions s;
            next_tid := next_tid s |}
  end.

(** *** Stopper *)

(** The capability [done(state)] with the serialised configuration of the
    stopper.  Time-based variants read the ambient clock, so [done] takes
    the reading too. *)
Record Stopper : Type := {
  stop_done : State -> Time -> bool;
  stop_get_config : Value
}.

Definition is_success (e : Entry) : bool :=
  match e_result e with
  | Success _ _ _ => true
  | Failure _ _ => false
  end.

(** Modelled from the spec: the budget variant of the stoppers
    ([cmlkit/tune/run/stopping.py] is not among the sources), which stops
    once [n] successes are recorded. *)
Definition budget_stopper (n : nat) : Stopper :=
  {| stop_done := fun s _ =>
       Nat.leb n (length (filter (fun e => is_success e = true) (evals s)));
     stop_get_config := VDict [("count", VNum (Z.of_nat n))] |}.

(** *** EvaluationPool

    [prepare] hands the pool the ResultDB object that it also hands to the
    state.  The pool has no operation that writes to it, so the database is
    kept in the state alone. *)

Record Pool : Type := {
  pool_max_workers : Z;
  pool_evaluator_config : Value;
  pool_trial_timeout : option Time;
  pool_caught_exceptions : list string;
  (* handles issued so far; the next handle is this number *)
  launched : nat;
  (* the outstanding-future registry *)
  registry : gset Future
}.

Definition new_pool (max_workers : Z) (evaluator_config : Value)
    (trial_timeout : option Time) (caught : list string) : Pool :=
  {| pool_max_workers := max_workers;
     pool_evaluator_config := evaluator_config;
     pool_trial_timeout := trial_timeout;
     pool_caught_exceptions := caught;
     launched := 0%nat; registry := ∅ |}.

(** Modelled from the spec: [EvaluationPool.schedule]
    ([cmlkit/tune/run/pool.py] is not among the sources).  It returns at
    once with a new handle for the in-flight computation. *)
Definition schedule (p : Pool) (suggestion : Value) : Future * Pool :=
  let f := launched p in
  (f, {| pool_max_workers := pool_max_workers p;
         pool_evaluator_config := pool_evaluator_config p;
         pool_trial_timeout := pool_trial_timeout p;
         pool_caught_exceptions := pool_caught_exceptions p;
         launched := Datatypes.S f;
         registry := {[f]} ∪ registry p |}).

Definition caught (p : Pool) (kind : string) : bool :=
  existsb (String.eqb kind) (pool_caught_exceptions p).

(** Modelled from the spec: [EvaluationPool.finish].  A normal return is
    a Success, a timeout a Failure of kind Timeout, an exception on the
    allow-list a Failure with its kind and message; any other exception
    propagates to the caller. *)
Definition finish (p : Pool) (f : Future) (o : ProcOutcome)
  : Result (TrialResult * Pool) :=
  let p' := {| pool_max_workers := pool_max_workers p;
               pool_evaluator_config := pool_evaluator_config p;
               pool_trial_timeout := pool_trial_timeout p;
               pool_caught_exceptions := pool_caught_exceptions p;
               launched := launched p;
               registry := registry p ∖ {[f]} |} in
  match o with
  | Returned l v m => Ok (Success l v m, p')
  | TimedOut => Ok (Failure "Timeout" "", p')
  | Raised kind msg =>
      if caught p kind then Ok (Failure kind msg, p')
      else Raise (EvaluationError kind msg)
  end.

(** Modelled from the spec: [EvaluationPool.shutdown] cancels all
    outstanding work; results of evaluations still in flight are
    discarded. *)
Definition shutdown (p : Pool) : Pool :=
  {| pool_max_workers := pool_max_workers p;
     pool_evaluator_config := pool_evaluator_config p;
     pool_trial_timeout := pool_trial_timeout p;
     pool_caught_exceptions := pool_caught_exceptions p;
     launched := launched p;
     registry := ∅ |}.

End WithSearch.

Arguments State S : clear implicits.
Arguments Stopper S : clear implicits.

(** ** [cmlkit.tune.run.run.Run] *)

(** The merged context of a [Run]: [Component.__init__] (not among the
    sources) lays the caller's context over [Run.default_context]. *)
Record RunContext : Type := {
  max_workers : Z;
  shutdown_duration : Time;
  wait_per_loop : Time
}.

(** *** The work directory *)

Abbreviation Path := (list string).

Inductive FileData : Type :=
| YamlFile (v : Value)
| TapeFile (t : list Event)
| StatusFile (run_name message : string) (runtime : Time) (n_futures : nat)
| LogFile.

Record FS : Type := {
  dirs : gset Path;
  files : gmap Path FileData
}.

Definition empty_fs : FS := {| dirs := ∅; files := ∅ |}.

Definition makedir (fs : FS) (d : Path) : FS :=
  {| dirs := {[d]} ∪ dirs fs; files := files fs |}.

Definition write_file (fs : FS) (path : Path) (data : FileData) : FS :=
  {| dirs := dirs fs; files := <[path := data]> (files fs) |}.

Definition save_yaml (fs : FS) (path : Path) (v : Value) : FS :=
  write_file fs path (YamlFile v).

(** [for i, config in enumerate(configs): save_yaml(wd / f"{prefix}{i}", config)],
    with the count starting at [i]. *)
Fixpoint save_enumerated (wd : Path) (prefix : string) (i : nat)
    (configs : list Value) (fs : FS) : FS :=
  match configs with
  | [] => fs
  | config :: rest =>
      save_enumerated wd prefix (Datatypes.S i) rest
        (save_yaml fs (wd ++ [prefix +:+ pretty i]) config)
  end.

(** *** The clock and the deadline *)

(** The value of [end]: a reading, or infinite. *)
Inductive Deadline : Type :=
| At (t : Time)
| Never.

(** [now < end] *)
Definition before (now : Time) (end_ : Deadline) : bool :=
  match end_ with
  | At e => now <? e
  | Never => true
  end.

(** What the control thread observes in one pass through the loop: the
    clock at the loop test, the clock when the status is written, the
    futures that have completed when [wait] returns, and the clock when the
    stop condition is tested again. *)
Record Tick : Type := {
  t_test : Time;
  t_status : Time;
  completed : gset Future;
  t_wait : Time
}.

(** The rest of the environment of one call of [run]: the clock at entry,
    the clock after the loop, how the worker of each evaluation concludes,
    and the arithmetic of the floats of the machine, that is the sum and
    the difference of two floats, each rounded to a float. *)
Record Env : Type := {
  t_start : Time;
  t_end : Time;
  outcome : Future -> ProcOutcome;
  float_add : Time -> Time -> Time;
  float_sub : Time -> Time -> Time
}.

(** [end = start + duration - shutdown_duration], the sum first and then
    the difference, both rounded.  With the duration [float("inf")] the sum
    and the difference are infinite, and every reading is before it. *)
Definition deadline (env : Env) (start : Time) (duration : Duration)
    (ctx : RunContext) : Deadline :=
  match duration with
  | Finite d =>
      At (float_sub env (float_add env start d) (shutdown_duration ctx))
  | Infinite => Never
  end.

(** A computation that follows a finite list of observations either
    finishes or is still running when the list ends. *)
Inductive Progress (A : Type) : Type :=
| Finished (a : A)
| Running (a : A).
Arguments Finished {A} a.
Arguments Running {A} a.

(** The state a [Progress] carries. *)
Definition reached {A : Type} (p : Progress A) : A :=
  match p with Finished a | Running a => a end.

Section WithRun.

Context {S : Type} {search_ops : Search S}.

(** [cmlkit.utility.humanize(id, words=2)] *)
Variable humanize : string -> string.

(** The two queries of the ResultDB that [write_results] calls. *)
Variable top_suggestions : ResultDB -> list Value.
Variable top_refined_suggestions : ResultDB -> list Value.

(** The attributes of a [Run].  [name], [work_directory], [pool] and
    [state] are assigned only on some paths, so they may be absent.
    [self.search] and [self.state.search] are one object: once [state]
    is set, the search lives there. *)
Record Run : Type := {
  run_search : S;
  evaluator_config : Value;
  stop : Stopper S;
  trial_timeout : option Time;
  caught_exceptions : list string;
  run_id : string;
  name : option string;
  ready : bool;
  context : RunContext;
  work_directory : option Path;
  pool : option Pool;
  state : option (State S)
}.

(** [Run.__init__].  [fresh_id] is the value of
    [compute_hash(time.time(), np.random.random(10))]. *)
Definition new (srch : S) (evaluator : Value) (stp : Stopper S)
    (trial_timeout : option Time) (caught_exceptions : list string)
    (name_arg : option string) (ctx : RunContext) (fresh_id : string) : Run :=
  {| run_search := srch;
     evaluator_config := evaluator;
     stop := stp;
     trial_timeout := trial_timeout;
     caught_exceptions := caught_exceptions;
     run_id := fresh_id;
     name := match name_arg with
             | None => Some (humanize fresh_id)
             | Some _ => None
             end;
     ready := false;
     context := ctx;
     work_directory := None;
     pool := None;
     state := None |}.

Definition live_search (r : Run) : S :=
  match state r with
  | Some s => search s
  | None => run_search r
  end.

Definition timeout_value (t : option Time) : Value :=
  match t with
  | Some z => VNum z
  | None => VNone
  end.

(** [Run._get_config] *)
Definition _get_config (r : Run) : Result Value :=
  nm ← getattr "name" (name r);
  Ok (VDict [("search", search_get_config (live_search r));
             ("evaluator", evaluator_config r);
             ("stop", stop_get_config (stop r));
             ("trial_timeout", timeout_value (trial_timeout r));
             ("caught_exceptions", VList (map VStr (caught_exceptions r)));
             ("name", VStr nm)]).

(** [Component.get_config] (not among the sources) files the result of
    [_get_config] under the kind of the component. *)
Definition get_config (r : Run) : Result Value :=
  c ← _get_config r;
  Ok (VDict [("run", c)]).

(** [Run.prepare].  The file handler of the logger creates [log.log]; what
    the logger writes to it is left out. *)
Definition prepare (r : Run) (directory : Path) (fs : FS) : Result (Run * FS) :=
  nm ← getattr "name" (name r);
  let wd := directory ++ ["run_" +:+ nm] in
  let fs1 := makedir fs wd in
  config ← get_config r;
  let fs2 := save_yaml fs1 (wd ++ ["run.yml"]) config in
  let db : ResultDB := [] in
  let tp : list Event := [] in
  let pl := new_pool (max_workers (context r)) (evaluator_config r)
              (trial_timeout r) (caught_exceptions r) in
  let st := new_state (run_search r) db tp in
  let fs3 := write_file fs2 (wd ++ ["log.log"]) LogFile in
  Ok ({| run_search := run_search r;
         evaluator_config := evaluator_config r;
         stop := stop r;
         trial_timeout := trial_timeout r;
         caught_exceptions := caught_exceptions r;
         run_id := run_id r;
         name := name r;
         ready := true;
         context := context r;
         work_directory := Some wd;
         pool := Some pl;
         state := Some st |}, fs3).

(** *** The loop of [Run.run] *)

(** What the loop works on: the local dictionary [futures] (future to
    TrialID), the objects [self.state] and [self.pool], and the disk. *)
Record Loop : Type := {
  futures : gmap Future TrialID;
  l_state : State S;
  l_pool : Pool;
  l_fs : FS
}.

(** The attributes of the prepared run that [run] reads. *)
Record Prepared : Type := {
  p_name : string;
  p_work_directory : Path;
  p_stop : Stopper S;
  p_context : RunContext
}.

(** [Run.write_status].  The file is overwritten; the time stamp and the
    two short reports of its text are left out. *)
Definition write_status (pr : Prepared) (fs : FS) (message : string)
    (n_futures : nat) (duration : Time) : FS :=
  write_file fs (p_work_directory pr ++ ["status.txt"])
    (StatusFile (p_name pr) message duration n_futures).

(** [Run.write_results] *)
Definition write_results (pr : Prepared) (st : State S) (fs : FS) : FS :=
  let wd := p_work_directory pr in
  let fs1 := write_file fs (wd ++ ["tape"]) (TapeFile (tape st)) in
  let fs2 := save_enumerated wd "suggestion-" 0
               (top_suggestions (evals st)) fs1 in
  let refined := top_refined_suggestions (evals st) in
  if existsb nonempty refined
  then save_enumerated wd "refined_suggestion-" 0
         (top_suggestions (evals st)) fs2
  else fs2.

(** [wait(futures, timeout, return_when=FIRST_COMPLETED)]: the futures of
    the dictionary that have completed, and those that have not. *)
Definition wait (futs : gmap Future TrialID) (finished : gset Future)
  : gset Future * gset Future :=
  (dom futs ∩ finished, dom futs ∖ finished).

(** One round of [for f in done]: lines 130 to 133. *)
Definition harvest_one (env : Env) (now : Time) (l : Loop) (f : Future)
  : Result Loop :=
  match futures l !! f with
  | None => Raise (KeyError (pretty f))
  | Some tid =>
      '(result, pl) ← finish (l_pool l) f (outcome env f);
      st ← submit (l_state l) tid result now;
      Ok {| futures := delete f (futures l);
            l_state := st; l_pool := pl; l_fs := l_fs l |}
  end.

(** [for f in done: ...] *)
Fixpoint harvest (env : Env) (now : Time) (done : list Future) (l : Loop)
  : Result Loop :=
  match done with
  | [] => Ok l
  | f :: rest =>
      l1 ← harvest_one env now l f;
      harvest env now rest l1
  end.

(** One round of [for i in range(n_new_trials)]: lines 137 to 140. *)
Definition schedule_one (l : Loop) : Result Loop :=
  '((tid, suggestion), st) ← suggest (l_state l);
  let '(f, pl) := schedule (l_pool l) suggestion in
  Ok {| futures := <[f := tid]> (futures l);
        l_state := st; l_pool := pl; l_fs := l_fs l |}.

(** [for i in range(n): ...] *)
Fixpoint top_up (n : nat) (l : Loop) : Result Loop :=
  match n with
  | O => Ok l
  | Datatypes.S n' =>
      l1 ← schedule_one l;
      top_up n' l1
  end.

(** [n_new_trials = max(0, self.context["max_workers"] + 1 - len(running))] *)
Definition n_new_trials (ctx : RunContext) (running : gset Future) : Z :=
  Z.max 0 (max_workers ctx + 1 - Z.of_nat (size running)).

(** Line 120: the status written on entering the body. *)
Definition entered (pr : Prepared) (env : Env) (tk : Tick) (l : Loop) : Loop :=
  {| futures := futures l; l_state := l_state l; l_pool := l_pool l;
     l_fs := write_status pr (l_fs l) "Running." (size (futures l))
               (float_sub env (t_status tk) (t_start env)) |}.

(** The body of the [while] loop: lines 120 to 140.  The calls of the
    logger write to the log only and are left out. *)
Definition body (pr : Prepared) (env : Env) (tk : Tick) (l : Loop)
  : Result Loop :=
  let l0 := entered pr env tk l in
  let '(done, running) := wait (futures l0) (completed tk) in
  if negb (stop_done (p_stop pr) (l_state l0) (t_wait tk)) then
    l1 ← harvest env (t_wait tk) (elements done) l0;
    top_up (Z.to_nat (n_new_trials (p_context pr) running)) l1
  else Ok l0.

(** The loop test of line 119. *)
Definition loop_test (pr : Prepared) (end_ : Deadline) (tk : Tick) (l : Loop)
  : bool :=
  before (t_test tk) end_ && negb (stop_done (p_stop pr) (l_state l) (t_test tk)).

(** The [while] loop, following the observations of the environment. *)
Fixpoint loop (pr : Prepared) (env : Env) (end_ : Deadline)
    (tks : list Tick) (l : Loop) : Result (Progress Loop) :=
  match tks with
  | [] => Ok (Running l)
  | tk :: rest =>
      if loop_test pr end_ tk l then
        l1 ← body pr env tk l;
        loop pr env end_ rest l1
      else Ok (Finished l)
  end.

(** The states the loop passes through when started from [l0]: at a loop
    test, between two rounds of the harvest, and between two rounds of the
    scheduling. *)
Inductive instant (pr : Prepared) (env : Env) (end_ : Deadline) (l0 : Loop)
  : Loop -> Prop :=
| at_test (tks : list Tick) (l : Loop) :
    loop pr env end_ tks l0 = Ok (Running l) ->
    instant pr env end_ l0 l
| in_harvest (tks : list Tick) (tk : Tick) (l : Loop) (k : nat) (l' : Loop) :
    loop pr env end_ tks l0 = Ok (Running l) ->
    loop_test pr end_ tk l = true ->
    stop_done (p_stop pr) (l_state l) (t_wait tk) = false ->
    harvest env (t_wait tk)
      (take k (elements (fst (wait (futures l) (completed tk)))))
      (entered pr env tk l) = Ok l' ->
    instant pr env end_ l0 l'
| in_top_up (tks : list Tick) (tk : Tick) (l l1 : Loop) (k : nat) (l' : Loop) :
    loop pr env end_ tks l0 = Ok (Running l) ->
    loop_test pr end_ tk l = true ->
    stop_done (p_stop pr) (l_state l) (t_wait tk) = false ->
    harvest env (t_wait tk)
      (elements (fst (wait (futures l) (completed tk))))
      (entered pr env tk l) = Ok l1 ->
    (k <= Z.to_nat (n_new_trials (p_context pr)
                      (snd (wait (futures l) (completed tk)))))%nat ->
    top_up k l1 = Ok l' ->
    instant pr env end_ l0 l'.

(** The number of futures the scheduling of line 135 aims at. *)
Definition futures_bound (pr : Prepared) : Z :=
  Z.max 0 (max_workers (p_context pr) + 1).

(** The bookkeeping that ties the futures, the pool and the database
    together: the pool has launched one evaluation per TrialID issued;
    every issued TrialID is known to the state; the database records no
    TrialID twice and only issued ones; a future in the dictionary stands
    for an issued trial that is not recorded; and every issued trial is
    recorded or has its future in the dictionary. *)
Record accounted (l : Loop) : Prop := {
  acc_launched : launched (l_pool l) = next_tid (l_state l);
  acc_known : forall tid, (tid < next_tid (l_state l))%nat ->
    is_Some (suggestions (l_state l) !! tid);
  acc_once : NoDup (map e_tid (evals (l_state l)));
  acc_issued : forall tid, db_has (evals (l_state l)) tid = true ->
    (tid < next_tid (l_state l))%nat;
  acc_future : forall f tid, futures l !! f = Some tid ->
    tid = f /\ (f < launched (l_pool l))%nat /\
    db_has (evals (l_state l)) tid = false;
  acc_cover : forall tid, (tid < next_tid (l_state l))%nat ->
    db_has (evals (l_state l)) tid = true \/ futures l !! tid = Some tid;
  acc_count :
    (length (evals (l_state l)) + size (futures l))%nat = next_tid (l_state l)
}.

(** No evaluation ends in an exception the pool does not catch. *)
Definition benign (env : Env) (l : Loop) : Prop :=
  forall f, match outcome env f with
            | Raised kind _ => caught (l_pool l) kind = true
            | _ => True
            end.

(** What [run] leaves behind: the object, the disk, and the futures that
    were still in the local dictionary when the loop ended. *)
Record RunEnd : Type := {
  end_run : Run;
  end_fs : FS;
  end_futures : gmap Future TrialID
}.

Definition set_state_pool (r : Run) (st : State S) (pl : Pool) : Run :=
  {| run_search := run_search r;
     evaluator_config := evaluator_config r;
     stop := stop r;
     trial_timeout := trial_timeout r;
     caught_exceptions := caught_exceptions r;
     run_id := run_id r;
     name := name r;
     ready := ready r;
     context := context r;
     work_directory := work_directory r;
     pool := Some pl;
     state := Some st |}.

(** Lines 142 to 148: what [run] does once the loop has ended. *)
Definition finalize (pr : Prepared) (r : Run) (env : Env) (l : Loop) : RunEnd :=
  let duration := float_sub env (t_end env) (t_start env) in
  let fs1 := write_status pr (l_fs l)
               (p_name pr +:+ ": Done, saving results.") 0 duration in
  let fs2 := write_results pr (l_state l) fs1 in
  let fs3 := write_status pr fs2
               (p_name pr +:+ ": Done, initiating shutdown.") 0 duration in
  let pl := shutdown (l_pool l) in
  let fs4 := write_status pr fs3
               (p_name pr +:+ ": Done. Have a good day!") 0 duration in
  {| end_run := set_state_pool r (l_state l) pl;
     end_fs := fs4;
     end_futures := futures l |}.

(** The attributes [run] reads from the object, and the loop state it
    starts from: [futures = {}]. *)
Definition prepared_of (r : Run) (nm : string) (wd : Path) : Prepared :=
  {| p_name := nm; p_work_directory := wd;
     p_stop := stop r; p_context := context r |}.

Definition first_loop (st : State S) (pl : Pool) (fs : FS) : Loop :=
  {| futures := ∅; l_state := st; l_pool := pl; l_fs := fs |}.

(** [Run.run], following the observations [tks] of the successive passes
    through the loop. *)
Definition run (r : Run) (duration : Duration) (env : Env) (tks : list Tick)
    (fs : FS) : Result (Progress RunEnd) :=
  _ ← assert (ready r) "prepare() must be called before starting run.";
  let start := t_start env in
  let end_ := deadline env start duration (context r) in
  nm ← getattr "name" (name r);
  wd ← getattr "work_directory" (work_directory r);
  st ← getattr "state" (state r);
  pl ← getattr "pool" (pool r);
  let pr := prepared_of r nm wd in
  let l0 := first_loop st pl fs in
  res ← loop pr env end_ tks l0;
  match res with
  | Running l =>
      Ok (Running {| end_run := set_state_pool r (l_state l) (l_pool l);
                     end_fs := l_fs l;
                     end_futures := futures l |})
  | Finished l => Ok (Finished (finalize pr r env l))
  end.

(** [Run.__call__]: the duration is not handed on. *)
Definition call (r : Run) (duration : Duration) (env : Env) (tks : list Tick)
    (fs : FS) : Result (Progress RunEnd) :=
  run r Infinite env tks fs.

End WithRun.

Arguments Run S : clear implicits.
Arguments Loop S : clear implicits.
Arguments Prepared S : clear implicits.
Arguments RunEnd S : clear implicits.

(** *** A sample search

    A search over one integer parameter that suggests 0, 1, 2, ... and
    takes no feedback. *)
#[global] Instance counter_search : Search nat := {
  search_suggest n := Some (VDict [("x", VNum (Z.of_nat n))], Datatypes.S n);
  search_observe n _ _ := n;
  search_get_config n := VDict [("counter", VNum (Z.of_nat n))]
}.

(** *** A sample run

    One worker, the budget stopper with a budget of one success, the
    sample search, and an environment in which the first evaluation has
    completed by the second pass and every evaluation returns.  The
    readings and durations are small whole numbers, whose sums and
    differences no rounding changes. *)
Definition sample_humanize (id : string) : string := "run-" +:+ id.

Definition sample_context : RunContext :=
  {| max_workers := 1; shutdown_duration := 30; wait_per_loop := 5 |}.

Definition sample_new (name_arg : option string) : Run nat :=
  new sample_humanize 0%nat (VDict [("eval", VStr "sample")])
    (budget_stopper 1) None ["TimeoutError"] name_arg sample_context "0a1b".

Definition sample_env : Env :=
  {| t_start := 0; t_end := 10;
     outcome := fun f => Returned (Z.of_nat f) 0 (VDict []);
     float_add := Z.add; float_sub := Z.sub |}.

(** The first two passes of the sample run, and the loop test of the
    third. *)
Definition first_tick : Tick :=
  {| t_test := 0; t_status := 0; completed := ∅; t_wait := 5 |}.

Definition second_tick : Tick :=
  {| t_test := 5; t_status := 5; completed := {[0%nat]}; t_wait := 10 |}.

Definition third_tick : Tick :=
  {| t_test := 10; t_status := 10; completed := {[0%nat; 1%nat]}; t_wait := 15 |}.

Definition sample_ticks : list Tick := [first_tick; second_tick; third_tick].

(** The sample run after [prepare(Path("."))] on an empty disk, and the
    disk it leaves. *)
Definition sample_ready : Run nat :=
  match prepare (sample_new None) [] empty_fs with
  | Ok (r, _) => r
  | Raise _ => sample_new None
  end.

Definition sample_disk : FS :=
  match prepare (sample_new None) [] empty_fs with
  | Ok (_, fs) => fs
  | Raise _ => empty_fs
  end.

(** What [run] reads from the prepared sample run, and the loop state it
    starts from. *)
Definition sample_attrs : Prepared nat :=
  {| p_name := "run-0a1b"; p_work_directory := ["run_run-0a1b"];
     p_stop := budget_stopper 1; p_context := sample_context |}.

Definition sample_first : Loop nat :=
  {| futures := ∅;
     l_state := new_state 0%nat [] [];
     l_pool := new_pool 1 (VDict [("eval", VStr "sample")]) None ["TimeoutError"];
     l_fs := sample_disk |}.

(** The loop state between the first two passes. *)
Definition sample_second : Loop nat :=
  match loop sample_attrs sample_env Never [first_tick] sample_first with
  | Ok (Running l) => l
  | _ => sample_first
  end.

(** The loop state after the first two passes, and what [run] reports when
    the observations end there. *)
Definition sample_third : Loop nat :=
  match loop sample_attrs sample_env Never [first_tick; second_tick] sample_first with
  | Ok (Running l) => l
  | _ => sample_first
  end.

Definition sample_running : RunEnd nat :=
  {| end_run := set_state_pool sample_ready (l_state sample_third)
                  (l_pool sample_third);
     end_fs := l_fs sample_third;
     end_futures := futures sample_third |}.

(** What [run] reports when the observations end after the first pass. *)
Definition sample_started : RunEnd nat :=
  {| end_run := set_state_pool sample_ready (l_state sample_second)
                  (l_pool sample_second);
     end_fs := l_fs sample_second;
     end_futures := futures sample_second |}.

(** Two configurations, and a database whose two rankings disagree. *)
Definition cfg_a : Value := VDict [("x", VNum 0)].
Definition cfg_b : Value := VDict [("x", VNum 1)].
Definition sample_top (db : ResultDB) : list Value := [cfg_a; cfg_b].
Definition sample_refined (db : ResultDB) : list Value := [cfg_b; cfg_a].


End Tune.

(** ** [memcached]: calls interleaved with [clear_cache], and recency *)

Module CachingOps.

Import Caching.

Section Ops.

Context {Args Value Key : Type} `{EqDecision Key}.
Variable fast_hash : Args -> Key.
Variable f : Args -> Value.

(** [make_memcached(max_entries)(f)]: the decorator hands [f] and
    [max_entries] to the constructor. *)
Definition make_memcached (max_entries : Z) : memcached Args Value Key :=
  init max_entries.

(** What a user does with the wrapper: call it, or clear its cache. *)
Inductive Op : Type :=
| Call (a : Args)
| ClearCache.

Definition step (m : memcached Args Value Key) (op : Op)
  : memcached Args Value Key :=
  match op with
  | Call a => snd (call fast_hash f m a)
  | ClearCache => clear_cache m
  end.

(** The object after a sequence of operations on a fresh wrapper. *)
Definition steps (max_entries : Z) (ops : list Op) : memcached Args Value Key :=
  fold_left step ops (make_memcached max_entries).

(** The values the calls of a sequence of operations return, in order. *)
Fixpoint returned (m : memcached Args Value Key) (ops : list Op) : list Value :=
  match ops with
  | [] => []
  | Call a :: rest =>
      fst (call fast_hash f m a) :: returned (snd (call fast_hash f m a)) rest
  | ClearCache :: rest => returned (clear_cache m) rest
  end.

(** The arguments of the calls of a sequence of operations. *)
Fixpoint called (ops : list Op) : list Args :=
  match ops with
  | [] => []
  | Call a :: rest => a :: called rest
  | ClearCache :: rest => called rest
  end.

(** The number of calls after the last [clear_cache]. *)
Definition since_clear (ops : list Op) : Z :=
  fold_left (fun c op => match op with Call _ => c + 1 | ClearCache => 0 end)
    ops 0.

(** The position in [ks] of the last occurrence of [k]. *)
Fixpoint last_use (ks : list Key) (k : Key) : option Z :=
  match ks with
  | [] => None
  | k' :: rest =>
      match last_use rest k with
      | Some i => Some (i + 1)
      | None => if decide (k' = k) then Some 0 else None
      end
  end.

(** The recency bookkeeping after the calls [l]: the counter of a cached
    key is the position of its last call; a key that was called and is not
    cached was last called before every cached key, and the cache is then
    full. *)
Record lru_inv (l : list Args) (m : memcached Args Value Key) : Prop := {
  lru_wf : well_formed m;
  lru_clock : lruc m = Z.of_nat (length l);
  lru_cached : forall k it, dict_get (cache m) k = Some it ->
    last_use (map fast_hash l) k = Some (fst it);
  lru_evicted : forall k i, last_use (map fast_hash l) k = Some i ->
    dict_get (cache m) k = None ->
    dict_len (cache m) = Z.max 0 (max_entries m) /\
    forall k' it', dict_get (cache m) k' = Some it' -> i < fst it'
}.

(** *** A wrapped function that raises

    [self.f] as the code calls it: the call returns a value or raises. *)
Variable g : Args -> Result Value.

(** [memcached.__call__] with such a function: what the call returns or
    raises, and the object afterwards.  On a miss the two miss counters
    are raised before [self.f] is called; when that call raises, the
    exception leaves [__call__] there, with the cache and [lruc] as they
    were. *)
Definition try_call (m : memcached Args Value Key) (args : Args)
  : Result Value * memcached Args Value Key :=
  let key := fast_hash args in
  match dict_get (cache m) key with
  | Some item =>
      (Ok (snd item),
       {| max_entries := max_entries m;
          cache := dict_touch (cache m) key (lruc m);
          lruc := lruc m + 1;
          hits := hits m + 1;
          misses := misses m;
          total_hits := total_hits m + 1;
          total_misses := total_misses m;
          invoked := invoked m |})
  | None =>
      match g args with
      | Raise e =>
          (Raise e,
           {| max_entries := max_entries m;
              cache := cache m;
              lruc := lruc m;
              hits := hits m;
              misses := misses m + 1;
              total_hits := total_hits m;
              total_misses := total_misses m + 1;
              invoked := args :: invoked m |})
      | Ok value =>
          let cache1 := dict_set (cache m) key (lruc m, value) in
          let lruc1 := lruc m + 1 in
          let cache2 :=
            if max_entries m <? dict_len cache1
            then dict_del cache1 (victim lruc1 key cache1)
            else cache1 in
          (Ok value,
           {| max_entries := max_entries m;
              cache := cache2;
              lruc := lruc1;
              hits := hits m;
              misses := misses m + 1;
              total_hits := total_hits m;
              total_misses := total_misses m + 1;
              invoked := args :: invoked m |})
      end
  end.

Definition try_step (m : memcached Args Value Key) (op : Op)
  : memcached Args Value Key :=
  match op with
  | Call a => snd (try_call m a)
  | ClearCache => clear_cache m
  end.

(** The object after a sequence of operations on a fresh wrapper, a call
    that raised being followed by the next operation. *)
Definition try_steps (max_entries : Z) (ops : list Op)
  : memcached Args Value Key :=
  fold_left try_step ops (make_memcached max_entries).

(** The number of calls of a sequence of operations that raised. *)
Fixpoint raised (m : memcached Args Value Key) (ops : list Op) : Z :=
  match ops with
  | [] => 0
  | Call a :: rest =>
      match fst (try_call m a) with
      | Raise _ => 1 + raised (snd (try_call m a)) rest
      | Ok _ => raised (snd (try_call m a)) rest
      end
  | ClearCache :: rest => raised (clear_cache m) rest
  end.

End Ops.

(** *** A sample function that raises

    The square of a number, which raises at 2. *)
Definition sample_square (a : nat) : Result nat :=
  if Nat.eqb a 2 then Raise (Exception "two") else Ok (a * a)%nat.

Arguments Op : clear implicits.

End CachingOps.

(** ** [cmlkit.engine.caching.diskcached] *)

Module DiskCache.

(** What is found under a file name of the cache: a file this cache has
    saved, or one that [read_npy] cannot read (it raises [EOFError],
    [OSError] or [UnpicklingError]). *)
Inductive CacheFile (Value : Type) : Type :=
| Saved (val : Value) (name : string) (duration : Z)
| Unreadable.
Arguments Saved {Value} val name duration.
Arguments Unreadable {Value}.

Record Disk (Value : Type) : Type := {
  folders : gset string;
  files : gmap string (CacheFile Value)
}.
Arguments folders {Value} _.
Arguments files {Value} _.

Section Diskcached.

Context {Args Value : Type}.

(** [compute_hash] and [os.path.normpath] come from outside the embedded
    sources. *)
Variable compute_hash : string -> Args -> string.
Variable normpath : string -> string.

(** The wrapped function. *)
Variable f : Args -> Value.

(** The default of [min_duration], half a second, in the unit in which
    durations are measured. *)
Variable half_second : Z.

Record diskcached : Type := {
  cache_location : string;
  name : string;
  min_duration : Z;
  hits : Z;
  misses : Z;
  (* Not a field of the class: the arguments [self.f] has been invoked
     with, latest first. *)
  invoked : list Args
}.

(** [diskcached.__init__] *)
Definition init (cache_location name : string) (min_duration : Z) : diskcached :=
  {| cache_location := normpath cache_location +:+ "/";
     name := name;
     min_duration := min_duration;
     hits := 0; misses := 0;
     invoked := [] |}.

(** [make_discached(cache_location, name)(f)]: the name is not handed on,
    so the constructor uses its defaults. *)
Definition make_discached (cache_location name : string) : diskcached :=
  init cache_location "noname" half_second.

(** [self.cache_location + self.name + '.' + key + '.cache.npy'] *)
Definition filename (c : diskcached) (args : Args) : string :=
  cache_location c +:+ name c +:+ "." +:+ compute_hash (name c) args
    +:+ ".cache.npy".

(** [diskcached.compute_cache_result]; [duration] is the time the call of
    [f] took. *)
Definition compute_cache_result (c : diskcached) (disk : Disk Value)
    (args : Args) (file : string) (duration : Z)
  : Value * diskcached * Disk Value :=
  let val := f args in
  let disk1 :=
    if min_duration c <? duration
    then {| folders := {[cache_location c]} ∪ folders disk;
            files := <[file := Saved val (name c) duration]> (files disk) |}
    else disk in
  (val,
   {| cache_location := cache_location c; name := name c;
      min_duration := min_duration c;
      hits := hits c; misses := misses c + 1;
      invoked := args :: invoked c |},
   disk1).

(** [diskcached.__call__] *)
Definition call (c : diskcached) (disk : Disk Value) (args : Args)
    (duration : Z) : Value * diskcached * Disk Value :=
  let file := filename c args in
  match files disk !! file with
  | Some (Saved val _ _) =>
      (val,
       {| cache_location := cache_location c; name := name c;
          min_duration := min_duration c;
          hits := hits c + 1; misses := misses c;
          invoked := invoked c |},
       disk)
  | Some Unreadable =>
      let disk1 := {| folders := folders disk;
                      files := delete file (files disk) |} in
      compute_cache_result c disk1 args file duration
  | None => compute_cache_result c disk args file duration
  end.

(** The value a call returns, and the object and the disk after it. *)
Definition value_of (r : Value * diskcached * Disk Value) : Value :=
  fst (fst r).
Definition object_of (r : Value * diskcached * Disk Value) : diskcached :=
  snd (fst r).
Definition disk_of (r : Value * diskcached * Disk Value) : Disk Value :=
  snd r.

(** A sequence of calls, each with the time its computation would take:
    the returned values, the final object and the final disk. *)
Fixpoint calls (c : diskcached) (disk : Disk Value) (l : list (Args * Z))
  : list Value * diskcached * Disk Value :=
  match l with
  | [] => ([], c, disk)
  | (a, d) :: rest =>
      let '(v, c1, disk1) := call c disk a d in
      let '(vs, c2, disk2) := calls c1 disk1 rest in
      (v :: vs, c2, disk2)
  end.

(** Every readable file under a name of this cache holds the value of [f]
    at arguments with that file name. *)
Definition faithful (c : diskcached) (disk : Disk Value) : Prop :=
  forall a v nm d, files disk !! filename c a = Some (Saved v nm d) -> v = f a.

End Diskcached.

Arguments diskcached : clear implicits.

(** *** A sample cache

    The function cached is the negation of a truth value; [hash] names
    the two arguments apart, paths are taken to be normal already, and
    durations are counted in tenths of a second. *)
Definition sample_hash (nm : string) (a : bool) : string :=
  if a then "t" else "f".

Definition sample_normpath (path : string) : string := path.

Definition empty_disk : Disk bool := {| folders := ∅; files := ∅ |}.

Definition sample_cache : diskcached bool :=
  init sample_normpath "cache" "neg" 5.

(** The sample disk with an unreadable file under the name of [true]. *)
Definition sample_broken : Disk bool :=
  {| folders := {["cache/"]};
     files := {[filename sample_hash sample_cache true := Unreadable]} |}.

End DiskCache.

(** ** More of the sample run *)

Module TuneSamples.

Import Tune.

(** What [__call__] leaves behind on the prepared sample run, called with
    a duration of ten seconds. *)
Definition sample_called : RunEnd nat :=
  match call sample_top sample_refined sample_ready (Finite 10) sample_env
          sample_ticks sample_disk with
  | Ok p => reached p
  | Raise _ => sample_running
  end.

End TuneSamples.

(** ** Python values of the settings code

    The settings that [autotune.parse] and [cmlkit.model_spec] work on are
    nested dictionaries as they come out of a YAML file or out of
    hyperopt.  Dictionaries keep their insertion order; their keys are
    strings.  No arithmetic is done on floats, which are kept as decimal
    literals [m * 10^e]. *)

Module Py.

Import Stdlib.Strings.Ascii.

Inductive PyVal : Type :=
| PNone
| PBool (b : bool)
| PInt (n : Z)
| PFloat (m e : Z)
| PStr (s : string)
| PList (xs : list PyVal)
| PTuple (xs : list PyVal)
| PDict (items : list (string * PyVal))
(* [bson.son.SON], a subclass of [dict] *)
| PSON (items : list (string * PyVal)).

Inductive Error : Type :=
| IndexError
| KeyError (key : PyVal)
| AttributeError (attr : string)
| TypeError
| NotImplementedError (msg : string).

Inductive Res (A : Type) : Type :=
| Val (a : A)
| Exn (e : Error).
Arguments Val {A} a.
Arguments Exn {A} e.

#[global] Instance Res_ret : MRet Res := fun A a => Val a.
#[global] Instance Res_bind : MBind Res := fun A B k m =>
  match m with
  | Val a => k a
  | Exn e => Exn e
  end.

(** [xs[i]] on a sequence *)
Definition index {A : Type} (xs : list A) (i : nat) : Res A :=
  match xs !! i with
  | Some x => Val x
  | None => Exn IndexError
  end.

(** [d.get(k)] on the items of a dictionary *)
Fixpoint lookup_item (d : list (string * PyVal)) (k : string) : option PyVal :=
  match d with
  | [] => None
  | (k', v) :: rest => if String.eqb k' k then Some v else lookup_item rest k
  end.

(** [d[k] = v]: a key that is present keeps its place. *)
Fixpoint setitem (d : list (string * PyVal)) (k : string) (v : PyVal)
  : list (string * PyVal) :=
  match d with
  | [] => [(k, v)]
  | (k', v') :: rest =>
      if String.eqb k' k then (k', v) :: rest else (k', v') :: setitem rest k v
  end.

(** [d.update(items)] *)
Definition update (d items : list (string * PyVal)) : list (string * PyVal) :=
  fold_left (fun acc kv => setitem acc (fst kv) (snd kv)) items d.

(** [{**a, **b}] *)
Definition merged (a b : list (string * PyVal)) : list (string * PyVal) :=
  update (update [] a) b.

(** [x[k]] with a string [k] *)
Definition subscript (x : PyVal) (k : string) : Res PyVal :=
  match x with
  | PDict items | PSON items =>
      match lookup_item items k with
      | Some v => Val v
      | None => Exn (KeyError (PStr k))
      end
  | _ => Exn TypeError
  end.

(** [x.items()] *)
Definition items_of (x : PyVal) : Res (list (string * PyVal)) :=
  match x with
  | PDict items | PSON items => Val items
  | _ => Exn (AttributeError "items")
  end.

(** [x[0]] *)
Definition subscript0 (x : PyVal) : Res PyVal :=
  match x with
  | PTuple xs | PList xs => index xs 0
  | PStr EmptyString => Exn IndexError
  | PStr (String c _) => Val (PStr (String c ""))
  | PDict _ | PSON _ => Exn (KeyError (PInt 0))
  | _ => Exn TypeError
  end.

Fixpoint characters (s : string) : list PyVal :=
  match s with
  | EmptyString => []
  | String c rest => PStr (String c "") :: characters rest
  end.

(** The elements of [x[1:]], for an [x] that has an [x[0]]. *)
Definition slice1 (x : PyVal) : list PyVal :=
  match x with
  | PTuple xs | PList xs => tail xs
  | PStr s => characters (match s with EmptyString => "" | String _ r => r end)
  | _ => []
  end.

(** [s.split('_', 1)] *)
Fixpoint split_once (s : string) : list string :=
  match s with
  | EmptyString => [""]
  | String c rest =>
      if Ascii.eqb c "_"%char then [""; rest]
      else match split_once rest with
           | h :: t => String c h :: t
           | [] => [String c ""]
           end
  end.

(** [x.split('_', 1)] *)
Definition split (x : PyVal) : Res (list string) :=
  match x with
  | PStr s => Val (split_once s)
  | _ => Exn (AttributeError "split")
  end.

End Py.

(** ** [autotune.parse] *)

Module Parse.

Import Py.

Section WithModules.

(** What the grids, the hyperopt functions and the losses are. *)
Variables Grid Hyper Loss : Type.

(** The attributes of the modules [qmmltools.autotune.grid], [hyperopt.hp]
    and [qmmltools.stats] (not among the sources): what calling the
    attribute of that name with the given arguments does, if the module
    has it. *)
Variable gr : string -> option (list PyVal -> Res Grid).
Variable hp : string -> option (list PyVal -> Res Hyper).
Variable qmts : string -> option Loss.

(** [string_to_loss] *)
Definition string_to_loss (s : string) : Res Loss :=
  match qmts s with
  | Some f => Val f
  | None =>
      Exn (NotImplementedError ("Loss named " +:+ s +:+ " is not implemented."))
  end.

(** [is_hyperopt] *)
Definition is_hyperopt (x : PyVal) : Res bool :=
  match x with
  | PTuple xs | PList xs =>
      x0 ← index xs 0;
      match x0 with
      | PStr str =>
          s0 ← index (split_once str) 0;
          if String.eqb s0 "hp" then Val true else Val false
      | _ => Val false
      end
  | _ => Val false
  end.

(** [to_hyperopt] *)
Definition to_hyperopt (x : PyVal) : Res Hyper :=
  x0 ← subscript0 x;
  s ← split x0;
  s1 ← index s 1;
  match hp s1 with
  | Some f => f (slice1 x)
  | None =>
      Exn (NotImplementedError
             ("Hyperopt can't find function named " +:+ s1 +:+ "!"))
  end.

(** [is_grid] *)
Definition is_grid (x : PyVal) : Res bool :=
  match x with
  | PTuple xs | PList xs =>
      x0 ← index xs 0;
      match x0 with
      | PStr str =>
          s0 ← index (split_once str) 0;
          if String.eqb s0 "gr" then Val true else Val false
      | _ => Val false
      end
  | _ => Val false
  end.

(** [to_grid] *)
Definition to_grid (x : PyVal) : Res Grid :=
  x0 ← subscript0 x;
  s ← split x0;
  s1 ← index s 1;
  match gr s1 with
  | Some f => f (slice1 x)
  | None =>
      Exn (NotImplementedError
             ("Grid named " +:+ s1 +:+ " is not (yet) implemented!"))
  end.

End WithModules.

(** *** Sample modules and patterns

    A grid module with the one function 'lin' and a hyperopt with the one
    function 'choice'; what they return is taken to be the list of their
    arguments. *)
Definition sample_gr (nm : string) : option (list PyVal -> Res (list PyVal)) :=
  if String.eqb nm "lin" then Some (fun args => Val args) else None.

Definition sample_hp (nm : string) : option (list PyVal -> Res (list PyVal)) :=
  if String.eqb nm "choice" then Some (fun args => Val args) else None.

Definition sample_grid : PyVal :=
  PTuple [PStr "gr_lin"; PInt 0; PInt 1; PInt 3].

Definition sample_choice : PyVal :=
  PList [PStr "hp_choice"; PStr "mbtr_1"; PList [PInt 1; PInt 2]].

End Parse.

(** ** [cmlkit.model_spec] *)

Module ModelSpecs.

Import Py.

Definition version : PyVal := PFloat 1 (-1).

Definition mbtr_defaults : list (string * PyVal) :=
  [("corrf", PStr "identity");
   ("norm", PNone);
   ("flatten", PBool true);
   ("elems", PNone);
   ("acc", PFloat 1 (-3))].

Section WithLibraries.

(** [cmlkit.utils.hashing.hash_sortable_dict] and [SON.to_dict] of bson
    (not among the sources). *)
Variable hash_sortable_dict : PyVal -> string.
Variable to_plain_dict : list (string * PyVal) -> list (string * PyVal).

Record ModelSpec : Type := {
  name : PyVal;
  desc : PyVal;
  data : PyVal;
  mbtrs : PyVal;
  krr : PyVal;
  spec_version : PyVal;
  hashes : list (string * string)
}.

(** [{**mbtr_defaults, **params}]: [params] has to be a mapping. *)
Definition with_defaults (params : PyVal) : Res PyVal :=
  match params with
  | PDict items | PSON items => Val (PDict (merged mbtr_defaults items))
  | _ => Exn TypeError
  end.

(** The loop of [__init__] over [mbtrs.items()]. *)
Fixpoint add_defaults (items : list (string * PyVal))
    (mbtrs_with_defaults : list (string * PyVal))
  : Res (list (string * PyVal)) :=
  match items with
  | [] => Val mbtrs_with_defaults
  | (mbtr, params) :: rest =>
      p ← with_defaults params;
      add_defaults rest (setitem mbtrs_with_defaults mbtr p)
  end.

(** [ModelSpec.__init__] *)
Definition init (name desc data mbtrs krr : PyVal) : Res ModelSpec :=
  items ← items_of mbtrs;
  mbtrs_with_defaults ← add_defaults items [];
  Val {| name := name; desc := desc; data := data;
         mbtrs := PDict mbtrs_with_defaults;
         krr := krr;
         spec_version := version;
         hashes := [("mbtrs", hash_sortable_dict mbtrs);
                    ("krr", hash_sortable_dict krr);
                    ("data", hash_sortable_dict data)] |}.

(** What [convert_to_tuple] leaves at a key that held [v]: a dictionary
    is converted in place, a list replaced by a tuple of its elements. *)
Fixpoint tupled (v : PyVal) : PyVal :=
  match v with
  | PDict items => PDict (map (fun kv => (fst kv, tupled (snd kv))) items)
  | PSON items => PSON (map (fun kv => (fst kv, tupled (snd kv))) items)
  | PList xs => PTuple xs
  | _ => v
  end.

(** [convert_to_tuple(d)]: the dictionary [d] after the call. *)
Definition convert_to_tuple (d : PyVal) : Res PyVal :=
  items ← items_of d;
  Val (match d with
       | PSON _ => PSON (map (fun kv => (fst kv, tupled (snd kv))) items)
       | _ => PDict (map (fun kv => (fst kv, tupled (snd kv))) items)
       end).

(** What the loop of [convert_from_SON] leaves at a key that held [v]. *)
Fixpoint plain (v : PyVal) : PyVal :=
  match v with
  | PSON items => PDict (to_plain_dict items)
  | PDict items => PDict (map (fun kv => (fst kv, plain (snd kv))) items)
  | _ => v
  end.

(** [convert_from_SON(d)]: the value returned. *)
Definition convert_from_SON (d : PyVal) : Res PyVal :=
  match d with
  | PSON items => Val (PDict (to_plain_dict items))
  | _ =>
      items ← items_of d;
      Val (PDict (map (fun kv => (fst kv, plain (snd kv))) items))
  end.

(** [ModelSpec.from_dict] *)
Definition from_dict (d : PyVal) : Res ModelSpec :=
  d ← convert_from_SON d;
  d ← convert_to_tuple d;
  name ← subscript d "name";
  desc ← subscript d "desc";
  data ← subscript d "data";
  mbtrs ← subscript d "mbtrs";
  krr ← subscript d "krr";
  init name desc data mbtrs krr.

(** [ModelSpec.to_dict] *)
Definition to_dict (s : ModelSpec) : PyVal :=
  PDict [("name", name s); ("desc", desc s); ("data", data s);
         ("mbtrs", mbtrs s); ("krr", krr s)].

(** The hashes [__init__] computes from the attributes of [s]. *)
Definition own_hashes (s : ModelSpec) : list (string * string) :=
  [("mbtrs", hash_sortable_dict (mbtrs s));
   ("krr", hash_sortable_dict (krr s));
   ("data", hash_sortable_dict (data s))].

End WithLibraries.

(** *** A sample document

    A stand-in for [SON.to_dict], which goes through dictionaries and
    lists, a hash that tells nothing apart, and a document as hyperopt
    hands it over. *)
Fixpoint sample_plain_value (v : PyVal) : PyVal :=
  match v with
  | PSON items | PDict items =>
      PDict (map (fun kv => (fst kv, sample_plain_value (snd kv))) items)
  | PList xs => PList (map sample_plain_value xs)
  | _ => v
  end.

Definition sample_to_dict (items : list (string * PyVal))
  : list (string * PyVal) :=
  map (fun kv => (fst kv, sample_plain_value (snd kv))) items.

Definition sample_hash (d : PyVal) : string := "0".

Definition sample_params : list (string * PyVal) :=
  [("k", PInt 2); ("acc", PFloat 1 (-2)); ("d", PList [PFloat 1 (-1); PInt 0])].

Definition sample_mbtrs : list (string * PyVal) :=
  [("mbtr_1", PDict sample_params)].

Definition sample_document : PyVal :=
  PSON [("name", PStr "model");
        ("desc", PStr "a sample");
        ("data", PDict [("property", PStr "fe")]);
        ("mbtrs", PSON sample_mbtrs);
        ("krr", PDict [("kernelf", PList [PStr "gaussian"; PList [PInt 1]])])].

Definition sample_spec : ModelSpec :=
  match from_dict sample_hash sample_to_dict sample_document with
  | Val s => s
  | Exn _ =>
      {| name := PNone; desc := PNone; data := PNone; mbtrs := PNone;
         krr := PNone; spec_version := version; hashes := [] |}
  end.

(** The specification [__init__] makes from the sample MBTRs. *)
Definition sample_made : ModelSpec :=
  match init sample_hash (PStr "model") (PStr "") (PDict []) (PDict sample_mbtrs)
          (PDict []) with
  | Val s => s
  | Exn _ => sample_spec
  end.

End ModelSpecs.

(** * Properties *)

(** ** The error monad *)

Lemma bind_Ok_inv {A B : Type} (m : Result A) (k : A -> Result B) (b : B) :
  m ≫= k = Ok b -> exists a, m = Ok a /\ k a = Ok b.
Proof.
  destruct m as [a|e]; simpl; intros Hb; [eauto | discriminate].
Qed.

(** ** [convert] *)

Section ConvertFacts.

Import PropertyConverter.

Variable Num : Type.
Variables num_div num_mul : Num -> Num -> Result Num.

Lemma convert_same (data : Data Num) (prop : Num) (u : string) :
  convert Num num_div num_mul data prop u u = Ok prop.
Proof.
  unfold convert. by rewrite String.eqb_refl.
Qed.

Lemma convert_foreign (data : Data Num) (prop : Num) (origin target : string) :
  origin <> target ->
  family data <> Some "kaggle" ->
  raises (convert Num num_div num_mul data prop origin target).
Proof.
  intros Hne Hfam. unfold convert, raises.
  apply String.eqb_neq in Hne. rewrite Hne.
  destruct (family data) as [fam|] eqn:Efam; simpl.
  - destruct (String.eqb fam "kaggle") eqn:Ek.
    + apply String.eqb_eq in Ek. subst fam. congruence.
    + destruct (name data); simpl; eauto.
  - eauto.
Qed.

(** C10.  With equal origin and target, [convert] returns [prop] as it is,
    whatever [data] is (even an object with none of the attributes the
    function reads); and with an origin different from the target, every
    [data] whose family is not 'kaggle' makes [convert] raise. *)
Theorem convert_identity_and_foreign_family
    (data : Data Num) (prop : Num) (origin target : string) :
  (origin = target ->
     forall data', convert Num num_div num_mul data' prop origin target = Ok prop) /\
  (origin <> target ->
     family data <> Some "kaggle" ->
     raises (convert Num num_div num_mul data prop origin target)).
Proof.
  split.
  - intros -> data'. apply convert_same.
  - apply convert_foreign.
Qed.

End ConvertFacts.

(** C10 at concrete inputs: a data object without attributes for equal
    units, and a 'qm9' data set for different ones. *)
Lemma convert_identity_and_foreign_family_witness :
  PropertyConverter.convert Z (fun a _ => Ok a) (fun a _ => Ok a)
    {| PropertyConverter.family := None; PropertyConverter.name := None;
       PropertyConverter.p := None |} 7 "fe" "fe" = Ok 7 /\
  raises (PropertyConverter.convert Z (fun a _ => Ok a) (fun a _ => Ok a)
    {| PropertyConverter.family := Some "qm9"; PropertyConverter.name := Some "qm9-set";
       PropertyConverter.p := Some ∅ |} 7 "fec" "fe").
Proof.
  split.
  - apply (proj1 (convert_identity_and_foreign_family Z (fun a _ => Ok a) (fun a _ => Ok a)
             {| PropertyConverter.family := None; PropertyConverter.name := None;
                PropertyConverter.p := None |} 7 "fe" "fe")).
    reflexivity.
  - apply (proj2 (convert_identity_and_foreign_family Z (fun a _ => Ok a) (fun a _ => Ok a)
             {| PropertyConverter.family := Some "qm9"; PropertyConverter.name := Some "qm9-set";
                PropertyConverter.p := Some ∅ |} 7 "fec" "fe")).
    + discriminate.
    + discriminate.
Defined.

(** ** [memcached] *)

Section DictFacts.

Import Caching.

Context {Value Key : Type} `{EqDecision Key}.

Implicit Types (d : Dict Value Key) (k : Key) (it : Item (Value:=Value)).

Lemma dict_get_elem d k it : dict_get d k = Some it -> (k, it) ∈ d.
Proof.
  induction d as [|[k' it'] d IH]; simpl; [discriminate|].
  destruct (decide (k' = k)) as [->|Hne]; intros Hg.
  - injection Hg as ->. apply list_elem_of_here.
  - apply list_elem_of_further. auto.
Qed.

Lemma dict_get_None d k : dict_get d k = None <-> k ∉ map fst d.
Proof.
  induction d as [|[k' it'] d IH]; simpl.
  - split; [intros _ Hin; inversion Hin | done].
  - destruct (decide (k' = k)) as [->|Hne].
    + split; [discriminate | intros Hn; exfalso; apply Hn, list_elem_of_here].
    + rewrite IH. split.
      * intros Hn Hin. inversion Hin; subst; congruence.
      * intros Hn Hin. apply Hn. by apply list_elem_of_further.
Qed.

Lemma elem_dict_get d k it :
  NoDup (map fst d) -> (k, it) ∈ d -> dict_get d k = Some it.
Proof.
  induction d as [|[k' it'] d IH]; simpl; intros Hnd Hin.
  - inversion Hin.
  - apply NoDup_cons in Hnd as [Hfresh Hnd].
    destruct (decide (k' = k)) as [->|Hne].
    + inversion Hin; subst; [done|].
      exfalso. apply Hfresh.
      change k with (fst (k, it)). by apply list_elem_of_fmap_2.
    + inversion Hin; subst; [congruence | auto].
Qed.

Lemma dict_set_fresh d k it :
  dict_get d k = None -> dict_set d k it = d ++ [(k, it)].
Proof.
  induction d as [|[k' it'] d IH]; simpl; [done|].
  destruct (decide (k' = k)); [discriminate|].
  intros Hg. by rewrite IH.
Qed.

Lemma dict_get_app_fresh d k it k' :
  dict_get (d ++ [(k, it)]) k' =
    match dict_get d k' with
    | Some it' => Some it'
    | None => if decide (k = k') then Some it else None
    end.
Proof.
  induction d as [|[k0 it0] d IH]; simpl; [done|].
  destruct (decide (k0 = k')); [done | apply IH].
Qed.

Lemma dict_touch_keys d k c : map fst (dict_touch d k c) = map fst d.
Proof.
  induction d as [|[k' it'] d IH]; simpl; [done|].
  destruct (decide (k' = k)); simpl; [done | by rewrite IH].
Qed.

Lemma dict_touch_length d k c : length (dict_touch d k c) = length d.
Proof.
  rewrite <- (length_map fst (dict_touch d k c)), dict_touch_keys.
  apply length_map.
Qed.

Lemma dict_get_touch d k c k' :
  dict_get (dict_touch d k c) k' =
    if decide (k = k') then (fun it => (c, snd it)) <$> dict_get d k
    else dict_get d k'.
Proof.
  induction d as [|[k0 it0] d IH]; simpl.
  - by case_decide.
  - destruct (decide (k0 = k)) as [->|Hne]; simpl.
    + repeat case_decide; simplify_eq; done.
    + rewrite IH. repeat case_decide; simplify_eq; done.
Qed.

Lemma dict_del_length d k it :
  dict_get d k = Some it -> length d = Datatypes.S (length (dict_del d k)).
Proof.
  induction d as [|[k' it'] d IH]; simpl; [discriminate|].
  destruct (decide (k' = k)); simpl; [done|].
  intros Hg. by rewrite <- IH.
Qed.

Lemma dict_del_keys_sub d k k' :
  k' ∈ map fst (dict_del d k) -> k' ∈ map fst d.
Proof.
  induction d as [|[k0 it0] d IH]; simpl; [done|].
  destruct (decide (k0 = k)); simpl.
  - intros Hin. by apply list_elem_of_further.
  - intros Hin. inversion Hin; subst.
    + apply list_elem_of_here.
    + apply list_elem_of_further. auto.
Qed.

Lemma dict_del_NoDup d k :
  NoDup (map fst d) -> NoDup (map fst (dict_del d k)).
Proof.
  induction d as [|[k0 it0] d IH]; simpl; [done|].
  intros Hnd. apply NoDup_cons in Hnd as [Hfresh Hnd].
  destruct (decide (k0 = k)); simpl; [done|].
  apply NoDup_cons. split; [|auto].
  intros Hin. apply Hfresh. by eapply dict_del_keys_sub.
Qed.

Lemma dict_get_del d k k' :
  NoDup (map fst d) ->
  dict_get (dict_del d k) k' =
    if decide (k = k') then None else dict_get d k'.
Proof.
  induction d as [|[k0 it0] d IH]; simpl; intros Hnd.
  - by destruct (decide (k = k')).
  - apply NoDup_cons in Hnd as [Hfresh Hnd].
    destruct (decide (k0 = k)) as [->|Hne]; simpl.
    + destruct (decide (k = k')) as [->|Hne'].
      * by apply dict_get_None.
      * done.
    + destruct (decide (k0 = k')) as [->|Hne'].
      * by rewrite decide_False.
      * by apply IH.
Qed.

(** The eviction loop ends on the smallest counter it has seen, and on
    the key it was seen with. *)
Lemma scan_spec d c0 k0 :
  let r := scan (c0, k0) d in
  fst r <= c0 /\
  (forall e, e ∈ d -> fst r <= fst (snd e)) /\
  (r = (c0, k0) \/ exists v, (snd r, (fst r, v)) ∈ d).
Proof.
  revert c0 k0. induction d as [|[k1 [c1 v1]] d IH]; intros c0 k0; simpl.
  - split; [lia|]. split; [intros e He; inversion He | by left].
  - unfold scan in *. simpl.
    change (scan_step (c0, k0) (k1, (c1, v1)))
      with (if c1 <? c0 then (c1, k1) else (c0, k0)).
    destruct (c1 <? c0) eqn:Elt.
    + apply Z.ltb_lt in Elt.
      destruct (IH c1 k1) as (Hle & Hmin & Hwho).
      split; [lia|]. split.
      * intros e He. inversion He; subst; simpl; [lia | auto].
      * right. destruct Hwho as [->|[v Hv]].
        -- exists v1. simpl. apply list_elem_of_here.
        -- exists v. by apply list_elem_of_further.
    + apply Z.ltb_ge in Elt.
      destruct (IH c0 k0) as (Hle & Hmin & Hwho).
      split; [lia|]. split.
      * intros e He. inversion He; subst; simpl; [lia | auto].
      * destruct Hwho as [->|[v Hv]]; [by left|].
        right. exists v. by apply list_elem_of_further.
Qed.

End DictFacts.

Section MemcachedFacts.

Import Caching.

Context {Args Value Key : Type} `{EqDecision Key}.
Variable fast_hash : Args -> Key.
Variable f : Args -> Value.

#[local] Abbreviation call := (call fast_hash f).
#[local] Abbreviation calls := (calls fast_hash f).
#[local] Abbreviation after := (after fast_hash f).
#[local] Abbreviation sound := (sound fast_hash f).

Implicit Types (m : memcached Args Value Key) (k : Key).

Lemma init_well_formed n : well_formed (init (Args:=Args) (Value:=Value) (Key:=Key) n).
Proof.
  split; simpl; try discriminate.
  - constructor.
  - unfold dict_len. simpl. lia.
Qed.

(** A hit returns the stored value, refreshes its counter and leaves the
    rest of the object alone. *)
Lemma call_hit m args it :
  dict_get (cache m) (fast_hash args) = Some it ->
  fst (call m args) = snd it /\
  cache (snd (call m args)) = dict_touch (cache m) (fast_hash args) (lruc m) /\
  lruc (snd (call m args)) = lruc m + 1 /\
  invoked (snd (call m args)) = invoked m /\
  misses (snd (call m args)) = misses m.
Proof.
  intros Hg. unfold Caching.call. rewrite Hg. simpl. done.
Qed.

Lemma call_miss m args :
  dict_get (cache m) (fast_hash args) = None ->
  let cache1 := dict_set (cache m) (fast_hash args) (lruc m, f args) in
  fst (call m args) = f args /\
  cache (snd (call m args)) =
    (if max_entries m <? dict_len cache1
     then dict_del cache1 (victim (lruc m + 1) (fast_hash args) cache1)
     else cache1) /\
  lruc (snd (call m args)) = lruc m + 1 /\
  invoked (snd (call m args)) = args :: invoked m.
Proof.
  intros Hg. unfold Caching.call. rewrite Hg. simpl. done.
Qed.

Lemma call_max_entries m args : max_entries (snd (call m args)) = max_entries m.
Proof.
  unfold Caching.call. by destruct (dict_get (cache m) (fast_hash args)).
Qed.

(** The cache with the new entry appended, before any eviction. *)
Lemma inserted_shape m args :
  well_formed m ->
  dict_get (cache m) (fast_hash args) = None ->
  let cache1 := dict_set (cache m) (fast_hash args) (lruc m, f args) in
  cache1 = cache m ++ [(fast_hash args, (lruc m, f args))] /\
  NoDup (map fst cache1) /\
  (forall k it, dict_get cache1 k = Some it -> fst it < lruc m + 1) /\
  (forall k k' it it', dict_get cache1 k = Some it ->
     dict_get cache1 k' = Some it' -> fst it = fst it' -> k = k') /\
  dict_get cache1 (fast_hash args) = Some (lruc m, f args).
Proof.
  intros [Hk Hb Hd _] Hg cache1.
  assert (Hc : cache1 = cache m ++ [(fast_hash args, (lruc m, f args))])
    by (by apply dict_set_fresh).
  assert (Hlook : forall k it, dict_get cache1 k = Some it ->
            dict_get (cache m) k = Some it \/
            (k = fast_hash args /\ it = (lruc m, f args))).
  { intros k it. rewrite Hc, dict_get_app_fresh.
    destruct (dict_get (cache m) k) eqn:E; [intros [= ->]; by left|].
    case_decide; [|discriminate]. intros [= <-]. by right. }
  split; [done|]. split; [|split; [|split]].
  - rewrite Hc, map_app. simpl. apply NoDup_app. split; [done|]. split.
    + intros k Hin Hin'. apply list_elem_of_singleton in Hin'. subst k.
      by apply dict_get_None in Hg.
    + apply NoDup_singleton.
  - intros k it Hit. destruct (Hlook _ _ Hit) as [Ho|[-> ->]].
    + apply Hb in Ho. lia.
    + simpl. lia.
  - intros k k' it it' Hit Hit' Heq.
    destruct (Hlook _ _ Hit) as [Ho|[-> ->]];
      destruct (Hlook _ _ Hit') as [Ho'|[-> ->]]; simpl in *.
    + eauto.
    + apply Hb in Ho. lia.
    + apply Hb in Ho'. lia.
    + done.
  - rewrite Hc, dict_get_app_fresh, Hg. by rewrite decide_True.
Qed.

(** The key the eviction loop selects holds the smallest counter. *)
Lemma victim_least_recent (d : Dict Value Key) (c0 : Z) (k0 : Key) :
  NoDup (map fst d) ->
  (forall k it, dict_get d k = Some it -> fst it < c0) ->
  (forall k k' it it', dict_get d k = Some it ->
     dict_get d k' = Some it' -> fst it = fst it' -> k = k') ->
  d <> [] ->
  least_recent d (victim c0 k0 d).
Proof.
  intros Hk Hb Hd Hne. unfold victim.
  destruct (scan_spec d c0 k0) as (Hle & Hmin & Hwho). simpl in *.
  destruct Hwho as [Heq|[v Hv]].
  - exfalso. destruct d as [|[k1 it1] d']; [done|].
    assert (Hin : (k1, it1) ∈ (k1, it1) :: d') by apply list_elem_of_here.
    pose proof (Hmin _ Hin) as Hm. rewrite Heq in Hm. simpl in Hm.
    apply elem_dict_get in Hin; [|done]. apply Hb in Hin. lia.
  - apply elem_dict_get in Hv; [|done].
    exists ((scan (c0, k0) d).1, v). split; [done|].
    intros k' it' Hit' Hneq. simpl.
    pose proof (Hmin _ (dict_get_elem _ _ _ Hit')) as Hm. simpl in Hm.
    destruct (decide ((scan (c0, k0) d).1 = fst it')) as [Heq|]; [|lia].
    exfalso. apply Hneq. symmetry. eapply Hd; eauto.
Qed.

Lemma call_well_formed m args : well_formed m -> well_formed (snd (call m args)).
Proof.
  intros Hwf. pose proof Hwf as [Hk Hb Hd Hn].
  destruct (dict_get (cache m) (fast_hash args)) as [it|] eqn:Hg.
  - destruct (call_hit m args it Hg) as (_ & Hc & Hl & _).
    assert (Hlook : forall k it', dict_get (cache (snd (call m args))) k = Some it' ->
              (k = fast_hash args /\ fst it' = lruc m) \/
              (k <> fast_hash args /\ dict_get (cache m) k = Some it')).
    { intros k it'. rewrite Hc, dict_get_touch. case_decide.
      - subst k. rewrite Hg. simpl. intros [= <-]. by left.
      - intros Hit'. right. split; [congruence | done]. }
    split.
    + by rewrite Hc, dict_touch_keys.
    + rewrite Hl. intros k it' Hit'.
      destruct (Hlook _ _ Hit') as [[_ ->]|[_ Ho]]; [lia|].
      apply Hb in Ho. lia.
    + intros k k' it1 it2 H1 H2 Heq.
      destruct (Hlook _ _ H1) as [[-> E1]|[N1 O1]];
        destruct (Hlook _ _ H2) as [[-> E2]|[N2 O2]].
      * done.
      * apply Hb in O2. lia.
      * apply Hb in O1. lia.
      * eauto.
    + rewrite call_max_entries, Hc. unfold dict_len in *.
      by rewrite dict_touch_length.
  - destruct (call_miss m args Hg) as (_ & Hc & Hl & _).
    destruct (inserted_shape m args Hwf Hg) as (Happ & Hk1 & Hb1 & Hd1 & Hnew).
    set (cache1 := dict_set (cache m) (fast_hash args) (lruc m, f args)) in *.
    assert (Hlen1 : dict_len cache1 = dict_len (cache m) + 1).
    { unfold dict_len. rewrite Happ, length_app. simpl. lia. }
    destruct (max_entries m <? dict_len cache1) eqn:Eover.
    + set (k := victim (lruc m + 1) (fast_hash args) cache1) in *.
      assert (Hvic : least_recent cache1 k).
      { apply victim_least_recent; try done.
        rewrite Happ. by destruct (cache m). }
      destruct Hvic as (itv & Hitv & _).
      assert (Hlook : forall k' it', dict_get (cache (snd (call m args))) k' = Some it' ->
                dict_get cache1 k' = Some it').
      { intros k' it'. rewrite Hc, dict_get_del by done.
        case_decide; [discriminate | done]. }
      split.
      * rewrite Hc. by apply dict_del_NoDup.
      * rewrite Hl. eauto.
      * eauto.
      * rewrite call_max_entries, Hc.
        pose proof (dict_del_length _ _ _ Hitv) as Hlen.
        unfold dict_len in *. lia.
    + apply Z.ltb_ge in Eover. split.
      * by rewrite Hc.
      * rewrite Hl, Hc. done.
      * rewrite Hc. done.
      * rewrite call_max_entries, Hc. lia.
Qed.

Lemma calls_cons m a l :
  calls m (a :: l) =
    (fst (call m a) :: fst (calls (snd (call m a)) l),
     snd (calls (snd (call m a)) l)).
Proof.
  simpl. destruct (call m a) as [v m1]. simpl.
  by destruct (calls m1 l).
Qed.

Lemma calls_app m l l' :
  snd (calls m (l ++ l')) = snd (calls (snd (calls m l)) l').
Proof.
  revert m. induction l as [|a l IH]; intros m; [done|].
  rewrite <- app_comm_cons, !calls_cons. simpl. apply IH.
Qed.

Lemma calls_well_formed m l : well_formed m -> well_formed (snd (calls m l)).
Proof.
  revert m. induction l as [|a l IH]; intros m Hwf; [done|].
  rewrite calls_cons. simpl. by apply IH, call_well_formed.
Qed.

Lemma calls_max_entries m l : max_entries (snd (calls m l)) = max_entries m.
Proof.
  revert m. induction l as [|a l IH]; intros m; [done|].
  rewrite calls_cons. simpl. by rewrite IH, call_max_entries.
Qed.

Lemma after_well_formed n l : well_formed (after n l).
Proof. apply calls_well_formed, init_well_formed. Qed.

End MemcachedFacts.

Section MemcachedClaims.

Import Caching.

Context {Args Value Key : Type} `{EqDecision Key}.
Variable fast_hash : Args -> Key.
Variable f : Args -> Value.

#[local] Abbreviation call := (call fast_hash f).
#[local] Abbreviation calls := (calls fast_hash f).
#[local] Abbreviation after := (after fast_hash f).
#[local] Abbreviation sound := (sound fast_hash f).

Implicit Types (m : memcached Args Value Key) (k : Key).

(** After a call the entry of its key, if it is in the cache, carries the
    counter value of the call, above every other counter. *)
Lemma call_refreshes m args it :
  well_formed m ->
  dict_get (cache (snd (call m args))) (fast_hash args) = Some it ->
  fst it = lruc m /\
  forall k' it', dict_get (cache (snd (call m args))) k' = Some it' ->
    k' <> fast_hash args -> fst it' < fst it.
Proof.
  intros Hwf Hit. pose proof Hwf as [Hk Hb Hd Hn].
  destruct (dict_get (cache m) (fast_hash args)) as [it0|] eqn:Hg.
  - destruct (call_hit fast_hash f m args it0 Hg) as (_ & Hc & _).
    rewrite Hc in *. rewrite dict_get_touch, decide_True, Hg in Hit by done.
    injection Hit as <-. split; [done|].
    intros k' it'. rewrite dict_get_touch. case_decide; [congruence|].
    intros Hit' _. apply Hb in Hit'. simpl. lia.
  - destruct (call_miss fast_hash f m args Hg) as (_ & Hc & _).
    destruct (inserted_shape fast_hash f m args Hwf Hg) as (Happ & Hk1 & Hb1 & Hd1 & Hnew).
    set (cache1 := dict_set (cache m) (fast_hash args) (lruc m, f args)) in *.
    assert (Hsub : forall k' it', dict_get (cache (snd (call m args))) k' = Some it' ->
              dict_get cache1 k' = Some it').
    { intros k' it'. rewrite Hc. destruct (max_entries m <? dict_len cache1); [|done].
      rewrite dict_get_del by done. case_decide; [discriminate | done]. }
    apply Hsub in Hit. rewrite Hnew in Hit. injection Hit as <-.
    split; [done|]. intros k' it' Hit' Hne. apply Hsub in Hit'. simpl.
    rewrite Happ, dict_get_app_fresh in Hit'.
    destruct (dict_get (cache m) k') as [it1|] eqn:E1.
    + injection Hit' as <-. by apply Hb in E1.
    + case_decide; [congruence | discriminate].
Qed.

(** C8.  After every sequence of calls on a fresh wrapper the cache holds
    at most [max_entries] entries (none at all when [max_entries] is
    negative).  When the next call misses and the cache with the new entry
    would hold more, the entry deleted is the one with the smallest recency
    counter.  Hits and insertions both refresh recency: after a call, the
    entry of its key carries the counter of that call, which is above the
    counter of every other entry. *)
Theorem memcached_bounded_lru (n : Z) (l : list Args) :
  let m := after n l in
  (0 <= n -> dict_len (cache m) <= n) /\
  dict_len (cache m) <= Z.max 0 n /\
  (forall args,
     let cache1 := dict_set (cache m) (fast_hash args) (lruc m, f args) in
     dict_get (cache m) (fast_hash args) = None ->
     n < dict_len cache1 ->
     exists k, least_recent cache1 k /\
               cache (snd (call m args)) = dict_del cache1 k) /\
  (forall args it,
     dict_get (cache (snd (call m args))) (fast_hash args) = Some it ->
     fst it = lruc m /\
     forall k' it', dict_get (cache (snd (call m args))) k' = Some it' ->
       k' <> fast_hash args -> fst it' < fst it).
Proof.
  intros m.
  assert (Hwf : well_formed m) by apply after_well_formed.
  assert (Hmax : max_entries m = n) by apply calls_max_entries.
  pose proof (wf_bound m Hwf) as Hb. rewrite Hmax in Hb.
  split; [lia|]. split; [done|]. split.
  - intros args cache1 Hg Hover.
    destruct (call_miss fast_hash f m args Hg) as (_ & Hc & _).
    destruct (inserted_shape fast_hash f m args Hwf Hg) as (Happ & Hk1 & Hb1 & Hd1 & _).
    fold cache1 in Hc, Happ, Hk1, Hb1, Hd1.
    exists (victim (lruc m + 1) (fast_hash args) cache1). split.
    + apply victim_least_recent; try done.
      rewrite Happ. by destruct (cache m).
    + rewrite Hc, Hmax. apply Z.ltb_lt in Hover. by rewrite Hover.
  - intros args it. by apply call_refreshes.
Qed.

Lemma call_sound called m a :
  well_formed m -> sound called m -> sound (called ++ [a]) (snd (call m a)).
Proof.
  intros Hwf Hs k it.
  destruct (dict_get (cache m) (fast_hash a)) as [it0|] eqn:Hg.
  - destruct (call_hit fast_hash f m a it0 Hg) as (_ & -> & _).
    rewrite dict_get_touch. case_decide.
    + subst k. rewrite Hg. simpl. intros [= <-].
      destruct (Hs _ _ Hg) as (a0 & Hin & Hh & Hv).
      exists a0. split; [set_solver | done].
    + intros Hit. destruct (Hs _ _ Hit) as (a0 & Hin & Hh & Hv).
      exists a0. split; [set_solver | done].
  - destruct (call_miss fast_hash f m a Hg) as (_ & -> & _).
    destruct (inserted_shape fast_hash f m a Hwf Hg) as (Happ & Hk1 & _).
    set (cache1 := dict_set (cache m) (fast_hash a) (lruc m, f a)) in *.
    assert (Hs1 : forall k it, dict_get cache1 k = Some it ->
              exists a0, a0 ∈ called ++ [a] /\ fast_hash a0 = k /\ snd it = f a0).
    { intros k1 it1. rewrite Happ, dict_get_app_fresh.
      destruct (dict_get (cache m) k1) as [it2|] eqn:E.
      - intros [= <-]. destruct (Hs _ _ E) as (a0 & Hin & Hh & Hv).
        exists a0. split; [set_solver | done].
      - case_decide; [|discriminate]. intros [= <-].
        exists a. split; [set_solver | done]. }
    destruct (max_entries m <? dict_len cache1); [|by apply Hs1].
    rewrite dict_get_del by done. case_decide; [discriminate | by apply Hs1].
Qed.

Lemma calls_sound called m l :
  well_formed m -> sound called m -> sound (called ++ l) (snd (calls m l)).
Proof.
  revert called m. induction l as [|a l IH]; intros called m Hwf Hs.
  - by rewrite app_nil_r.
  - rewrite calls_cons. simpl.
    replace (called ++ a :: l) with ((called ++ [a]) ++ l)
      by (by rewrite <- app_assoc).
    apply IH; [by apply call_well_formed | by apply call_sound].
Qed.

Lemma after_sound n l : sound l (after n l).
Proof.
  apply (calls_sound [] (init n) l); [apply init_well_formed|].
  intros k it. discriminate.
Qed.

Lemma call_value called m a :
  sound called m ->
  (forall b, b ∈ called -> fast_hash b = fast_hash a -> b = a) ->
  fst (call m a) = f a.
Proof.
  intros Hs Hfree.
  destruct (dict_get (cache m) (fast_hash a)) as [it|] eqn:Hg.
  - destruct (call_hit fast_hash f m a it Hg) as (-> & _).
    destruct (Hs _ _ Hg) as (b & Hin & Hh & ->).
    by rewrite (Hfree b Hin Hh).
  - by destruct (call_miss fast_hash f m a Hg) as (-> & _).
Qed.

Lemma calls_values called m l :
  well_formed m -> sound called m ->
  (forall a b, a ∈ called ++ l -> b ∈ called ++ l ->
     fast_hash a = fast_hash b -> a = b) ->
  fst (calls m l) = map f l.
Proof.
  revert called m. induction l as [|a l IH]; intros called m Hwf Hs Hfree; [done|].
  rewrite calls_cons. simpl. f_equal.
  - apply (call_value called); [done|].
    intros b Hin Hh. apply Hfree; [set_solver | set_solver | done].
  - apply (IH (called ++ [a])).
    + by apply call_well_formed.
    + by apply call_sound.
    + intros x y Hx Hy. rewrite <- app_assoc in Hx, Hy. by apply Hfree.
Qed.

End MemcachedClaims.

(** C8 at a concrete input: capacity two, four calls on three keys. *)
Lemma memcached_bounded_lru_witness :
  let m := Caching.after (fun a : nat => a) (fun a => (a * a)%nat) 2 [1; 2; 1; 3]%nat in
  Caching.dict_len (Caching.cache m) <= 2 /\
  map fst (Caching.cache m) = [1; 3]%nat.
Proof.
  split.
  - apply (proj1 (memcached_bounded_lru (fun a : nat => a) (fun a => (a * a)%nat)
                    2 [1; 2; 1; 3]%nat)).
    lia.
  - reflexivity.
Defined.

(** ** The loop of [Run.run] *)

Section LoopFacts.

Import Tune.

Context {S : Type} {search_ops : Search S}.

Implicit Types (l : Loop S) (pr : Prepared S) (st : State S).

Lemma harvest_one_inv env now l f l' :
  harvest_one env now l f = Ok l' ->
  exists tid result pl st,
    futures l !! f = Some tid /\
    finish (l_pool l) f (outcome env f) = Ok (result, pl) /\
    submit (l_state l) tid result now = Ok st /\
    l' = {| futures := delete f (futures l); l_state := st;
            l_pool := pl; l_fs := l_fs l |}.
Proof.
  unfold harvest_one. destruct (futures l !! f) as [tid|]; [|discriminate].
  intros Hb. apply bind_Ok_inv in Hb as ([result pl] & Hfin & Hb).
  apply bind_Ok_inv in Hb as (st & Hsub & Hb). injection Hb as <-.
  by exists tid, result, pl, st.
Qed.

Lemma finish_inv (p : Pool) f o result pl :
  finish p f o = Ok (result, pl) ->
  launched pl = launched p /\
  pool_caught_exceptions pl = pool_caught_exceptions p /\
  registry pl = registry p ∖ {[f]}.
Proof.
  unfold finish. destruct o as [lo v mt| |kind msg].
  - by intros [= <- <-].
  - by intros [= <- <-].
  - destruct (caught p kind); [|discriminate]. by intros [= <- <-].
Qed.

Lemma submit_inv st tid result now st' :
  submit st tid result now = Ok st' ->
  exists config,
    suggestions st !! tid = Some config /\
    db_has (evals st) tid = false /\
    evals st' = evals st ++ [{| e_tid := tid; e_config := config;
                                e_result := result; e_time := now |}] /\
    suggestions st' = suggestions st /\
    next_tid st' = next_tid st.
Proof.
  unfold submit. destruct (suggestions st !! tid) as [config|]; [|discriminate].
  unfold db_add. destruct (db_has (evals st) tid) eqn:Ehas; [discriminate|].
  simpl. intros [= <-]. by exists config.
Qed.

Lemma schedule_one_inv l l' :
  schedule_one l = Ok l' ->
  exists config srch,
    search_suggest (search (l_state l)) = Some (config, srch) /\
    futures l' = <[launched (l_pool l) := next_tid (l_state l)]> (futures l) /\
    launched (l_pool l') = Datatypes.S (launched (l_pool l)) /\
    pool_caught_exceptions (l_pool l') = pool_caught_exceptions (l_pool l) /\
    next_tid (l_state l') = Datatypes.S (next_tid (l_state l)) /\
    evals (l_state l') = evals (l_state l) /\
    suggestions (l_state l') =
      <[next_tid (l_state l) := config]> (suggestions (l_state l)) /\
    l_fs l' = l_fs l.
Proof.
  unfold schedule_one, suggest.
  destruct (search_suggest (search (l_state l))) as [[config srch]|];
    [|discriminate].
  simpl. intros [= <-]. by exists config, srch.
Qed.

(** Harvesting removes the harvested futures and launches nothing. *)
Lemma harvest_dom env now fs l l' :
  harvest env now fs l = Ok l' ->
  dom (futures l') = dom (futures l) ∖ list_to_set fs /\
  launched (l_pool l') = launched (l_pool l) /\
  next_tid (l_state l') = next_tid (l_state l) /\
  l_fs l' = l_fs l.
Proof.
  revert l. induction fs as [|f fs IH]; intros l; simpl.
  - intros [= <-]. split; [set_solver | done].
  - intros Hb. apply bind_Ok_inv in Hb as (l1 & H1 & Hrest).
    apply harvest_one_inv in H1 as (tid & result & pl & st & _ & Hfin & Hsub & ->).
    apply finish_inv in Hfin as (Hl & _). apply submit_inv in Hsub as (_ & _ & _ & _ & _ & Hn).
    destruct (IH _ Hrest) as (Hd & Hl' & Hn' & Hfs). simpl in *.
    split; [|split; [congruence | split; [congruence | done]]].
    rewrite Hd, dom_delete_L. set_solver.
Qed.

Lemma harvest_size env now fs l l' :
  harvest env now fs l = Ok l' -> (size (futures l') <= size (futures l))%nat.
Proof.
  intros Hh. apply harvest_dom in Hh as (Hd & _).
  rewrite <- !size_dom, Hd. apply subseteq_size. set_solver.
Qed.

(** Scheduling [n] times launches [n] evaluations of [n] new suggestions. *)
Lemma top_up_counts n l l' :
  top_up n l = Ok l' ->
  launched (l_pool l') = (launched (l_pool l) + n)%nat /\
  next_tid (l_state l') = (next_tid (l_state l) + n)%nat /\
  evals (l_state l') = evals (l_state l) /\
  (size (futures l') <= size (futures l) + n)%nat.
Proof.
  revert l. induction n as [|n IH]; intros l; simpl.
  - intros [= <-]. repeat split; lia.
  - intros Hb. apply bind_Ok_inv in Hb as (l1 & H1 & Hrest).
    apply schedule_one_inv in H1
      as (config & srch & _ & Hf & Hl & _ & Hn & He & _).
    destruct (IH _ Hrest) as (Hl' & Hn' & He' & Hs).
    split; [lia|]. split; [lia|]. split; [congruence|].
    rewrite Hf in Hs.
    pose proof (map_size_insert (launched (l_pool l)) (next_tid (l_state l))
                  (futures l)) as Hi.
    destruct (futures l !! launched (l_pool l)); unfold id in Hi; lia.
Qed.

Lemma wait_running_size (futs : gmap Future TrialID) (finished : gset Future) :
  (size (snd (wait futs finished)) <= size futs)%nat.
Proof.
  simpl. rewrite <- size_dom. apply subseteq_size. set_solver.
Qed.

Lemma harvested_running env now (finished : gset Future) l l1 :
  harvest env now (elements (fst (wait (futures l) finished))) l = Ok l1 ->
  dom (futures l1) = snd (wait (futures l) finished).
Proof.
  intros Hh. apply harvest_dom in Hh as (Hd & _). rewrite Hd. simpl.
  rewrite list_to_set_elements_L. set_solver.
Qed.

Lemma body_inv pr env tk l l' :
  body pr env tk l = Ok l' ->
  (stop_done (p_stop pr) (l_state l) (t_wait tk) = true /\ l' = entered pr env tk l) \/
  (stop_done (p_stop pr) (l_state l) (t_wait tk) = false /\
   exists l1,
     harvest env (t_wait tk)
       (elements (fst (wait (futures l) (completed tk))))
       (entered pr env tk l) = Ok l1 /\
     top_up (Z.to_nat (n_new_trials (p_context pr)
                         (snd (wait (futures l) (completed tk))))) l1 = Ok l').
Proof.
  unfold body. simpl.
  destruct (stop_done (p_stop pr) (l_state l) (t_wait tk)); simpl.
  - intros [= <-]. by left.
  - intros Hb. apply bind_Ok_inv in Hb as (l1 & Hh & Ht).
    right. split; [done|]. by exists l1.
Qed.

Lemma topped_up_bound pr (running : gset Future) l1 k l' :
  Z.of_nat (size running) <= futures_bound pr ->
  size (futures l1) = size running ->
  (k <= Z.to_nat (n_new_trials (p_context pr) running))%nat ->
  top_up k l1 = Ok l' ->
  Z.of_nat (size (futures l')) <= futures_bound pr.
Proof.
  unfold futures_bound, n_new_trials. intros Hr Hs Hk Ht.
  apply top_up_counts in Ht as (_ & _ & _ & Hsize). lia.
Qed.

Lemma body_bound pr env tk l l' :
  Z.of_nat (size (futures l)) <= futures_bound pr ->
  body pr env tk l = Ok l' ->
  Z.of_nat (size (futures l')) <= futures_bound pr.
Proof.
  intros Hb Hbody. apply body_inv in Hbody as [[_ ->]|(_ & l1 & Hh & Ht)]; [done|].
  pose proof (wait_running_size (futures l) (completed tk)) as Hr.
  eapply topped_up_bound; [| |reflexivity|exact Ht]; [lia|].
  rewrite <- size_dom. f_equal.
  by apply (harvested_running env (t_wait tk) (completed tk) (entered pr env tk l)).
Qed.

Lemma loop_bound pr env end_ tks l0 p :
  Z.of_nat (size (futures l0)) <= futures_bound pr ->
  loop pr env end_ tks l0 = Ok p ->
  Z.of_nat (size (futures (match p with Finished l | Running l => l end)))
    <= futures_bound pr.
Proof.
  revert l0. induction tks as [|tk tks IH]; intros l0 Hb; simpl.
  - by intros [= <-].
  - destruct (loop_test pr end_ tk l0); [|by intros [= <-]].
    intros Hl. apply bind_Ok_inv in Hl as (l1 & Hbody & Hl).
    eapply IH; [|exact Hl]. by eapply body_bound.
Qed.

(** C2, amended.  Started with an empty dictionary, the loop never holds
    more than [max(0, max_workers + 1)] futures: not at a loop test, not
    between two rounds of the harvest, not between two rounds of the
    scheduling. *)
Theorem outstanding_bounded pr env end_ l0 l :
  futures l0 = ∅ ->
  instant pr env end_ l0 l ->
  Z.of_nat (size (futures l)) <= Z.max 0 (max_workers (p_context pr) + 1).
Proof.
  intros Hempty Hi.
  assert (H0 : Z.of_nat (size (futures l0)) <= futures_bound pr).
  { rewrite Hempty, map_size_empty. unfold futures_bound. lia. }
  change (Z.of_nat (size (futures l)) <= futures_bound pr).
  destruct Hi as [tks l Hl | tks tk l k l' Hl _ _ Hh | tks tk l l1 k l' Hl _ _ Hh Hk Ht].
  - apply (loop_bound pr env end_ tks l0 (Running l) H0 Hl).
  - pose proof (loop_bound pr env end_ tks l0 (Running l) H0 Hl) as Hb.
    apply harvest_size in Hh. simpl in *. lia.
  - pose proof (loop_bound pr env end_ tks l0 (Running l) H0 Hl) as Hb.
    pose proof (wait_running_size (futures l) (completed tk)) as Hr.
    eapply topped_up_bound; [| |exact Hk|exact Ht]; [simpl in *; lia|].
    rewrite <- size_dom. f_equal.
    by apply (harvested_running env (t_wait tk) (completed tk) (entered pr env tk l)).
Qed.

End LoopFacts.

(** ** Exactly-once accounting *)

Section Accounting.

Import Tune.

Context {S : Type} {search_ops : Search S}.

Implicit Types (l : Loop S) (pr : Prepared S) (st : State S) (db : ResultDB).

Lemma db_has_elem db tid : db_has db tid = true <-> tid ∈ map e_tid db.
Proof.
  unfold db_has. rewrite existsb_exists. split.
  - intros (e & Hin & He). apply Nat.eqb_eq in He. subst tid.
    apply list_elem_of_fmap_2. by apply list_elem_of_In.
  - intros Hin. apply list_elem_of_fmap in Hin as (e & -> & Hin).
    exists e. split; [by apply list_elem_of_In | apply Nat.eqb_refl].
Qed.

Lemma db_has_snoc db e tid :
  db_has (db ++ [e]) tid = db_has db tid || Nat.eqb (e_tid e) tid.
Proof.
  unfold db_has. rewrite existsb_app. simpl. by rewrite orb_false_r.
Qed.

Lemma harvest_one_accounted env now l f l' :
  accounted l -> harvest_one env now l f = Ok l' -> accounted l'.
Proof.
  intros [Hla Hkn Hon His Hfu Hco Hct] Hh.
  apply harvest_one_inv in Hh as (tid & result & pl & st & Hf & Hfin & Hsub & ->).
  apply finish_inv in Hfin as (Hl & _).
  apply submit_inv in Hsub as (config & _ & _ & He & Hs & Hn).
  destruct (Hfu _ _ Hf) as (-> & Hlt & Hfresh).
  split; simpl; rewrite ?Hl, ?Hn, ?He, ?Hs; try done.
  - rewrite map_app. simpl. apply NoDup_app. split; [done|]. split.
    + intros x Hx Hx'. apply list_elem_of_singleton in Hx'. subst x.
      apply db_has_elem in Hx. congruence.
    + apply NoDup_singleton.
  - intros tid. rewrite db_has_snoc. simpl. intros Hor.
    apply orb_true_iff in Hor as [Ho|Ho]; [auto|].
    apply Nat.eqb_eq in Ho. subst tid. lia.
  - intros f' tid. rewrite lookup_delete. case_decide; [discriminate|].
    intros Hf'. destruct (Hfu _ _ Hf') as (-> & Hlt' & Hfresh').
    split; [done|]. split; [lia|].
    rewrite db_has_snoc, Hfresh'. simpl. by apply Nat.eqb_neq.
  - intros tid Htid. rewrite db_has_snoc. simpl.
    destruct (decide (f = tid)) as [->|Hne].
    + left. rewrite Nat.eqb_refl. apply orb_true_r.
    + destruct (Hco _ Htid) as [Hdb|Hfut].
      * left. by rewrite Hdb.
      * right. by rewrite lookup_delete_ne.
  - rewrite length_app. simpl.
    rewrite map_size_delete_Some by eauto.
    assert (size (futures l) <> 0%nat).
    { intros Hz. apply map_size_empty_inv in Hz. rewrite Hz in Hf. done. }
    lia.
Qed.

Lemma harvest_accounted env now fs l l' :
  accounted l -> harvest env now fs l = Ok l' -> accounted l'.
Proof.
  revert l. induction fs as [|f fs IH]; intros l Hacc; simpl.
  - by intros [= <-].
  - intros Hb. apply bind_Ok_inv in Hb as (l1 & H1 & Hrest).
    eapply IH; [|exact Hrest]. by eapply harvest_one_accounted.
Qed.

Lemma accounted_fresh l : accounted l -> futures l !! launched (l_pool l) = None.
Proof.
  intros Hacc. destruct (futures l !! launched (l_pool l)) as [tid|] eqn:E; [|done].
  apply (acc_future l Hacc) in E as (_ & Hlt & _). lia.
Qed.

Lemma schedule_one_accounted l l' :
  accounted l -> schedule_one l = Ok l' -> accounted l'.
Proof.
  intros Hacc Hs. pose proof (accounted_fresh l Hacc) as Hfresh.
  destruct Hacc as [Hla Hkn Hon His Hfu Hco Hct].
  apply schedule_one_inv in Hs
    as (config & srch & _ & Hf & Hl & _ & Hn & He & Hsg & _).
  rewrite Hla in Hf, Hfresh.
  split; rewrite ?Hf, ?Hl, ?Hn, ?He, ?Hsg; try done.
  - by rewrite Hla.
  - intros tid Htid. rewrite lookup_insert. case_decide; [eauto|].
    apply Hkn. lia.
  - intros tid Hdb. apply His in Hdb. lia.
  - intros f tid. rewrite lookup_insert. case_decide.
    + subst f. intros [= <-]. split; [done|]. split; [lia|].
      destruct (db_has (evals (l_state l)) (next_tid (l_state l))) eqn:E; [|done].
      apply His in E. lia.
    + intros Hf'. destruct (Hfu _ _ Hf') as (-> & Hlt & Hnot).
      split; [done|]. split; [lia | done].
  - intros tid Htid. rewrite lookup_insert. case_decide.
    + subst tid. by right.
    + destruct (Hco tid) as [Hdb|Hfut]; [lia | by left | by right].
  - rewrite map_size_insert_None by done. lia.
Qed.

Lemma top_up_accounted n l l' :
  accounted l -> top_up n l = Ok l' -> accounted l'.
Proof.
  revert l. induction n as [|n IH]; intros l Hacc; simpl.
  - by intros [= <-].
  - intros Hb. apply bind_Ok_inv in Hb as (l1 & H1 & Hrest).
    eapply IH; [|exact Hrest]. by eapply schedule_one_accounted.
Qed.

Lemma entered_accounted pr env tk l : accounted l -> accounted (entered pr env tk l).
Proof. by intros []. Qed.

Lemma body_accounted pr env tk l l' :
  accounted l -> body pr env tk l = Ok l' -> accounted l'.
Proof.
  intros Hacc Hb. apply body_inv in Hb as [[_ ->]|(_ & l1 & Hh & Ht)].
  - by apply entered_accounted.
  - eapply top_up_accounted; [|exact Ht].
    eapply harvest_accounted; [|exact Hh]. by apply entered_accounted.
Qed.

Lemma loop_accounted pr env end_ tks l0 p :
  accounted l0 ->
  loop pr env end_ tks l0 = Ok p ->
  accounted (match p with Finished l | Running l => l end).
Proof.
  revert l0. induction tks as [|tk tks IH]; intros l0 Hacc; simpl.
  - by intros [= <-].
  - destruct (loop_test pr end_ tk l0); [|by intros [= <-]].
    intros Hl. apply bind_Ok_inv in Hl as (l1 & Hbody & Hl).
    eapply IH; [|exact Hl]. by eapply body_accounted.
Qed.

End Accounting.

(** ** [Run.prepare] and [Run.run] *)

Section RunFacts.

Import Tune.

Context {S : Type} {search_ops : Search S}.
Variable humanize : string -> string.
Variable top_suggestions : ResultDB -> list Value.
Variable top_refined_suggestions : ResultDB -> list Value.

#[local] Abbreviation run := (run top_suggestions top_refined_suggestions).
#[local] Abbreviation finalize := (finalize top_suggestions top_refined_suggestions).

Implicit Types (r : Run S) (l : Loop S) (pr : Prepared S) (st : State S).

Lemma prepare_inv r directory fs0 r1 fs1 :
  prepare r directory fs0 = Ok (r1, fs1) ->
  exists nm,
    name r = Some nm /\
    name r1 = Some nm /\
    ready r1 = true /\
    work_directory r1 = Some (directory ++ ["run_" +:+ nm]) /\
    state r1 = Some (new_state (run_search r) [] []) /\
    pool r1 = Some (new_pool (max_workers (context r)) (evaluator_config r)
                      (trial_timeout r) (caught_exceptions r)) /\
    context r1 = context r /\
    stop r1 = stop r.
Proof.
  unfold prepare, get_config, _get_config.
  destruct (name r) as [nm|]; [|discriminate]. simpl.
  intros [= <- <-]. by exists nm.
Qed.

Lemma run_inv r duration env tks fs res :
  run r duration env tks fs = Ok res ->
  exists nm wd st pl p,
    ready r = true /\
    name r = Some nm /\ work_directory r = Some wd /\
    state r = Some st /\ pool r = Some pl /\
    loop (prepared_of r nm wd) env (deadline env (t_start env) duration (context r))
      tks (first_loop st pl fs) = Ok p /\
    res = match p with
          | Running l =>
              Running {| end_run := set_state_pool r (l_state l) (l_pool l);
                         end_fs := l_fs l; end_futures := futures l |}
          | Finished l => Finished (finalize (prepared_of r nm wd) r env l)
          end.
Proof.
  unfold Tune.run. destruct (ready r); [|discriminate]. simpl.
  destruct (name r) as [nm|]; [|discriminate].
  destruct (work_directory r) as [wd|]; [|discriminate].
  destruct (state r) as [st|]; [|discriminate].
  destruct (pool r) as [pl|]; [|discriminate]. simpl.
  intros Hb. apply bind_Ok_inv in Hb as (p & Hloop & Hres).
  exists nm, wd, st, pl, p. repeat split; try done.
  destruct p; by injection Hres as <-.
Qed.

Lemma first_loop_accounted (srch : S) (pl : Pool) fs :
  launched pl = 0%nat -> accounted (first_loop (new_state srch [] []) pl fs).
Proof.
  intros Hl. split; simpl; try done; try lia.
  constructor.
Qed.

(** What the bookkeeping says about the database. *)
Lemma accounted_summary l :
  accounted l ->
  NoDup (map e_tid (evals (l_state l))) /\
  (forall tid, tid ∈ map e_tid (evals (l_state l)) ->
     (tid < launched (l_pool l))%nat) /\
  (forall tid, (tid < launched (l_pool l))%nat ->
     (tid ∈ map e_tid (evals (l_state l)) /\
      forall f, futures l !! f <> Some tid) \/
     (~ tid ∈ map e_tid (evals (l_state l)) /\
      exists f, futures l !! f = Some tid)) /\
  (length (evals (l_state l)) + size (futures l))%nat = launched (l_pool l).
Proof.
  intros [Hla Hkn Hon His Hfu Hco Hct]. rewrite Hla.
  split; [done|]. split; [|split; [|done]].
  - intros tid Hin. by apply His, db_has_elem.
  - intros tid Htid. destruct (Hco _ Htid) as [Hdb|Hfut].
    + left. split; [by apply db_has_elem|].
      intros f Hf. apply Hfu in Hf as (_ & _ & Hnot). congruence.
    + right. split; [|by exists tid].
      intros Hin. apply db_has_elem in Hin.
      apply Hfu in Hfut as (_ & _ & Hnot). congruence.
Qed.

(** C1, amended.  Take a run that was prepared and then run, and let [N]
    be the number of evaluations its pool has launched.  When [run] returns
    (or at any loop test before), the database records no TrialID twice and
    only TrialIDs that were scheduled; each of the [N] scheduled TrialIDs
    is either recorded, or its future is still in the dictionary of the
    loop and it is not recorded; so the database holds [N] entries less the
    futures left in the dictionary. *)
Theorem run_accounting r directory fs0 r1 fs1 duration env tks fs res :
  prepare r directory fs0 = Ok (r1, fs1) ->
  run r1 duration env tks fs = Ok res ->
  exists st pl,
    state (end_run (reached res)) = Some st /\
    pool (end_run (reached res)) = Some pl /\
    NoDup (map e_tid (evals st)) /\
    (forall tid, tid ∈ map e_tid (evals st) -> (tid < launched pl)%nat) /\
    (forall tid, (tid < launched pl)%nat ->
       (tid ∈ map e_tid (evals st) /\
        forall f, end_futures (reached res) !! f <> Some tid) \/
       (~ tid ∈ map e_tid (evals st) /\
        exists f, end_futures (reached res) !! f = Some tid)) /\
    (length (evals st) + size (end_futures (reached res)))%nat = launched pl.
Proof.
  intros Hprep Hrun.
  apply prepare_inv in Hprep as (nm & _ & _ & _ & _ & Hst & Hpl & _ & _).
  apply run_inv in Hrun
    as (nm' & wd & st0 & pl0 & p & _ & _ & _ & Hst' & Hpl' & Hloop & ->).
  rewrite Hst in Hst'. injection Hst' as <-.
  rewrite Hpl in Hpl'. injection Hpl' as <-.
  apply loop_accounted in Hloop; [|by apply first_loop_accounted].
  destruct p as [l|l]; simpl in *.
  - exists (l_state l), (shutdown (l_pool l)).
    split; [done|]. split; [done|]. by apply accounted_summary.
  - exists (l_state l), (l_pool l).
    split; [done|]. split; [done|]. by apply accounted_summary.
Qed.

End RunFacts.

(** C1 as stated fails.  In the sample run three trials are scheduled; the
    first is harvested in the second pass, which meets the budget, so the
    loop ends with two futures in the dictionary, and the database ends
    with one entry, not three. *)
Lemma run_loses_outstanding_trials :
  Tune.prepare (Tune.sample_new None) [] Tune.empty_fs
    = Ok (Tune.sample_ready, Tune.sample_disk) /\
  exists e st pl,
    Tune.run Tune.sample_top Tune.sample_refined Tune.sample_ready
      Tune.Infinite Tune.sample_env Tune.sample_ticks Tune.sample_disk = Ok (Tune.Finished e) /\
    Tune.state (Tune.end_run e) = Some st /\
    Tune.pool (Tune.end_run e) = Some pl /\
    Tune.launched pl = 3%nat /\
    length (Tune.evals st) = 1%nat /\
    size (Tune.end_futures e) = 2%nat.
Proof.
  split; [vm_compute; reflexivity|].
  do 3 eexists.
  split; [vm_compute; reflexivity|].
  split; [reflexivity|]. split; [reflexivity|].
  split; [reflexivity|]. split; reflexivity.
Qed.

(** The amended C1 at the sample run. *)
Lemma run_accounting_witness :
  exists res,
    Tune.run Tune.sample_top Tune.sample_refined Tune.sample_ready
      Tune.Infinite Tune.sample_env Tune.sample_ticks Tune.sample_disk = Ok res /\
    exists st pl,
      Tune.state (Tune.end_run (Tune.reached res)) = Some st /\
      Tune.pool (Tune.end_run (Tune.reached res)) = Some pl /\
      NoDup (map Tune.e_tid (Tune.evals st)) /\
      (forall tid, tid ∈ map Tune.e_tid (Tune.evals st) ->
         (tid < Tune.launched pl)%nat) /\
      (forall tid, (tid < Tune.launched pl)%nat ->
         (tid ∈ map Tune.e_tid (Tune.evals st) /\
          forall f, Tune.end_futures (Tune.reached res) !! f <> Some tid) \/
         (~ tid ∈ map Tune.e_tid (Tune.evals st) /\
          exists f, Tune.end_futures (Tune.reached res) !! f = Some tid)) /\
      (length (Tune.evals st) + size (Tune.end_futures (Tune.reached res)))%nat
        = Tune.launched pl.
Proof.
  eexists.
  split; [vm_compute; reflexivity|].
  eapply (run_accounting Tune.sample_top Tune.sample_refined
            (Tune.sample_new None) [] Tune.empty_fs
            Tune.sample_ready Tune.sample_disk
            Tune.Infinite Tune.sample_env Tune.sample_ticks Tune.sample_disk).
  - vm_compute; reflexivity.
  - vm_compute; reflexivity.
Defined.

(** C2 as stated fails.  With [max_workers = 1] the first pass of the loop
    schedules two trials, so the dictionary holds two futures at the next
    loop test. *)
Lemma two_futures_one_worker :
  Tune.run Tune.sample_top Tune.sample_refined Tune.sample_ready
    Tune.Infinite Tune.sample_env [Tune.first_tick] Tune.sample_disk
    = Ok (Tune.Running Tune.sample_started) /\
  Tune.max_workers (Tune.context Tune.sample_ready) = 1 /\
  size (Tune.end_futures Tune.sample_started) = 2%nat /\
  Tune.futures Tune.sample_first = ∅ /\
  Tune.instant Tune.sample_attrs Tune.sample_env Tune.Never
    Tune.sample_first Tune.sample_second /\
  Tune.max_workers (Tune.p_context Tune.sample_attrs) = 1 /\
  size (Tune.futures Tune.sample_second) = 2%nat.
Proof.
  split; [vm_compute; reflexivity|].
  split; [reflexivity|]. split; [reflexivity|]. split; [reflexivity|].
  split; [|split; reflexivity].
  apply (Tune.at_test _ _ _ _ [Tune.first_tick]). vm_compute. reflexivity.
Qed.

(** The amended C2 at the sample run, after its first pass. *)
Lemma outstanding_bounded_witness :
  Z.of_nat (size (Tune.futures Tune.sample_second))
    <= Z.max 0 (Tune.max_workers (Tune.p_context Tune.sample_attrs) + 1).
Proof.
  apply (outstanding_bounded Tune.sample_attrs Tune.sample_env Tune.Never
           Tune.sample_first).
  - reflexivity.
  - apply (Tune.at_test _ _ _ _ [Tune.first_tick]). vm_compute. reflexivity.
Defined.

(** ** The top-up of the loop body *)

Section TopUp.

Import Tune.

Context {S : Type} {search_ops : Search S}.

Implicit Types (l : Loop S) (pr : Prepared S) (st : State S).

Lemma top_up_size n l l' :
  accounted l -> top_up n l = Ok l' ->
  size (futures l') = (size (futures l) + n)%nat.
Proof.
  revert l. induction n as [|n IH]; intros l Hacc; simpl.
  - intros [= <-]. lia.
  - intros Hb. apply bind_Ok_inv in Hb as (l1 & H1 & Hrest).
    pose proof (schedule_one_accounted _ _ Hacc H1) as Hacc1.
    rewrite (IH _ Hacc1 Hrest).
    apply schedule_one_inv in H1 as (config & srch & _ & -> & _).
    rewrite map_size_insert_None by (by apply accounted_fresh). lia.
Qed.

Lemma top_up_total n l :
  (forall s : S, is_Some (search_suggest s)) -> exists l', top_up n l = Ok l'.
Proof.
  intros Htot. revert l. induction n as [|n IH]; intros l; simpl; [eauto|].
  unfold schedule_one, suggest.
  destruct (Htot (search (l_state l))) as [[config srch] ->]. simpl.
  apply IH.
Qed.

Lemma benign_step env l l' :
  pool_caught_exceptions (l_pool l') = pool_caught_exceptions (l_pool l) ->
  benign env l -> benign env l'.
Proof.
  unfold benign, caught. intros -> Hb. exact Hb.
Qed.

Lemma harvest_one_total env now l f :
  accounted l -> benign env l -> is_Some (futures l !! f) ->
  exists l', harvest_one env now l f = Ok l' /\
             pool_caught_exceptions (l_pool l') = pool_caught_exceptions (l_pool l) /\
             futures l' = delete f (futures l).
Proof.
  intros Hacc Hben [tid Hf]. unfold harvest_one. rewrite Hf.
  destruct (acc_future l Hacc _ _ Hf) as (-> & Hlt & Hnot).
  assert (Hfin : exists result pl,
            finish (l_pool l) f (outcome env f) = Ok (result, pl) /\
            pool_caught_exceptions pl = pool_caught_exceptions (l_pool l)).
  { specialize (Hben f). unfold finish.
    destruct (outcome env f) as [lo v mt| |kind msg]; [eauto | eauto |].
    rewrite Hben. eauto. }
  destruct Hfin as (result & pl & -> & Hc). simpl.
  rewrite (acc_launched l Hacc) in Hlt.
  destruct (acc_known l Hacc _ Hlt) as [config Hcfg].
  unfold submit, db_add. rewrite Hcfg, Hnot. simpl. eauto.
Qed.

Lemma harvest_total env now fs l :
  accounted l -> benign env l -> NoDup fs ->
  (forall f, f ∈ fs -> is_Some (futures l !! f)) ->
  exists l', harvest env now fs l = Ok l'.
Proof.
  revert l. induction fs as [|f fs IH]; intros l Hacc Hben Hnd Hin; simpl; [eauto|].
  apply NoDup_cons in Hnd as [Hfresh Hnd].
  destruct (harvest_one_total env now l f Hacc Hben) as (l1 & H1 & Hc & Hf1).
  { apply Hin, list_elem_of_here. }
  rewrite H1. simpl. apply IH; [| |done|].
  - by eapply harvest_one_accounted.
  - by eapply benign_step.
  - intros f' Hf'. rewrite Hf1, lookup_delete_ne by (intros ->; done).
    by apply Hin, list_elem_of_further.
Qed.

(** C3.  In a pass of the loop in which the stop condition has not fired
    after the wait, a body that completes has scheduled exactly
    [max(0, max_workers + 1 - len(running))] new suggestions, [running]
    being the futures the wait reports as not done: that many suggestions
    were drawn and that many evaluations launched, and (on the states of a
    run) the dictionary holds the running futures and the new ones.  The
    body does complete when the search always suggests and no evaluation
    ends in an exception that is not caught. *)
Theorem body_tops_up pr env tk l :
  stop_done (p_stop pr) (l_state l) (t_wait tk) = false ->
  let running := snd (wait (futures l) (completed tk)) in
  let n := Z.to_nat (Z.max 0 (max_workers (p_context pr) + 1
                              - Z.of_nat (size running))) in
  (forall l', body pr env tk l = Ok l' ->
     launched (l_pool l') = (launched (l_pool l) + n)%nat /\
     next_tid (l_state l') = (next_tid (l_state l) + n)%nat /\
     (accounted l -> size (futures l') = (size running + n)%nat)) /\
  (accounted l -> benign env l -> (forall s : S, is_Some (search_suggest s)) ->
   exists l', body pr env tk l = Ok l').
Proof.
  intros Hstop running n. split.
  - intros l' Hbody.
    apply body_inv in Hbody as [[Hs _]|(_ & l1 & Hh & Ht)]; [congruence|].
    pose proof (harvest_dom _ _ _ _ _ Hh) as (_ & Hl & Hn & _).
    pose proof (top_up_counts _ _ _ Ht) as (Hl' & Hn' & _).
    simpl in Hl, Hn. split; [|split].
    + rewrite Hl', Hl. done.
    + rewrite Hn', Hn. done.
    + intros Hacc.
      assert (Hacc1 : accounted l1).
      { eapply harvest_accounted; [|exact Hh]. by apply entered_accounted. }
      rewrite (top_up_size _ _ _ Hacc1 Ht). f_equal.
      rewrite <- size_dom. f_equal.
      by apply (harvested_running env (t_wait tk) (completed tk) (entered pr env tk l)).
  - intros Hacc Hben Htot. unfold body. simpl. rewrite Hstop. simpl.
    destruct (harvest_total env (t_wait tk)
                (elements (dom (futures l) ∩ completed tk)) (entered pr env tk l))
      as [l1 ->].
    + by apply entered_accounted.
    + done.
    + apply NoDup_elements.
    + intros f Hf. apply elem_of_elements in Hf. simpl.
      apply elem_of_dom. set_solver.
    + simpl. by apply top_up_total.
Qed.

End TopUp.

(** C3 at the second pass of the sample run: one future is still running,
    one worker is configured, so one new suggestion is scheduled. *)
Lemma body_tops_up_witness :
  exists l',
    Tune.body Tune.sample_attrs Tune.sample_env Tune.second_tick
      Tune.sample_second = Ok l' /\
    Tune.launched (Tune.l_pool l')
      = (Tune.launched (Tune.l_pool Tune.sample_second) + 1)%nat.
Proof.
  eexists. split; [vm_compute; reflexivity|].
  refine (proj1 (proj1 (body_tops_up Tune.sample_attrs Tune.sample_env
                          Tune.second_tick Tune.sample_second _) _ _)).
  - vm_compute. reflexivity.
  - vm_compute. reflexivity.
Defined.

(** ** Leaving the loop *)

Lemma bind_Raise_inv {A B : Type} (m : Result A) (k : A -> Result B) (e : Exc) :
  m ≫= k = Raise e -> m = Raise e \/ exists a, m = Ok a /\ k a = Raise e.
Proof.
  destruct m as [a|e']; intros Hb; [right; eauto | left; cbv in Hb; congruence].
Qed.

Section Leaving.

Import Tune.

Context {S : Type} {search_ops : Search S}.
Variable humanize : string -> string.
Variable top_suggestions : ResultDB -> list Value.
Variable top_refined_suggestions : ResultDB -> list Value.

#[local] Abbreviation run := (run top_suggestions top_refined_suggestions).
#[local] Abbreviation finalize := (finalize top_suggestions top_refined_suggestions).

Implicit Types (r : Run S) (l : Loop S) (pr : Prepared S) (st : State S).

Lemma loop_app pr env end_ pre more l0 :
  loop pr env end_ (pre ++ more) l0 =
    p ← loop pr env end_ pre l0;
    match p with
    | Running l => loop pr env end_ more l
    | Finished l => Ok (Finished l)
    end.
Proof.
  revert l0. induction pre as [|tk pre IH]; intros l0; simpl; [done|].
  destruct (loop_test pr end_ tk l0); [|done].
  destruct (body pr env tk l0) as [l1|e]; simpl; [apply IH | done].
Qed.

Lemma run_ready r duration env tks fs nm wd st pl :
  ready r = true ->
  name r = Some nm -> work_directory r = Some wd ->
  state r = Some st -> pool r = Some pl ->
  run r duration env tks fs =
    p ← loop (prepared_of r nm wd) env
           (deadline env (t_start env) duration (context r)) tks
           (first_loop st pl fs);
    match p with
    | Running l =>
        Ok (Running {| end_run := set_state_pool r (l_state l) (l_pool l);
                       end_fs := l_fs l; end_futures := futures l |})
    | Finished l => Ok (Finished (finalize (prepared_of r nm wd) r env l))
    end.
Proof.
  intros Hr Hn Hw Hs Hp. unfold Tune.run. rewrite Hr, Hn, Hw, Hs, Hp. done.
Qed.

Lemma before_deadline_false env start d ctx now :
  float_sub env (float_add env start d) (shutdown_duration ctx) <= now ->
  before now (deadline env start (Finite d) ctx) = false.
Proof.
  intros Hle. simpl. by apply Z.ltb_ge.
Qed.

(** C4.  [run] measures the clock against the deadline
    [start + duration - shutdown_duration], [start] being the reading at
    entry and the sum and the difference those of floats, rounded as the
    machine rounds them.  Whenever the loop comes to its test with a
    reading that has reached the deadline, or with the stopper reporting
    done on the current state, it ends there: the body is not entered for
    this or any later observation, and the futures and the state stay as
    they were.  With a reading before the deadline and a stopper that is
    not done, the loop does not end at that test.  And a body in which the
    stopper reports done after the wait harvests nothing and schedules
    nothing. *)
Theorem loop_ends_on_deadline_or_stop
    r duration env pre tk rest fs e pr tk' l :
  (run r duration env pre fs = Ok (Running e) ->
   match duration with
   | Finite d =>
       float_sub env (float_add env (t_start env) d)
         (shutdown_duration (context r)) <= t_test tk
   | Infinite => False
   end \/
   (exists st, state (end_run e) = Some st /\
               stop_done (stop r) st (t_test tk) = true) ->
   exists e',
     run r duration env (pre ++ tk :: rest) fs = Ok (Finished e') /\
     end_futures e' = end_futures e /\
     state (end_run e') = state (end_run e)) /\
  (run r duration env pre fs = Ok (Running e) ->
   match duration with
   | Finite d =>
       t_test tk < float_sub env (float_add env (t_start env) d)
                     (shutdown_duration (context r))
   | Infinite => True
   end ->
   (forall st, state (end_run e) = Some st ->
               stop_done (stop r) st (t_test tk) = false) ->
   forall res, run r duration env (pre ++ [tk]) fs = Ok res ->
   exists e', res = Running e') /\
  (stop_done (p_stop pr) (l_state l) (t_wait tk') = true ->
   exists l',
     body pr env tk' l = Ok l' /\
     futures l' = futures l /\ l_state l' = l_state l /\ l_pool l' = l_pool l).
Proof.
  split; [|split].
  - intros Hrun Hwhy.
    apply run_inv in Hrun
      as (nm & wd & st & pl & p & Hr & Hn & Hw & Hs & Hp & Hloop & He).
    destruct p as [lf|lr]; [discriminate|]. injection He as ->.
    rewrite (run_ready r duration env _ fs nm wd st pl Hr Hn Hw Hs Hp).
    rewrite loop_app, Hloop. simpl.
    assert (Htest : loop_test (prepared_of r nm wd)
                      (deadline env (t_start env) duration (context r)) tk lr = false).
    { unfold loop_test. destruct Hwhy as [Hdead|(st' & Hst' & Hdone)].
      - destruct duration as [d|]; [|done].
        by rewrite before_deadline_false.
      - simpl in Hst'. injection Hst' as <-. simpl. rewrite Hdone.
        apply andb_false_r. }
    rewrite Htest. simpl. eexists. split; [reflexivity|]. done.
  - intros Hrun Hearly Hgo res.
    apply run_inv in Hrun
      as (nm & wd & st & pl & p & Hr & Hn & Hw & Hs & Hp & Hloop & He).
    destruct p as [lf|lr]; [discriminate|]. injection He as ->.
    rewrite (run_ready r duration env _ fs nm wd st pl Hr Hn Hw Hs Hp).
    rewrite loop_app, Hloop. simpl.
    assert (Htest : loop_test (prepared_of r nm wd)
                      (deadline env (t_start env) duration (context r)) tk lr = true).
    { unfold loop_test. simpl. rewrite (Hgo (l_state lr)) by done.
      rewrite andb_true_r. destruct duration as [d|]; [|done].
      simpl. by apply Z.ltb_lt. }
    rewrite Htest.
    destruct (body (prepared_of r nm wd) env tk lr) as [l1|err]; simpl;
      [|discriminate].
    intros [= <-]. eauto.
  - intros Hdone. unfold body. simpl. rewrite Hdone. simpl.
    eexists. split; [reflexivity|]. done.
Qed.

(** ** The ready flag *)

Lemma harvest_one_no_assert env now l f e :
  harvest_one env now l f = Raise e -> forall msg, e <> AssertionError msg.
Proof.
  unfold harvest_one. destruct (futures l !! f) as [tid|]; [|by intros [= <-]].
  intros Hb. apply bind_Raise_inv in Hb as [Hfin|([result pl] & _ & Hb)].
  - unfold finish in Hfin. destruct (outcome env f) as [? ? ?| |kind m]; try done.
    destruct (caught (l_pool l) kind); [done|]. by injection Hfin as <-.
  - apply bind_Raise_inv in Hb as [Hsub|(st & _ & Hb)]; [|done].
    unfold submit in Hsub.
    destruct (suggestions (l_state l) !! tid); [|by injection Hsub as <-].
    unfold db_add in Hsub.
    destruct (db_has (evals (l_state l)) tid); [|done].
    simpl in Hsub. by injection Hsub as <-.
Qed.

Lemma harvest_no_assert env now fs l e :
  harvest env now fs l = Raise e -> forall msg, e <> AssertionError msg.
Proof.
  revert l. induction fs as [|f fs IH]; intros l; simpl; [done|].
  intros Hb. apply bind_Raise_inv in Hb as [H1|(l1 & _ & Hrest)].
  - by eapply harvest_one_no_assert.
  - by eapply IH.
Qed.

Lemma top_up_no_assert n l e :
  top_up n l = Raise e -> forall msg, e <> AssertionError msg.
Proof.
  revert l. induction n as [|n IH]; intros l; simpl; [done|].
  intros Hb. apply bind_Raise_inv in Hb as [H1|(l1 & _ & Hrest)].
  - unfold schedule_one, suggest in H1.
    destruct (search_suggest (search (l_state l))) as [[config srch]|];
      simpl in H1; [done|]. by injection H1 as <-.
  - by eapply IH.
Qed.

Lemma body_no_assert pr env tk l e :
  body pr env tk l = Raise e -> forall msg, e <> AssertionError msg.
Proof.
  unfold body. simpl.
  destruct (stop_done (p_stop pr) (l_state l) (t_wait tk)); simpl; [done|].
  intros Hb. apply bind_Raise_inv in Hb as [Hh|(l1 & _ & Ht)].
  - by eapply harvest_no_assert.
  - by eapply top_up_no_assert.
Qed.

Lemma loop_no_assert pr env end_ tks l e :
  loop pr env end_ tks l = Raise e -> forall msg, e <> AssertionError msg.
Proof.
  revert l. induction tks as [|tk tks IH]; intros l; simpl; [done|].
  destruct (loop_test pr end_ tk l); [|done].
  intros Hb. apply bind_Raise_inv in Hb as [Hbody|(l1 & _ & Hrest)].
  - by eapply body_no_assert.
  - by eapply IH.
Qed.

(** C6.  [run] on a freshly constructed [Run] raises the assertion error
    at once, whatever the arguments of the constructor and of [run]; and on
    a [Run] that [prepare] has returned, [run] never raises an assertion
    error. *)
Theorem run_asserts_ready
    srch evaluator stp timeout excs name_arg ctx fresh_id
    r directory fs0 r1 fs1 duration env tks fs :
  run (new humanize srch evaluator stp timeout excs name_arg ctx fresh_id)
      duration env tks fs
    = Raise (AssertionError "prepare() must be called before starting run.") /\
  (prepare r directory fs0 = Ok (r1, fs1) ->
   ready r1 = true /\
   forall msg, run r1 duration env tks fs <> Raise (AssertionError msg)).
Proof.
  split; [done|].
  intros Hprep.
  apply prepare_inv in Hprep as (nm & _ & Hn & Hr & Hw & Hs & Hp & _ & _).
  split; [done|]. intros msg.
  rewrite (run_ready r1 duration env tks fs _ _ _ _ Hr Hn Hw Hs Hp).
  intros Hb. apply bind_Raise_inv in Hb as [Hloop|(p & _ & Hb)].
  - by eapply loop_no_assert.
  - by destruct p.
Qed.

(** ** The name of a run *)

(** C7, on the code.  A [Run] constructed with an explicit name has no
    [name] attribute: the constructor assigns one only when the argument is
    [None].  [prepare] then fails with an attribute error before it creates
    the directory. *)
Theorem explicit_name_is_dropped
    srch evaluator stp timeout excs (nm : string) ctx fresh_id directory fs :
  name (new humanize srch evaluator stp timeout excs (Some nm) ctx fresh_id)
    = None /\
  prepare (new humanize srch evaluator stp timeout excs (Some nm) ctx fresh_id)
      directory fs
    = Raise (AttributeError "name").
Proof.
  split; reflexivity.
Qed.


End Leaving.

(** ** [Run.write_results] *)

Section Results.

Import Tune.

Context {S : Type} {search_ops : Search S}.
Variable top_suggestions : ResultDB -> list Value.
Variable top_refined_suggestions : ResultDB -> list Value.

#[local] Abbreviation write_results :=
  (write_results top_suggestions top_refined_suggestions).

Implicit Types (pr : Prepared S) (st : State S) (fs : FS) (wd : Path).

Lemma numbered_path_inj wd (prefix : string) (i j : nat) :
  wd ++ [prefix +:+ pretty i] = wd ++ [prefix +:+ pretty j] -> i = j.
Proof.
  intros Heq. apply app_inv_head in Heq. injection Heq as Heq.
  apply String.app_inj in Heq. by apply pretty_nat_inj in Heq.
Qed.

(** The files numbered below the start of an enumeration are not touched. *)
Lemma save_enumerated_before wd prefix i0 configs fs j :
  (j < i0)%nat ->
  files (save_enumerated wd prefix i0 configs fs) !! (wd ++ [prefix +:+ pretty j])
    = files fs !! (wd ++ [prefix +:+ pretty j]).
Proof.
  revert i0 fs. induction configs as [|c rest IH]; intros i0 fs Hlt; simpl; [done|].
  rewrite IH by lia. simpl. apply lookup_insert_ne.
  intros Heq. apply numbered_path_inj in Heq. lia.
Qed.

(** The [k]-th configuration ends up in the file numbered [i0 + k]. *)
Lemma save_enumerated_hit wd prefix i0 configs fs k c :
  configs !! k = Some c ->
  files (save_enumerated wd prefix i0 configs fs)
    !! (wd ++ [prefix +:+ pretty (i0 + k)%nat]) = Some (YamlFile c).
Proof.
  revert i0 fs k. induction configs as [|c0 rest IH]; intros i0 fs k; [done|].
  destruct k as [|k]; simpl.
  - intros [= ->]. rewrite Nat.add_0_r, save_enumerated_before by lia.
    simpl. apply lookup_insert_eq.
  - intros Hk. replace (i0 + Datatypes.S k)%nat with (Datatypes.S i0 + k)%nat by lia.
    by apply IH.
Qed.

(** C5, on the code.  When some entry of [top_refined_suggestions()] is
    not empty, the file [refined_suggestion-i] receives the [i]-th
    configuration of [top_suggestions()], the ordinary ranking: the second
    loop of [write_results] enumerates [top_suggestions()] again. *)
Theorem refined_files_hold_plain_ranking pr st fs (i : nat) (c : Value) :
  existsb nonempty (top_refined_suggestions (evals st)) = true ->
  top_suggestions (evals st) !! i = Some c ->
  files (write_results pr st fs)
    !! (p_work_directory pr ++ ["refined_suggestion-" +:+ pretty i])
    = Some (YamlFile c).
Proof.
  intros Hany Hi. unfold Tune.write_results. rewrite Hany.
  by apply (save_enumerated_hit _ _ 0).
Qed.

(** A file whose name no round of the enumeration produces is not
    touched. *)
Lemma save_enumerated_other wd prefix i0 configs fs (other : string) :
  (forall n : nat, prefix +:+ pretty n <> other) ->
  files (save_enumerated wd prefix i0 configs fs) !! (wd ++ [other])
    = files fs !! (wd ++ [other]).
Proof.
  intros Hne. revert i0 fs.
  induction configs as [|c rest IH]; intros i0 fs; simpl; [done|].
  rewrite IH. simpl. apply lookup_insert_ne.
  intros Heq. apply app_inv_head in Heq. injection Heq as Heq. by eapply Hne.
Qed.

(** X2.  [write_results] always writes the tape of the state to the file
    [tape], also when the ranking is empty, and it writes the i-th
    configuration of the ordinary ranking to the file [suggestion-i], for
    every i in the ranking; the files hold these whether or not the
    refined files are written after them. *)
Lemma plain_files_hold_plain_ranking pr st fs :
  files (write_results pr st fs) !! (p_work_directory pr ++ ["tape"])
    = Some (TapeFile (tape st)) /\
  forall (i : nat) (c : Value),
    top_suggestions (evals st) !! i = Some c ->
    files (write_results pr st fs)
      !! (p_work_directory pr ++ ["suggestion-" +:+ pretty i])
      = Some (YamlFile c).
Proof.
  unfold Tune.write_results.
  destruct (existsb nonempty (top_refined_suggestions (evals st))).
  - split.
    + rewrite (save_enumerated_other _ "refined_suggestion-")
        by (intros n; simpl; discriminate).
      rewrite (save_enumerated_other _ "suggestion-")
        by (intros n; simpl; discriminate).
      apply lookup_insert_eq.
    + intros i c Hi.
      rewrite (save_enumerated_other _ "refined_suggestion-")
        by (intros n; simpl; discriminate).
      by apply (save_enumerated_hit _ _ 0).
  - split.
    + rewrite (save_enumerated_other _ "suggestion-")
        by (intros n; simpl; discriminate).
      apply lookup_insert_eq.
    + intros i c Hi. by apply (save_enumerated_hit _ _ 0).
Qed.

End Results.

(** C5 at a database whose rankings disagree: the refined ranking puts
    [cfg_b] first, and [refined_suggestion-0] holds [cfg_a]. *)
Lemma refined_files_hold_plain_ranking_witness :
  Tune.sample_refined [] !! 0%nat = Some Tune.cfg_b /\
  Tune.cfg_a <> Tune.cfg_b /\
  Tune.files (Tune.write_results Tune.sample_top Tune.sample_refined
                Tune.sample_attrs (Tune.new_state 0%nat [] []) Tune.empty_fs)
    !! ["run_run-0a1b"; "refined_suggestion-0"]
    = Some (Tune.YamlFile Tune.cfg_a).
Proof.
  split; [reflexivity|]. split; [discriminate|].
  apply (refined_files_hold_plain_ranking Tune.sample_top Tune.sample_refined
           Tune.sample_attrs (Tune.new_state 0%nat [] []) Tune.empty_fs
           0 Tune.cfg_a).
  - reflexivity.
  - reflexivity.
Defined.

(** C4 at the sample run.  With thirty seconds kept for the shutdown, a
    duration of 35 puts the deadline at 5: the reading 5 of the second loop
    test has reached it, and the run ends there with the two futures of
    the first pass, though the stopper is not done; with a duration of 36
    the same reading is before the deadline, and the loop goes on.
    Without a deadline, one success is recorded after two passes, so the
    stopper reports done at the third loop test, and would in a body; at
    the second loop test it does not, and the loop goes on. *)
Lemma loop_ends_on_deadline_or_stop_witness :
  (exists e',
     Tune.run Tune.sample_top Tune.sample_refined Tune.sample_ready
       (Tune.Finite 35) Tune.sample_env
       ([Tune.first_tick] ++ Tune.second_tick :: [Tune.third_tick])
       Tune.sample_disk = Ok (Tune.Finished e') /\
     Tune.end_futures e' = Tune.end_futures Tune.sample_started /\
     Tune.state (Tune.end_run e') = Tune.state (Tune.end_run Tune.sample_started)) /\
  (exists e',
     Tune.run Tune.sample_top Tune.sample_refined Tune.sample_ready
       (Tune.Finite 36) Tune.sample_env
       ([Tune.first_tick] ++ [Tune.second_tick])
       Tune.sample_disk = Ok (Tune.Running e')) /\
  (exists e',
     Tune.run Tune.sample_top Tune.sample_refined Tune.sample_ready
       Tune.Infinite Tune.sample_env
       ([Tune.first_tick; Tune.second_tick] ++ Tune.third_tick :: [])
       Tune.sample_disk = Ok (Tune.Finished e') /\
     Tune.end_futures e' = Tune.end_futures Tune.sample_running /\
     Tune.state (Tune.end_run e') = Tune.state (Tune.end_run Tune.sample_running)) /\
  (exists e',
     Tune.run Tune.sample_top Tune.sample_refined Tune.sample_ready
       Tune.Infinite Tune.sample_env
       ([Tune.first_tick] ++ [Tune.second_tick])
       Tune.sample_disk = Ok (Tune.Running e')) /\
  (exists l',
     Tune.body Tune.sample_attrs Tune.sample_env Tune.third_tick
       Tune.sample_third = Ok l' /\
     Tune.futures l' = Tune.futures Tune.sample_third /\
     Tune.l_state l' = Tune.l_state Tune.sample_third /\
     Tune.l_pool l' = Tune.l_pool Tune.sample_third).
Proof.
  pose proof (loop_ends_on_deadline_or_stop Tune.sample_top Tune.sample_refined
                Tune.sample_ready (Tune.Finite 35) Tune.sample_env
                [Tune.first_tick] Tune.second_tick [Tune.third_tick]
                Tune.sample_disk Tune.sample_started
                Tune.sample_attrs Tune.third_tick Tune.sample_third)
    as (Hdeadline & _ & _).
  pose proof (loop_ends_on_deadline_or_stop Tune.sample_top Tune.sample_refined
                Tune.sample_ready (Tune.Finite 36) Tune.sample_env
                [Tune.first_tick] Tune.second_tick []
                Tune.sample_disk Tune.sample_started
                Tune.sample_attrs Tune.third_tick Tune.sample_third)
    as (_ & Hearly & _).
  pose proof (loop_ends_on_deadline_or_stop Tune.sample_top Tune.sample_refined
                Tune.sample_ready Tune.Infinite Tune.sample_env
                [Tune.first_tick; Tune.second_tick] Tune.third_tick []
                Tune.sample_disk Tune.sample_running
                Tune.sample_attrs Tune.third_tick Tune.sample_third)
    as (Hexit & _ & Hskip).
  pose proof (loop_ends_on_deadline_or_stop Tune.sample_top Tune.sample_refined
                Tune.sample_ready Tune.Infinite Tune.sample_env
                [Tune.first_tick] Tune.second_tick []
                Tune.sample_disk Tune.sample_started
                Tune.sample_attrs Tune.third_tick Tune.sample_third)
    as (_ & Hgo & _).
  split; [|split; [|split; [|split]]].
  - apply Hdeadline.
    + vm_compute. reflexivity.
    + left. vm_compute. discriminate.
  - destruct (Tune.run Tune.sample_top Tune.sample_refined Tune.sample_ready
                (Tune.Finite 36) Tune.sample_env
                ([Tune.first_tick] ++ [Tune.second_tick]) Tune.sample_disk)
      as [res|err] eqn:Hres.
    + destruct (Hearly ltac:(vm_compute; reflexivity)
                  ltac:(vm_compute; reflexivity)
                  ltac:(intros st [= <-]; vm_compute; reflexivity)
                  res eq_refl) as [e' ->].
      by exists e'.
    + exfalso. vm_compute in Hres. discriminate.
  - apply Hexit.
    + vm_compute. reflexivity.
    + right. eexists. split; [reflexivity|]. vm_compute. reflexivity.
  - destruct (Tune.run Tune.sample_top Tune.sample_refined Tune.sample_ready
                Tune.Infinite Tune.sample_env
                ([Tune.first_tick] ++ [Tune.second_tick]) Tune.sample_disk)
      as [res|err] eqn:Hres.
    + destruct (Hgo ltac:(vm_compute; reflexivity) I
                  ltac:(intros st [= <-]; vm_compute; reflexivity)
                  res eq_refl) as [e' ->].
      by exists e'.
    + exfalso. vm_compute in Hres. discriminate.
  - apply Hskip. vm_compute. reflexivity.
Defined.

(** C6 at the sample run, before and after [prepare]. *)
Lemma run_asserts_ready_witness :
  Tune.run Tune.sample_top Tune.sample_refined (Tune.sample_new None)
      Tune.Infinite Tune.sample_env Tune.sample_ticks Tune.empty_fs
    = Raise (AssertionError "prepare() must be called before starting run.") /\
  Tune.ready Tune.sample_ready = true /\
  forall msg,
    Tune.run Tune.sample_top Tune.sample_refined Tune.sample_ready
        Tune.Infinite Tune.sample_env Tune.sample_ticks Tune.empty_fs
      <> Raise (AssertionError msg).
Proof.
  pose proof (run_asserts_ready Tune.sample_humanize Tune.sample_top
                Tune.sample_refined
                0%nat (Tune.VDict [("eval", Tune.VStr "sample")])
                (Tune.budget_stopper 1) None ["TimeoutError"] None
                Tune.sample_context "0a1b"
                (Tune.sample_new None) [] Tune.empty_fs
                Tune.sample_ready Tune.sample_disk
                Tune.Infinite Tune.sample_env Tune.sample_ticks Tune.empty_fs)
    as [Hfresh Hready].
  split; [exact Hfresh|].
  apply Hready. vm_compute. reflexivity.
Defined.

(** ** [memcached]: statistics, [clear_cache], and the eviction policy *)

Section MemcachedMore.

Import Caching CachingOps.

Context {Args Value Key : Type} `{EqDecision Key}.
Variable fast_hash : Args -> Key.
Variable f : Args -> Value.

#[local] Abbreviation call := (call fast_hash f).
#[local] Abbreviation calls := (calls fast_hash f).
#[local] Abbreviation after := (after fast_hash f).
#[local] Abbreviation sound := (sound fast_hash f).
#[local] Abbreviation step := (step fast_hash f).
#[local] Abbreviation steps := (steps fast_hash f).
#[local] Abbreviation returned := (returned fast_hash f).
#[local] Abbreviation lru_inv := (lru_inv fast_hash).

Implicit Types (m : memcached Args Value Key) (k : Key) (op : Op Args)
  (ops : list (Op Args)).

Lemma steps_snoc n ops op : steps n (ops ++ [op]) = step (steps n ops) op.
Proof. unfold CachingOps.steps. by rewrite fold_left_app. Qed.

Lemma clear_cache_well_formed m : well_formed m -> well_formed (clear_cache m).
Proof.
  intros _. split; simpl; try done.
  - constructor.
  - unfold dict_len. simpl. lia.
Qed.

Lemma step_well_formed m op : well_formed m -> well_formed (step m op).
Proof.
  destruct op; simpl; [apply call_well_formed | apply clear_cache_well_formed].
Qed.

Lemma step_max_entries m op : max_entries (step m op) = max_entries m.
Proof. destruct op; simpl; [apply call_max_entries | done]. Qed.

Lemma steps_well_formed n ops :
  well_formed (steps n ops) /\ max_entries (steps n ops) = n.
Proof.
  induction ops as [|op ops [IH1 IH2]] using rev_ind.
  - split; [apply init_well_formed | done].
  - rewrite steps_snoc, step_max_entries. split; [by apply step_well_formed | done].
Qed.

Lemma returned_values ops m cl :
  well_formed m -> sound cl m ->
  (forall a b, a ∈ cl ++ called ops -> b ∈ cl ++ called ops ->
     fast_hash a = fast_hash b -> a = b) ->
  returned m ops = map f (called ops).
Proof.
  revert m cl. induction ops as [|[a|] ops IH]; intros m cl Hwf Hs Hfree; simpl.
  - done.
  - f_equal.
    + apply (call_value fast_hash f cl); [done|].
      intros b Hb Hh. apply Hfree; [set_solver | set_solver | done].
    + apply (IH _ (cl ++ [a])).
      * by apply call_well_formed.
      * by apply call_sound.
      * intros x y Hx Hy. simpl in Hfree. rewrite <- app_assoc in Hx, Hy.
        by apply Hfree.
  - apply (IH _ cl); [by apply clear_cache_well_formed | | done].
    intros k it. discriminate.
Qed.

(** X4.  Clearing the cache between calls breaks nothing: over every
    sequence of calls and clearings the cache stays within
    [max(0, max_entries)] entries, and when arguments that hash to the same
    key are the same arguments, every call returns the value of the wrapped
    function. *)
Theorem memcached_with_clears (n : Z) ops :
  dict_len (cache (steps n ops)) <= Z.max 0 n /\
  ((forall a b, a ∈ called ops -> b ∈ called ops ->
      fast_hash a = fast_hash b -> a = b) ->
   returned (make_memcached n) ops = map f (called ops)).
Proof.
  split.
  - destruct (steps_well_formed n ops) as [Hwf Hmax].
    pose proof (wf_bound _ Hwf) as Hb. by rewrite Hmax in Hb.
  - intros Hfree. apply (returned_values ops _ []); [apply init_well_formed | |done].
    intros k it. discriminate.
Qed.

(** The value a call leaves under its key is the value it returns. *)
Lemma call_stores m a it :
  well_formed m ->
  dict_get (cache (snd (call m a))) (fast_hash a) = Some it ->
  snd it = fst (call m a).
Proof.
  intros Hwf. destruct (dict_get (cache m) (fast_hash a)) as [it0|] eqn:Hg.
  - destruct (call_hit fast_hash f m a it0 Hg) as (-> & -> & _).
    rewrite dict_get_touch, decide_True, Hg by done. simpl. by intros [= <-].
  - destruct (call_miss fast_hash f m a Hg) as (-> & -> & _).
    destruct (inserted_shape fast_hash f m a Hwf Hg) as (_ & Hk1 & _ & _ & Hnew).
    destruct (_ <? _).
    + rewrite dict_get_del by done. case_decide; [done|].
      rewrite Hnew. by intros [= <-].
    + rewrite Hnew. by intros [= <-].
Qed.

(** With room for one entry, the key just called is in the cache. *)
Lemma call_keeps_called m a :
  well_formed m -> 1 <= max_entries m ->
  is_Some (dict_get (cache (snd (call m a))) (fast_hash a)).
Proof.
  intros Hwf Hone. pose proof Hwf as [Hk Hb Hd Hn].
  destruct (dict_get (cache m) (fast_hash a)) as [it0|] eqn:Hg.
  - destruct (call_hit fast_hash f m a it0 Hg) as (_ & -> & _).
    rewrite dict_get_touch, decide_True, Hg by done. simpl. eauto.
  - destruct (call_miss fast_hash f m a Hg) as (_ & -> & _).
    destruct (inserted_shape fast_hash f m a Hwf Hg) as (Happ & Hk1 & Hb1 & Hd1 & Hnew).
    set (cache1 := dict_set (cache m) (fast_hash a) (lruc m, f a)) in *.
    destruct (max_entries m <? dict_len cache1) eqn:Eover; [|by rewrite Hnew].
    apply Z.ltb_lt in Eover.
    assert (Hvic : least_recent cache1 (victim (lruc m + 1) (fast_hash a) cache1)).
    { apply victim_least_recent; try done. rewrite Happ. by destruct (cache m). }
    rewrite dict_get_del by done. case_decide as Hv; [|by rewrite Hnew].
    exfalso. destruct Hvic as (itv & Hitv & Hmin).
    rewrite Hv, Hnew in Hitv. injection Hitv as <-.
    destruct (cache m) as [|[k0 it0] rest] eqn:Ec.
    { rewrite Happ in Eover. unfold dict_len in Eover. simpl in Eover. lia. }
    assert (H0 : dict_get ((k0, it0) :: rest) k0 = Some it0).
    { simpl. by rewrite decide_True. }
    assert (Hne : k0 <> fast_hash a) by (intros ->; congruence).
    assert (H1 : dict_get cache1 k0 = Some it0).
    { rewrite Happ, dict_get_app_fresh, H0. done. }
    specialize (Hmin k0 it0 H1). rewrite Hv in Hmin. specialize (Hmin Hne).
    apply Hb in H0. simpl in Hmin. lia.
Qed.

Lemma after_snoc n (l : list Args) a : after n (l ++ [a]) = snd (call (after n l) a).
Proof.
  unfold Caching.after. rewrite calls_app, calls_cons. done.
Qed.

(** C9.  The values the wrapper returns over a sequence of calls are the
    values of [f], call by call, when arguments of the sequence that hash
    to the same key are the same arguments.  With no assumption on the
    hash: after any sequence of calls, a call that finds the entry of its
    key in the cache returns the stored value, which is the value of [f]
    at an earlier call with that key, and [f] is not invoked; and with
    room for one entry such a call exists, for right after a call the
    entry of its key is in the cache and holds the value the call
    returned, so that the same call again is served from the cache. *)
Theorem memcached_refines (n : Z) (l : list Args) :
  ((forall a b, a ∈ l -> b ∈ l -> fast_hash a = fast_hash b -> a = b) ->
   fst (calls (init n) l) = map f l) /\
  (forall a it,
     dict_get (cache (after n l)) (fast_hash a) = Some it ->
     fst (call (after n l) a) = snd it /\
     invoked (snd (call (after n l) a)) = invoked (after n l) /\
     misses (snd (call (after n l) a)) = misses (after n l) /\
     exists b, b ∈ l /\ fast_hash b = fast_hash a /\ snd it = f b) /\
  (1 <= n ->
   forall a, exists it,
     dict_get (cache (after n (l ++ [a]))) (fast_hash a) = Some it /\
     snd it = fst (call (after n l) a) /\
     fst (call (after n (l ++ [a])) a) = fst (call (after n l) a) /\
     invoked (snd (call (after n (l ++ [a])) a)) = invoked (after n (l ++ [a]))).
Proof.
  split; [|split].
  - intros Hfree. apply (calls_values fast_hash f []); [apply init_well_formed | |done].
    intros k it. discriminate.
  - intros a it Hg.
    destruct (call_hit fast_hash f _ a it Hg) as (Hv & _ & _ & Hi & Hm).
    split; [done|]. split; [done|]. split; [done|].
    by apply (after_sound fast_hash f n l).
  - intros Hn a.
    pose proof (after_well_formed fast_hash f n l) as Hwf.
    assert (Hmax : max_entries (after n l) = n) by apply calls_max_entries.
    destruct (call_keeps_called (after n l) a Hwf) as [it Hit]; [lia|].
    exists it. rewrite after_snoc.
    pose proof (call_stores _ _ _ Hwf Hit) as Hval.
    destruct (call_hit fast_hash f _ a it Hit) as (Hv & _ & _ & Hi & _).
    split; [done|]. split; [done|]. split; [congruence|done].
Qed.

(** X5.  With room for at least one entry, a call repeated at once is a
    hit: it returns the value the call before it returned and does not
    invoke the wrapped function. *)
Theorem memcached_repeat_is_hit (n : Z) (l : list Args) (a : Args) :
  1 <= n ->
  let m := after n (l ++ [a]) in
  fst (call m a) = fst (call (after n l) a) /\
  invoked (snd (call m a)) = invoked m /\
  misses (snd (call m a)) = misses m.
Proof.
  intros Hn m. unfold m. rewrite after_snoc.
  pose proof (after_well_formed fast_hash f n l) as Hwf.
  assert (Hmax : max_entries (after n l) = n) by apply calls_max_entries.
  destruct (call_keeps_called (after n l) a Hwf) as [it Hit]; [lia|].
  destruct (call_hit fast_hash f _ a it Hit) as (-> & _ & _ & -> & ->).
  split; [|done]. by apply call_stores.
Qed.

Lemma call_no_room m a :
  max_entries m <= 0 -> cache m = [] ->
  cache (snd (call m a)) = [] /\
  fst (call m a) = f a /\
  invoked (snd (call m a)) = a :: invoked m.
Proof.
  intros Hn Hc. unfold Caching.call. rewrite Hc. simpl.
  unfold dict_len, victim, scan, scan_step. simpl.
  assert (E : (max_entries m <? Z.of_nat 1) = true) by (apply Z.ltb_lt; lia).
  assert (Hlt : (lruc m <? lruc m + 1) = true) by (apply Z.ltb_lt; lia).
  rewrite E, Hlt. simpl. by rewrite decide_True.
Qed.

(** X6.  With [max_entries] zero or negative nothing is ever cached: after
    every call the cache is empty, every call invokes the wrapped function
    and returns its value. *)
Theorem memcached_without_room (n : Z) (l : list Args) :
  n <= 0 ->
  cache (after n l) = [] /\
  invoked (after n l) = rev l /\
  fst (calls (init n) l) = map f l.
Proof.
  intros Hn.
  assert (Hgen : forall m, max_entries m <= 0 -> cache m = [] ->
            cache (snd (calls m l)) = [] /\
            invoked (snd (calls m l)) = rev l ++ invoked m /\
            fst (calls m l) = map f l).
  { induction l as [|a l IH]; intros m Hm Hc; [done|].
    rewrite calls_cons. simpl.
    destruct (call_no_room m a Hm Hc) as (Hc' & Hv & Hi).
    destruct (IH (snd (call m a))) as (IH1 & IH2 & IH3);
      [by rewrite call_max_entries | done |].
    split; [done|]. split.
    - rewrite IH2, Hi, <- app_assoc. done.
    - by rewrite Hv, IH3. }
  destruct (Hgen (init n)) as (H1 & H2 & H3); [done | done |].
  split; [done|]. split; [|done].
  unfold Caching.after. rewrite H2. simpl. apply app_nil_r.
Qed.

End MemcachedMore.

(** ** [memcached]: the statistics, also when the wrapped function raises *)

Section MemcachedRaising.

Import Caching CachingOps.

Context {Args Value Key : Type} `{EqDecision Key}.
Variable fast_hash : Args -> Key.
Variable f : Args -> Value.
Variable g : Args -> Result Value.

#[local] Abbreviation call := (call fast_hash f).
#[local] Abbreviation step := (step fast_hash f).
#[local] Abbreviation steps := (steps fast_hash f).
#[local] Abbreviation try_call := (try_call fast_hash g).
#[local] Abbreviation try_step := (try_step fast_hash g).
#[local] Abbreviation try_steps := (try_steps fast_hash g).
#[local] Abbreviation raised := (raised fast_hash g).

Implicit Types (m : memcached Args Value Key) (op : Op Args)
  (ops : list (Op Args)).

Lemma try_call_counters m a :
  let m' := snd (try_call m a) in
  lruc m' = lruc m + 1 - raised m [Call a] /\
  total_hits m' + total_misses m' = total_hits m + total_misses m + 1 /\
  hits m' + misses m' = hits m + misses m + 1 /\
  total_misses m' - Z.of_nat (length (invoked m'))
    = total_misses m - Z.of_nat (length (invoked m)).
Proof.
  unfold CachingOps.raised, CachingOps.try_call.
  destruct (dict_get (cache m) (fast_hash a)); simpl.
  - repeat split; lia.
  - destruct (g a); simpl; repeat split; lia.
Qed.

Lemma raised_cons_call m a ops :
  raised m (Call a :: ops) = raised m [Call a] + raised (snd (try_call m a)) ops.
Proof. simpl. destruct (fst (try_call m a)); lia. Qed.

(** The counters after a sequence of operations, from any object. *)
Lemma try_steps_counters ops m0 :
  let m := fold_left try_step ops m0 in
  total_hits m + total_misses m
    = total_hits m0 + total_misses m0 + Z.of_nat (length (called ops)) /\
  lruc m = lruc m0 + Z.of_nat (length (called ops)) - raised m0 ops /\
  total_misses m - Z.of_nat (length (invoked m))
    = total_misses m0 - Z.of_nat (length (invoked m0)) /\
  hits m + misses m
    = fold_left (fun c op => match op with Call _ => c + 1 | ClearCache => 0 end)
        ops (hits m0 + misses m0).
Proof.
  revert m0. induction ops as [|[a|] ops IH]; intros m0.
  - simpl. repeat split; lia.
  - destruct (IH (snd (try_call m0 a))) as (Ht & Hl & Hm & Hs).
    destruct (try_call_counters m0 a) as (Hl' & Ht' & Hs' & Hm').
    rewrite raised_cons_call.
    remember (raised m0 [Call a]) as r1 eqn:E1.
    remember (raised (snd (try_call m0 a)) ops) as r2 eqn:E2.
    clear E1 E2 IH. simpl in *. rewrite Hs, Hs'. repeat split; lia.
  - destruct (IH (clear_cache m0)) as (Ht & Hl & Hm & Hs).
    clear IH. simpl in *. repeat split; [lia|lia|lia|exact Hs].
Qed.

(** With a function that never raises, the calls are those of [call]. *)
Lemma try_call_total m a :
  (forall a, g a = Ok (f a)) ->
  try_call m a = (Ok (fst (call m a)), snd (call m a)).
Proof.
  intros Hg. unfold CachingOps.try_call, Caching.call.
  destruct (dict_get (cache m) (fast_hash a)); [done|].
  by rewrite Hg.
Qed.

Lemma try_steps_total ops m0 :
  (forall a, g a = Ok (f a)) ->
  fold_left try_step ops m0 = fold_left step ops m0 /\ raised m0 ops = 0.
Proof.
  intros Hg. revert m0. induction ops as [|[a|] ops IH]; intros m0; simpl.
  - done.
  - rewrite (try_call_total m0 a Hg). simpl. apply IH.
  - apply IH.
Qed.

(** X3.  The statistics over every sequence of calls and cache clearings
    on a fresh wrapper, for a wrapped function that may raise: the
    lifetime counters add up to the number of calls; the recency clock
    counts the calls that returned, so it stays behind by one for every
    call in which the function raised; [total_misses] counts the
    invocations of the function; and [hits + misses] counts the calls
    since the last clearing.  For a function that never raises no call
    raises, and the object is the one the calls leave that return the
    values of the function. *)
Theorem memcached_statistics (n : Z) ops :
  let m := try_steps n ops in
  total_hits m + total_misses m = Z.of_nat (length (called ops)) /\
  lruc m = Z.of_nat (length (called ops)) - raised (make_memcached n) ops /\
  total_misses m = Z.of_nat (length (invoked m)) /\
  hits m + misses m = since_clear ops /\
  ((forall a, g a = Ok (f a)) ->
   raised (make_memcached n) ops = 0 /\ m = steps n ops).
Proof.
  destruct (try_steps_counters ops (make_memcached n)) as (Ht & Hl & Hm & Hs).
  cbv zeta. unfold CachingOps.try_steps. simpl in *.
  split; [lia|]. split; [lia|]. split; [lia|]. split; [exact Hs|].
  intros Hg. destruct (try_steps_total ops (make_memcached n) Hg) as [Heq Hr].
  split; [exact Hr|exact Heq].
Qed.

End MemcachedRaising.

(** *** Least recently used *)

Section LastUse.

Import Caching CachingOps.

Context {Key : Type} `{EqDecision Key}.

Implicit Types (k : Key) (ks : list Key).

Lemma last_use_bound ks k i :
  last_use ks k = Some i -> 0 <= i < Z.of_nat (length ks).
Proof.
  revert i. induction ks as [|k' ks IH]; intros i; simpl; [discriminate|].
  destruct (last_use ks k) as [j|].
  - intros [= <-]. specialize (IH j eq_refl). lia.
  - case_decide; [|discriminate]. intros [= <-]. lia.
Qed.

Lemma last_use_None ks k : last_use ks k = None <-> k ∉ ks.
Proof.
  induction ks as [|k' ks IH]; simpl.
  - split; [intros _ Hin; inversion Hin | done].
  - destruct (last_use ks k) as [j|].
    + split; [discriminate|]. intros Hn. exfalso.
      destruct IH as [_ IH]. assert (Hk : k ∉ ks) by set_solver.
      specialize (IH Hk). discriminate.
    + destruct IH as [IH _]. specialize (IH eq_refl). case_decide.
      * subst. split; [discriminate | set_solver].
      * split; [set_solver | done].
Qed.

Lemma last_use_app ks ks' k :
  last_use (ks ++ ks') k =
    match last_use ks' k with
    | Some j => Some (Z.of_nat (length ks) + j)
    | None => last_use ks k
    end.
Proof.
  induction ks as [|k0 ks IH]; simpl.
  - destruct (last_use ks' k) as [j|]; [f_equal; lia | done].
  - rewrite IH. destruct (last_use ks' k) as [j|]; [f_equal; lia | done].
Qed.

Lemma last_use_snoc ks k' k :
  last_use (ks ++ [k']) k =
    if decide (k' = k) then Some (Z.of_nat (length ks)) else last_use ks k.
Proof.
  rewrite last_use_app. simpl. case_decide; [f_equal; lia | done].
Qed.

End LastUse.

Section LruPolicy.

Import Caching CachingOps.

Context {Args Value Key : Type} `{EqDecision Key}.
Variable fast_hash : Args -> Key.
Variable f : Args -> Value.

#[local] Abbreviation call := (call fast_hash f).
#[local] Abbreviation after := (after fast_hash f).
#[local] Abbreviation lru_inv := (lru_inv fast_hash).

Implicit Types (m : memcached Args Value Key) (k : Key).

Lemma init_lru_inv n :
  lru_inv [] (init (Args:=Args) (Value:=Value) (Key:=Key) n).
Proof.
  split; simpl; try done. apply init_well_formed.
Qed.

Lemma call_lru_inv l m a :
  lru_inv l m -> lru_inv (l ++ [a]) (snd (call m a)).
Proof.
  intros [Hwf Hclk Hin Hout]. pose proof Hwf as [Hk Hb Hd Hn].
  assert (Hlast : forall k, last_use (map fast_hash (l ++ [a])) k =
            if decide (fast_hash a = k) then Some (lruc m)
            else last_use (map fast_hash l) k).
  { intros k. rewrite map_app. simpl. rewrite last_use_snoc, length_map, Hclk. done. }
  assert (Hold : forall k i, last_use (map fast_hash l) k = Some i -> i < lruc m).
  { intros k i Hi. apply last_use_bound in Hi. rewrite length_map in Hi. lia. }
  pose proof (call_well_formed fast_hash f m a Hwf) as Hwf'.
  destruct (dict_get (cache m) (fast_hash a)) as [it0|] eqn:Hg.
  - destruct (call_hit fast_hash f m a it0 Hg) as (_ & Hc & Hl & _).
    assert (Hlook : forall k it, dict_get (cache (snd (call m a))) k = Some it ->
              (k = fast_hash a /\ fst it = lruc m) \/
              (k <> fast_hash a /\ dict_get (cache m) k = Some it)).
    { intros k it. rewrite Hc, dict_get_touch. case_decide.
      - subst k. rewrite Hg. simpl. intros [= <-]. by left.
      - intros Hit. right. split; [congruence | done]. }
    split; [done | | |].
    + rewrite Hl, Hclk, length_app. simpl. lia.
    + intros k it Hit. rewrite Hlast.
      destruct (Hlook _ _ Hit) as [[-> ->]|[Hne Ho]].
      * by rewrite decide_True.
      * rewrite decide_False by congruence. by apply Hin.
    + intros k i. rewrite Hlast, Hc, dict_get_touch. case_decide as Hk0.
      { rewrite Hg. discriminate. }
      intros Hi Hno.
      destruct (Hout _ _ Hi Hno) as [Hfull Hlt].
      rewrite call_max_entries. unfold dict_len in *.
      rewrite dict_touch_length. split; [done|].
      intros k' it'. rewrite dict_get_touch. case_decide.
      * subst k'. rewrite Hg. simpl. intros [= <-]. simpl. by eapply Hold.
      * apply Hlt.
  - destruct (call_miss fast_hash f m a Hg) as (_ & Hc & Hl & _).
    destruct (inserted_shape fast_hash f m a Hwf Hg) as (Happ & Hk1 & Hb1 & Hd1 & Hnew).
    set (cache1 := dict_set (cache m) (fast_hash a) (lruc m, f a)) in *.
    assert (Hlen1 : dict_len cache1 = dict_len (cache m) + 1).
    { unfold dict_len. rewrite Happ, length_app. simpl. lia. }
    assert (Hlook1 : forall k it, dict_get cache1 k = Some it ->
              (k = fast_hash a /\ it = (lruc m, f a)) \/
              (k <> fast_hash a /\ dict_get (cache m) k = Some it)).
    { intros k it. rewrite Happ, dict_get_app_fresh.
      destruct (dict_get (cache m) k) eqn:E.
      - intros [= ->]. right. split; [congruence | done].
      - case_decide; [|discriminate]. intros [= <-]. by left. }
    assert (Hin1 : forall k it, dict_get cache1 k = Some it ->
              last_use (map fast_hash (l ++ [a])) k = Some (fst it)).
    { intros k it Hit. rewrite Hlast.
      destruct (Hlook1 _ _ Hit) as [[-> ->]|[Hne Ho]].
      - by rewrite decide_True.
      - rewrite decide_False by congruence. by apply Hin. }
    assert (Hout1 : forall k i, last_use (map fast_hash (l ++ [a])) k = Some i ->
              dict_get cache1 k = None ->
              dict_len (cache m) = Z.max 0 (max_entries m) /\
              forall k' it', dict_get cache1 k' = Some it' -> i < fst it').
    { intros k i. rewrite Hlast. case_decide as Hk0.
      { subst k. rewrite Hnew. discriminate. }
      intros Hi Hno.
      assert (Hno' : dict_get (cache m) k = None).
      { rewrite Happ, dict_get_app_fresh in Hno.
        by destruct (dict_get (cache m) k). }
      destruct (Hout _ _ Hi Hno') as [Hfull Hlt]. split; [done|].
      intros k' it' Hit'. destruct (Hlook1 _ _ Hit') as [[-> ->]|[Hne Ho]].
      - simpl. by eapply Hold.
      - by eapply Hlt. }
    split; [done | | |].
    + rewrite Hl, Hclk, length_app. simpl. lia.
    + intros k it. rewrite Hc. destruct (max_entries m <? dict_len cache1).
      * rewrite dict_get_del by done. case_decide; [discriminate | apply Hin1].
      * apply Hin1.
    + intros k i Hi. rewrite Hc, call_max_entries.
      destruct (max_entries m <? dict_len cache1) eqn:Eover.
      * apply Z.ltb_lt in Eover.
        set (v := victim (lruc m + 1) (fast_hash a) cache1).
        assert (Hvic : least_recent cache1 v).
        { apply victim_least_recent; try done. rewrite Happ. by destruct (cache m). }
        destruct Hvic as (itv & Hitv & Hmin).
        pose proof (dict_del_length _ _ _ Hitv) as Hdl.
        assert (Hfull : dict_len (dict_del cache1 v) = Z.max 0 (max_entries m)).
        { unfold dict_len in *. lia. }
        rewrite dict_get_del by done. intros Hno. split; [done|].
        intros k' it'. rewrite dict_get_del by done.
        destruct (decide (v = k')) as [|Hvk']; [discriminate|]. intros Hit'.
        destruct (decide (v = k)) as [Hvk|Hvk].
        -- subst k. rewrite (Hin1 _ _ Hitv) in Hi. injection Hi as <-.
           apply (Hmin k' it' Hit'). congruence.
        -- destruct (Hout1 _ _ Hi Hno) as [_ Hlt]. by eapply Hlt.
      * apply Z.ltb_ge in Eover. intros Hno.
        destruct (Hout1 _ _ Hi Hno) as [Hfull _]. lia.
Qed.

Lemma after_lru_inv n (l : list Args) : lru_inv l (after n l).
Proof.
  induction l as [|a l IH] using rev_ind; [apply init_lru_inv|].
  rewrite (after_snoc fast_hash f). by apply call_lru_inv.
Qed.

(** X7.  The cache is a least-recently-used cache.  Take the last call
    with some key in a sequence of calls: the key is still cached at the
    end exactly when fewer than [max_entries] distinct other keys were
    called after it. *)
Theorem memcached_lru_policy (n : Z) (l pre post : list Args) (a : Args) :
  l = pre ++ a :: post ->
  fast_hash a ∉ map fast_hash post ->
  is_Some (dict_get (cache (after n l)) (fast_hash a)) <->
  Z.of_nat (length (remove_dups (map fast_hash post))) < n.
Proof.
  intros -> Hlast.
  destruct (after_lru_inv n (pre ++ a :: post)) as [Hwf Hclk Hin Hout].
  set (m := after n (pre ++ a :: post)) in *.
  assert (Hmax : max_entries m = n) by apply calls_max_entries.
  pose proof (wf_bound _ Hwf) as Hbound. rewrite Hmax in Hbound, Hout.
  pose proof (wf_keys _ Hwf) as Hnd.
  assert (Hsplit : forall k, last_use (map fast_hash (pre ++ a :: post)) k =
            match last_use (map fast_hash post) k with
            | Some j => Some (Z.of_nat (length pre) + 1 + j)
            | None => if decide (fast_hash a = k) then Some (Z.of_nat (length pre))
                      else last_use (map fast_hash pre) k
            end).
  { intros k. rewrite map_app, last_use_app, length_map. simpl.
    destruct (last_use (map fast_hash post) k) as [j|]; [f_equal; lia|].
    case_decide; [f_equal; lia | done]. }
  assert (Ha : last_use (map fast_hash (pre ++ a :: post)) (fast_hash a)
               = Some (Z.of_nat (length pre))).
  { rewrite Hsplit. apply last_use_None in Hlast. rewrite Hlast.
    by rewrite decide_True. }
  assert (Hlater : forall k, k ∈ map fast_hash post ->
            exists j, last_use (map fast_hash (pre ++ a :: post)) k = Some j /\
                      Z.of_nat (length pre) < j).
  { intros k Hk. rewrite Hsplit.
    destruct (last_use (map fast_hash post) k) as [j|] eqn:Ej.
    - apply last_use_bound in Ej. eexists. split; [done | lia].
    - apply last_use_None in Ej. done. }
  assert (Hearlier : forall k j,
            last_use (map fast_hash (pre ++ a :: post)) k = Some j ->
            Z.of_nat (length pre) < j -> k ∈ map fast_hash post).
  { intros k j. rewrite Hsplit.
    destruct (last_use (map fast_hash post) k) as [j'|] eqn:Ej.
    - intros _ _. destruct (decide (k ∈ map fast_hash post)) as [|Hn]; [done|].
      apply last_use_None in Hn. congruence.
    - case_decide.
      + intros [= <-]. lia.
      + intros Hj. apply last_use_bound in Hj. rewrite length_map in Hj. lia. }
  split.
  - intros [it Hit].
    assert (Hc : fst it = Z.of_nat (length pre)).
    { apply Hin in Hit. rewrite Ha in Hit. by injection Hit as <-. }
    assert (Hsub : fast_hash a :: remove_dups (map fast_hash post)
                     ⊆+ map fst (cache m)).
    { apply NoDup_submseteq.
      - apply NoDup_cons. split; [by rewrite elem_of_remove_dups|].
        apply NoDup_remove_dups.
      - intros k Hk. apply elem_of_cons in Hk as [->|Hk].
        + apply dict_get_elem in Hit.
          change (fast_hash a) with (fst (fast_hash a, it)).
          by apply list_elem_of_fmap_2.
        + rewrite elem_of_remove_dups in Hk.
          destruct (Hlater _ Hk) as (j & Hj & Hlt).
          destruct (dict_get (cache m) k) as [it'|] eqn:Ek.
          * apply dict_get_elem in Ek.
            change k with (fst (k, it')). by apply list_elem_of_fmap_2.
          * destruct (Hout _ _ Hj Ek) as [_ Hall].
            specialize (Hall _ _ Hit). lia. }
    apply submseteq_length in Hsub. simpl in Hsub.
    rewrite length_map in Hsub. unfold dict_len in Hbound. lia.
  - intros Hfew.
    destruct (dict_get (cache m) (fast_hash a)) as [it|] eqn:Ek; [eauto|].
    exfalso. destruct (Hout _ _ Ha Ek) as [Hfull Hall].
    assert (Hsub : map fst (cache m) ⊆+ remove_dups (map fast_hash post)).
    { apply NoDup_submseteq; [done|].
      intros k Hk. rewrite elem_of_remove_dups.
      apply list_elem_of_fmap in Hk as ([k' it'] & -> & Hk). simpl.
      apply elem_dict_get in Hk; [|done].
      eapply Hearlier; [by apply Hin | by eapply Hall]. }
    apply submseteq_length in Hsub. rewrite length_map in Hsub.
    unfold dict_len in Hfull. lia.
Qed.

End LruPolicy.

(** ** [diskcached] *)

Section DiskcachedFacts.

Import DiskCache.

Context {Args Value : Type}.
Variable compute_hash : string -> Args -> string.
Variable f : Args -> Value.

#[local] Abbreviation filename := (filename compute_hash).
#[local] Abbreviation call := (call compute_hash f).
#[local] Abbreviation calls := (calls compute_hash f).
#[local] Abbreviation faithful := (faithful compute_hash f).

Implicit Types (c : diskcached Args) (disk : Disk Value) (a : Args).

Lemma call_object c disk a d :
  cache_location (object_of (call c disk a d)) = cache_location c /\
  name (object_of (call c disk a d)) = name c /\
  min_duration (object_of (call c disk a d)) = min_duration c.
Proof.
  unfold DiskCache.call, compute_cache_result.
  destruct (files disk !! filename c a) as [[v nm dur|]|]; done.
Qed.

Lemma call_filename c disk a d a' :
  filename (object_of (call c disk a d)) a' = filename c a'.
Proof.
  destruct (call_object c disk a d) as (Hl & Hn & _).
  unfold DiskCache.filename. by rewrite Hl, Hn.
Qed.

(** What a call does to the file of its arguments. *)
Lemma call_own_file c disk a d :
  files (disk_of (call c disk a d)) !! filename c a =
    match files disk !! filename c a with
    | Some (Saved v nm dur) => Some (Saved v nm dur)
    | _ => if min_duration c <? d then Some (Saved (f a) (name c) d) else None
    end.
Proof.
  unfold DiskCache.call, compute_cache_result.
  destruct (files disk !! filename c a) as [[v nm dur|]|] eqn:E; simpl.
  - done.
  - destruct (min_duration c <? d); simpl.
    + by rewrite lookup_insert_eq.
    + by rewrite lookup_delete_eq.
  - destruct (min_duration c <? d); simpl.
    + by rewrite lookup_insert_eq.
    + done.
Qed.

Lemma call_other_file c disk a d (path : string) :
  path <> filename c a ->
  files (disk_of (call c disk a d)) !! path = files disk !! path.
Proof.
  intros Hne. unfold DiskCache.call, compute_cache_result.
  destruct (files disk !! filename c a) as [[v nm dur|]|] eqn:E; simpl.
  - done.
  - destruct (min_duration c <? d); simpl.
    + rewrite lookup_insert_ne by done. by rewrite lookup_delete_ne.
    + by rewrite lookup_delete_ne.
  - destruct (min_duration c <? d); simpl.
    + by rewrite lookup_insert_ne.
    + done.
Qed.

(** X8.  A result that took longer than [min_duration] to compute is
    stored and found again: when the file of the arguments is absent or
    unreadable and the computation is slow, the next call with these
    arguments, however long a computation would take, returns the same
    value without invoking the function and leaves the disk as it is. *)
Theorem diskcached_round_trip c disk a d d' :
  (forall v nm dur, files disk !! filename c a <> Some (Saved v nm dur)) ->
  min_duration c < d ->
  let first := call c disk a d in
  let second := call (object_of first) (disk_of first) a d' in
  value_of first = f a /\
  value_of second = f a /\
  invoked (object_of second) = invoked (object_of first) /\
  hits (object_of second) = hits (object_of first) + 1 /\
  disk_of second = disk_of first.
Proof.
  intros Hno Hslow first second.
  assert (Hfile : files (disk_of first) !! filename c a
                  = Some (Saved (f a) (name c) d)).
  { unfold first. rewrite call_own_file.
    apply Z.ltb_lt in Hslow. rewrite Hslow.
    destruct (files disk !! filename c a) as [[v nm dur|]|] eqn:E; try done.
    by destruct (Hno v nm dur). }
  split.
  - unfold first, DiskCache.call, compute_cache_result.
    destruct (files disk !! filename c a) as [[v nm dur|]|] eqn:E; try done.
    by destruct (Hno v nm dur).
  - pose proof (call_filename c disk a d a) as Hfn. fold first in Hfn.
    unfold second, DiskCache.call. rewrite Hfn, Hfile. done.
Qed.

(** X9.  A call changes no file but the one of its arguments, and that
    one only when it cannot be read: a readable file is kept as it is, an
    unreadable one is removed, and a new file is written only when the
    computation took longer than [min_duration].  So no call leaves an
    unreadable file under its name, and fast results are never stored. *)
Theorem diskcached_disk_discipline c disk a d (path : string) :
  (path <> filename c a ->
   files (disk_of (call c disk a d)) !! path = files disk !! path) /\
  (forall v nm dur, files disk !! filename c a = Some (Saved v nm dur) ->
     disk_of (call c disk a d) = disk /\ value_of (call c disk a d) = v /\
     invoked (object_of (call c disk a d)) = invoked c) /\
  files (disk_of (call c disk a d)) !! filename c a <> Some Unreadable /\
  (d <= min_duration c ->
   files disk !! filename c a = None ->
   disk_of (call c disk a d) = disk) /\
  (d <= min_duration c ->
   files disk !! filename c a = Some Unreadable ->
   files (disk_of (call c disk a d)) !! filename c a = None).
Proof.
  split; [apply call_other_file|]. split; [|split; [|split]].
  - intros v nm dur Hf. unfold DiskCache.call. by rewrite Hf.
  - rewrite call_own_file.
    destruct (files disk !! filename c a) as [[v nm dur|]|]; [done| |];
      by destruct (min_duration c <? d).
  - intros Hfast Hf. unfold DiskCache.call, compute_cache_result. rewrite Hf.
    apply Z.ltb_ge in Hfast. by rewrite Hfast.
  - intros Hfast Hf. rewrite call_own_file, Hf.
    apply Z.ltb_ge in Hfast. by rewrite Hfast.
Qed.

Lemma call_faithful c disk a d :
  (forall b, filename c a = filename c b -> f a = f b) ->
  faithful c disk ->
  value_of (call c disk a d) = f a /\
  faithful (object_of (call c disk a d)) (disk_of (call c disk a d)).
Proof.
  intros Hfree Hfaith. split.
  - unfold DiskCache.call, compute_cache_result.
    destruct (files disk !! filename c a) as [[v nm dur|]|] eqn:E; try done.
    simpl. by eapply Hfaith.
  - intros b v nm dur. rewrite call_filename.
    destruct (decide (filename c b = filename c a)) as [Heq|Hne].
    + rewrite Heq, call_own_file.
      destruct (files disk !! filename c a) as [[v0 nm0 dur0|]|] eqn:E.
      * intros [= <- <- <-]. rewrite <- Heq in E. by eapply Hfaith.
      * destruct (min_duration c <? d); [|done].
        intros [= <- <- <-]. by apply Hfree.
      * destruct (min_duration c <? d); [|done].
        intros [= <- <- <-]. by apply Hfree.
    + rewrite call_other_file by done. apply Hfaith.
Qed.

Lemma disk_calls_cons c disk a d rest :
  calls c disk ((a, d) :: rest) =
    let r := call c disk a d in
    let rs := calls (object_of r) (disk_of r) rest in
    (value_of r :: fst (fst rs), snd (fst rs), snd rs).
Proof.
  simpl. destruct (call c disk a d) as [[v c1] disk1].
  unfold value_of, object_of, disk_of. simpl.
  by destruct (calls c1 disk1 rest) as [[vs c2] disk2].
Qed.


End DiskcachedFacts.

Section SharedName.

Import DiskCache.

Context {Args Value : Type}.
Variable compute_hash : string -> Args -> string.
Variable normpath : string -> string.
Variable half_second : Z.

(** X11.  [make_discached] does not hand the name on, so two functions it
    wraps for the same cache location share their files: once a slow
    result of [f] is stored for some arguments, the wrapper of [g] returns
    that value for these arguments and does not invoke [g]. *)
Theorem make_discached_shares_files
    (f g : Args -> Value) (location name_f name_g : string)
    (disk : Disk Value) (a : Args) (d d' : Z) :
  let cf := make_discached normpath half_second location name_f in
  let cg := make_discached normpath half_second location name_g in
  files disk !! filename compute_hash cf a = None ->
  half_second < d ->
  let disk1 := disk_of (call compute_hash f cf disk a d) in
  value_of (call compute_hash g cg disk1 a d') = f a /\
  invoked (object_of (call compute_hash g cg disk1 a d')) = [].
Proof.
  intros cf cg Hno Hslow disk1.
  assert (Hfile : files disk1 !! filename compute_hash cg a
                  = Some (Saved (f a) "noname" d)).
  { unfold disk1. change cg with cf. rewrite call_own_file, Hno.
    apply Z.ltb_lt in Hslow. simpl. by rewrite Hslow. }
  unfold DiskCache.call. rewrite Hfile. done.
Qed.

End SharedName.

(** ** [convert]: the conversions it supports *)

Section ConvertMore.

Import PropertyConverter.

Variable Num : Type.
Variables num_div num_mul : Num -> Num -> Result Num.

#[local] Abbreviation convert := (convert Num num_div num_mul).

Implicit Types (data : Data Num) (prop : Num) (dp : gmap string Num).

Lemma eqb_cases (s t : string) :
  (String.eqb s t = true /\ s = t) \/ (String.eqb s t = false /\ s <> t).
Proof.
  destruct (String.eqb s t) eqn:E.
  - left. split; [done|]. by apply String.eqb_eq.
  - right. split; [done|]. by apply String.eqb_neq.
Qed.

(** X12.  The conversions [convert] supports are few: it returns a value
    only for equal units, or for 'kaggle' data with target 'fsb', or for
    'kaggle' data with target 'fe' and origin 'fec', 'fecreal' or 'fepa';
    everything else raises.  To 'fsb' every origin is handed through
    unchanged, also an origin that does not exist. *)
Theorem convert_supported data prop (origin target : string) (v : Num) :
  (convert data prop origin target = Ok v ->
   origin = target \/
   (family data = Some "kaggle" /\
    (target = "fsb" \/
     (target = "fe" /\
      (origin = "fec" \/ origin = "fecreal" \/ origin = "fepa"))))) /\
  (family data = Some "kaggle" -> target = "fsb" ->
   convert data prop origin target = Ok prop).
Proof.
  split.
  - unfold PropertyConverter.convert.
    destruct (eqb_cases origin target) as [[-> ->]|[-> Hne]]; [by left|].
    destruct (family data) as [fam|]; [|discriminate]. simpl.
    destruct (eqb_cases fam "kaggle") as [[-> ->]|[-> _]];
      [|by destruct (name data)].
    intros Hok. right. split; [done|].
    destruct (eqb_cases target "fe") as [[E ->]|[E _]]; rewrite E in Hok.
    + right. split; [done|].
      destruct (eqb_cases origin "fec") as [[E1 ->]|[E1 _]]; [by left|].
      rewrite E1 in Hok.
      destruct (eqb_cases origin "fecreal") as [[E2 ->]|[E2 _]]; [by right; left|].
      rewrite E2 in Hok.
      destruct (eqb_cases origin "fepa") as [[E3 ->]|[E3 _]]; [by right; right|].
      rewrite E3 in Hok. discriminate.
    + destruct (eqb_cases target "fsb") as [[E' ->]|[E' _]]; [by left|].
      rewrite E' in Hok. discriminate.
  - intros Hfam ->. unfold PropertyConverter.convert. rewrite Hfam. simpl.
    destruct (String.eqb origin "fsb"); done.
Qed.

Lemma contains_false dp (key : string) : dp !! key = None -> contains Num dp key = false.
Proof.
  intros Hk. unfold contains. apply bool_decide_eq_false. rewrite Hk.
  by intros [x Hx].
Qed.

Lemma contains_true dp (key : string) (x : Num) :
  dp !! key = Some x -> contains Num dp key = true.
Proof.
  intros Hk. unfold contains. apply bool_decide_eq_true. rewrite Hk. eauto.
Qed.

(** X13.  For 'kaggle' data and target 'fe', a count that the conversion
    needs and [data.p] lacks makes the call fail its assertion, before any
    arithmetic and with no [KeyError]: 'fec' needs 'n_atoms', 'fecreal'
    needs 'n_sub', 'fepa' needs both. *)
Theorem convert_missing_count data prop dp (origin : string) :
  family data = Some "kaggle" ->
  p data = Some dp ->
  (origin = "fec" /\ dp !! "n_atoms" = None) \/
  (origin = "fecreal" /\ dp !! "n_sub" = None) \/
  (origin = "fepa" /\ (dp !! "n_atoms" = None \/ dp !! "n_sub" = None)) ->
  convert data prop origin "fe" = Raise (AssertionError "").
Proof.
  intros Hfam Hp Hmiss. unfold PropertyConverter.convert. rewrite Hfam, Hp.
  destruct Hmiss as [[-> Hk]|[[-> Hk]|[-> Hk]]]; simpl.
  - by rewrite (contains_false _ _ Hk).
  - by rewrite (contains_false _ _ Hk).
  - destruct Hk as [Hk|Hk].
    + by rewrite (contains_false _ _ Hk).
    + rewrite (contains_false _ _ Hk).
      by destruct (contains Num dp "n_atoms").
Qed.

(** X14.  With both counts present, converting 'fepa' to 'fe' is
    multiplying by 'n_atoms' and then converting 'fecreal' to 'fe'; and
    'fec' and 'fecreal' divide by 'n_atoms' and by 'n_sub'. *)
Theorem convert_per_atom data prop dp (na ns : Num) :
  family data = Some "kaggle" ->
  p data = Some dp ->
  dp !! "n_atoms" = Some na ->
  dp !! "n_sub" = Some ns ->
  convert data prop "fec" "fe" = num_div prop na /\
  convert data prop "fecreal" "fe" = num_div prop ns /\
  convert data prop "fepa" "fe"
    = (x ← num_mul prop na; convert data x "fecreal" "fe").
Proof.
  intros Hfam Hp Hna Hns. unfold PropertyConverter.convert, getitem.
  rewrite Hfam, Hp. simpl.
  rewrite (contains_true _ _ _ Hna), (contains_true _ _ _ Hns), Hna, Hns. simpl.
  repeat split; by destruct (num_mul prop na).
Qed.

End ConvertMore.

(** ** [Run]: more of what the loop does *)

Section RunMore.

Import Tune.

Context {S : Type} {search_ops : Search S}.
Variable top_suggestions : ResultDB -> list Value.
Variable top_refined_suggestions : ResultDB -> list Value.

#[local] Abbreviation run := (run top_suggestions top_refined_suggestions).
#[local] Abbreviation call := (call top_suggestions top_refined_suggestions).
#[local] Abbreviation finalize := (finalize top_suggestions top_refined_suggestions).
#[local] Abbreviation write_results :=
  (write_results top_suggestions top_refined_suggestions).

Implicit Types (r : Run S) (l : Loop S) (pr : Prepared S) (st : State S).

(** Without a deadline the loop ends at a test where the stopper is done. *)
Lemma loop_never_ends pr env tks l0 l :
  loop pr env Never tks l0 = Ok (Finished l) ->
  exists tk, tk ∈ tks /\ stop_done (p_stop pr) (l_state l) (t_test tk) = true.
Proof.
  revert l0. induction tks as [|tk rest IH]; intros l0; simpl; [discriminate|].
  unfold loop_test. simpl.
  destruct (stop_done (p_stop pr) (l_state l0) (t_test tk)) eqn:E; simpl.
  - intros [= <-]. exists tk. split; [left|done].
  - intros Hb. apply bind_Ok_inv in Hb as (l1 & _ & Hl).
    destruct (IH _ Hl) as (tk' & Hin & Hdone).
    exists tk'. split; [by right|done].
Qed.

(** X15.  [__call__] takes a duration and does not hand it on: whatever
    duration it is given, the call comes to an end only at a loop test
    where the stopper reports done on the state the run ends with; no
    clock reading ends it. *)
Theorem call_ends_only_when_stopped r duration env tks fs (e : RunEnd S) :
  call r duration env tks fs = Ok (Finished e) ->
  exists tk st,
    tk ∈ tks /\
    state (end_run e) = Some st /\
    stop_done (stop r) st (t_test tk) = true.
Proof.
  unfold Tune.call. intros Hrun.
  apply run_inv in Hrun as (nm & wd & st & pl & p & _ & _ & _ & _ & _ & Hloop & Hres).
  destruct p as [l|l]; [|discriminate]. injection Hres as ->.
  apply loop_never_ends in Hloop as (tk & Hin & Hdone).
  by exists tk, (l_state l).
Qed.

(** X16.  A run whose deadline has passed when it starts does nothing
    but close: when the end computed at entry,
    [start + duration - shutdown_duration] in the arithmetic of floats, is
    not after the first reading of the clock, [run] on a prepared run ends
    at the first loop test, with no future, no evaluation launched, and
    the state [prepare] made.  (In exact arithmetic every duration up to
    [shutdown_duration] gives such an end; the rounded sum and difference
    can give a later one.) *)
Theorem run_without_time r0 (directory : Path) fs0 r fs1 (d : Time) env
    (tk : Tick) (rest : list Tick) fs :
  prepare r0 directory fs0 = Ok (r, fs1) ->
  float_sub env (float_add env (t_start env) d) (shutdown_duration (context r))
    <= t_test tk ->
  exists e pl,
    run r (Finite d) env (tk :: rest) fs = Ok (Finished e) /\
    end_futures e = ∅ /\
    state (end_run e) = state r /\
    pool (end_run e) = Some pl /\ launched pl = 0%nat.
Proof.
  intros Hprep Hend.
  apply prepare_inv in Hprep
    as (nm & _ & Hn & Hr & Hw & Hs & Hp & _ & _).
  rewrite (run_ready _ _ r (Finite d) env (tk :: rest) fs _ _ _ _ Hr Hn Hw Hs Hp).
  simpl. unfold loop_test. simpl.
  replace (t_test tk <? float_sub env (float_add env (t_start env) d)
                          (shutdown_duration (context r)))
    with false by (symmetry; by apply Z.ltb_ge).
  simpl. eexists _, _. split; [reflexivity|]. simpl.
  split; [done|]. split; [by rewrite Hs|]. split; reflexivity.
Qed.

(** A pass in which the stopper is not done fills the dictionary up to
    the number the scheduling aims at. *)
Lemma body_fills pr env tk l l' :
  accounted l ->
  Z.of_nat (size (futures l)) <= futures_bound pr ->
  stop_done (p_stop pr) (l_state l) (t_wait tk) = false ->
  body pr env tk l = Ok l' ->
  Z.of_nat (size (futures l')) = futures_bound pr.
Proof.
  intros Hacc Hb Hstop Hbody.
  apply body_inv in Hbody as [[Hs _]|(_ & l1 & Hh & Ht)]; [congruence|].
  pose proof (wait_running_size (futures l) (completed tk)) as Hr.
  assert (accounted l1) as Hacc1.
  { eapply harvest_accounted; [|exact Hh]. by apply entered_accounted. }
  rewrite (top_up_size _ _ _ Hacc1 Ht).
  assert (size (futures l1)
            = size (snd (wait (futures l) (completed tk)))) as ->.
  { rewrite <- size_dom. f_equal.
    by apply (harvested_running env (t_wait tk) (completed tk) (entered pr env tk l)). }
  unfold futures_bound, n_new_trials in *. lia.
Qed.

(** Until a pass schedules, nothing changes but the disk. *)
#[local] Abbreviation untouched l0 l :=
  (futures l = ∅ /\ l_state l = l_state l0 /\ l_pool l = l_pool l0).

Lemma body_saturates pr env tk l0 l l' :
  accounted l ->
  untouched l0 l \/ Z.of_nat (size (futures l)) = futures_bound pr ->
  body pr env tk l = Ok l' ->
  untouched l0 l' \/ Z.of_nat (size (futures l')) = futures_bound pr.
Proof.
  intros Hacc Hinv Hbody.
  destruct (stop_done (p_stop pr) (l_state l) (t_wait tk)) eqn:Hstop.
  - apply body_inv in Hbody as [[_ ->]|(Hs & _)]; [done|congruence].
  - right. eapply body_fills; [exact Hacc| |exact Hstop|exact Hbody].
    destruct Hinv as [(-> & _)| ->]; [|lia].
    rewrite map_size_empty. unfold futures_bound. lia.
Qed.

Lemma loop_saturates pr env end_ tks l0 l p :
  accounted l ->
  untouched l0 l \/ Z.of_nat (size (futures l)) = futures_bound pr ->
  loop pr env end_ tks l = Ok p ->
  untouched l0 (reached p) \/
  Z.of_nat (size (futures (reached p))) = futures_bound pr.
Proof.
  revert l. induction tks as [|tk rest IH]; intros l Hacc Hinv; simpl.
  - by intros [= <-].
  - destruct (loop_test pr end_ tk l); [|by intros [= <-]].
    intros Hl. apply bind_Ok_inv in Hl as (l1 & Hbody & Hl).
    eapply IH; [| |exact Hl].
    + by eapply body_accounted.
    + by eapply body_saturates.
Qed.

(** X17.  The loop keeps the dictionary full: when [run] on a prepared
    run ends or is observed at a loop test, either nothing has been
    scheduled yet (no future, and the state [prepare] made), or the
    dictionary holds exactly max(0, max_workers + 1) futures; every
    harvested future has been replaced in the same pass. *)
Theorem run_keeps_futures_full r0 (directory : Path) fs0 r fs1 duration env
    tks fs (res : Progress (RunEnd S)) :
  prepare r0 directory fs0 = Ok (r, fs1) ->
  run r duration env tks fs = Ok res ->
  (end_futures (reached res) = ∅ /\ state (end_run (reached res)) = state r) \/
  Z.of_nat (size (end_futures (reached res)))
    = Z.max 0 (max_workers (context r) + 1).
Proof.
  intros Hprep Hrun.
  apply prepare_inv in Hprep
    as (nm & _ & Hn & Hr & Hw & Hs & Hp & _ & _).
  apply run_inv in Hrun
    as (nm' & wd & st & pl & p & _ & _ & _ & Hs' & Hp' & Hloop & ->).
  assert (accounted (first_loop st pl fs)) as Hacc.
  { rewrite Hs in Hs'. rewrite Hp in Hp'.
    injection Hs' as <-. injection Hp' as <-.
    by apply first_loop_accounted. }
  eapply loop_saturates in Hloop; [|exact Hacc|by left].
  destruct p as [l|l]; simpl in *.
  - destruct Hloop as [(Hf & Hst & _)|Hsize]; [left|by right].
    split; [done|]. by rewrite Hst, Hs'.
  - destruct Hloop as [(Hf & Hst & _)|Hsize]; [left|by right].
    split; [done|]. by rewrite Hst, Hs'.
Qed.

(** X18.  What a finished [run] leaves in the work directory: the status
    file holds the last of the three closing messages, with the runtime
    (the reading after the loop less the reading at entry, a difference of
    floats) and 0 active evaluations, however many futures were left; and the tape file holds the tape of the state the run ends
    with. *)
Theorem run_leaves_status_and_tape r duration env tks fs (e : RunEnd S)
    (nm : string) (wd : Path) :
  run r duration env tks fs = Ok (Finished e) ->
  name r = Some nm ->
  work_directory r = Some wd ->
  files (end_fs e) !! (wd ++ ["status.txt"])
    = Some (StatusFile nm (nm +:+ ": Done. Have a good day!")
              (float_sub env (t_end env) (t_start env)) 0) /\
  exists st,
    state (end_run e) = Some st /\
    files (end_fs e) !! (wd ++ ["tape"]) = Some (TapeFile (tape st)).
Proof.
  intros Hrun Hn Hw.
  apply run_inv in Hrun
    as (nm' & wd' & st & pl & p & _ & Hn' & Hw' & _ & _ & Hloop & Hres).
  rewrite Hn in Hn'. rewrite Hw in Hw'.
  injection Hn' as <-. injection Hw' as <-.
  destruct p as [l|l]; [|discriminate]. injection Hres as ->.
  split; [apply lookup_insert_eq|].
  exists (l_state l). split; [done|]. simpl.
  rewrite lookup_insert_ne
    by (intros Heq; apply app_inv_head in Heq; discriminate).
  rewrite lookup_insert_ne
    by (intros Heq; apply app_inv_head in Heq; discriminate).
  unfold Tune.write_results. simpl.
  destruct (existsb nonempty (top_refined_suggestions (evals (l_state l)))).
  - rewrite (save_enumerated_other _ "refined_suggestion-")
      by (intros n; simpl; discriminate).
    rewrite (save_enumerated_other _ "suggestion-")
      by (intros n; simpl; discriminate).
    apply lookup_insert_eq.
  - rewrite (save_enumerated_other _ "suggestion-")
      by (intros n; simpl; discriminate).
    apply lookup_insert_eq.
Qed.

End RunMore.

(** ** [autotune.parse]: the patterns and their conversions *)

Section ParseFacts.

Import Py Parse.

Variables Grid Hyper : Type.
Variable gr : string -> option (list PyVal -> Res Grid).
Variable hp : string -> option (list PyVal -> Res Hyper).

#[local] Abbreviation to_grid := (to_grid Grid gr).
#[local] Abbreviation to_hyperopt := (to_hyperopt Hyper hp).

(** [s.split('_', 1)] is the string itself, or what stands before and
    after an underscore. *)
Lemma split_once_cases (s : string) :
  split_once s = [s] \/
  exists h t, split_once s = [h; t] /\ s = h +:+ "_" +:+ t.
Proof.
  induction s as [|c rest IH]; simpl; [by left|].
  destruct (Ascii.eqb c _) eqn:E.
  - apply Ascii.eqb_eq in E as ->. right. by exists "", rest.
  - destruct IH as [->|(h & t & -> & ->)]; [by left|].
    right. by exists (String c h), t.
Qed.

(** The test both patterns make on the first element. *)
Lemma tag_test (tag str : string) :
  (forall rest, split_once (tag +:+ "_" +:+ rest) = [tag; rest]) ->
  split_once tag = [tag] ->
  (exists s0, index (split_once str) 0 = Val s0 /\
     (String.eqb s0 tag = true <->
      str = tag \/ exists rest, str = tag +:+ "_" +:+ rest)).
Proof.
  intros Hsplit Htag.
  destruct (split_once_cases str) as [Hs|(h & t & Hs & ->)]; rewrite Hs; simpl.
  - exists str. split; [done|]. rewrite String.eqb_eq. split; [by left|].
    intros [->|[rest ->]]; [done|]. rewrite Hsplit in Hs. by injection Hs.
  - exists h. split; [done|]. rewrite String.eqb_eq. split.
    + intros ->. right. by exists t.
    + intros [Heq|[rest Heq]].
      * rewrite <- Heq, Hs in Htag. discriminate.
      * rewrite Heq, Hsplit in Hs. by injection Hs.
Qed.

(** The body of both tests, for a tuple or a list [xs]. *)
#[local] Abbreviation pattern_test tag xs :=
  (x0 ← index xs 0;
   match x0 with
   | PStr str =>
       s0 ← index (split_once str) 0;
       if String.eqb s0 tag then Val true else Val false
   | _ => Val false
   end).

Lemma pattern_test_true (tag : string) (xs : list PyVal) :
  (forall rest, split_once (tag +:+ "_" +:+ rest) = [tag; rest]) ->
  split_once tag = [tag] ->
  pattern_test tag xs = Val true <->
  exists str,
    xs !! 0%nat = Some (PStr str) /\
    (str = tag \/ exists rest, str = tag +:+ "_" +:+ rest).
Proof.
  intros Hsplit Htag. destruct xs as [|x0 rest]; simpl.
  - split; [discriminate|]. by intros (str & ? & _).
  - assert (forall b : bool,
              (if b then Val true else Val false) = Val true <-> b = true)
      as Hif by (intros []; split; congruence).
    destruct x0; simpl;
      try (split; [discriminate|by intros (str & ? & _)]).
    destruct (tag_test tag s Hsplit Htag) as (s0 & Hs0 & Htest).
    rewrite Hs0. simpl. rewrite Hif, Htest. split.
    + intros Hs. by exists s.
    + by intros (str & [= <-] & Hs).
Qed.

Lemma is_grid_true (x : PyVal) :
  is_grid x = Val true <->
  exists xs str,
    (x = PTuple xs \/ x = PList xs) /\
    xs !! 0%nat = Some (PStr str) /\
    (str = "gr" \/ exists rest, str = "gr_" +:+ rest).
Proof.
  destruct x; simpl;
    try (split; [discriminate|by intros (xs' & str & [?|?] & _)]).
  - rewrite (pattern_test_true "gr") by done. split.
    + intros (str & H0 & Hs). exists xs, str. split; [by right|done].
    + intros (xs' & str & [?|[= <-]] & H0 & Hs); [done|]. by exists str.
  - rewrite (pattern_test_true "gr") by done. split.
    + intros (str & H0 & Hs). exists xs, str. split; [by left|done].
    + intros (xs' & str & [[= <-]|?] & H0 & Hs); [|done]. by exists str.
Qed.

Lemma is_hyperopt_true (x : PyVal) :
  is_hyperopt x = Val true <->
  exists xs str,
    (x = PTuple xs \/ x = PList xs) /\
    xs !! 0%nat = Some (PStr str) /\
    (str = "hp" \/ exists rest, str = "hp_" +:+ rest).
Proof.
  destruct x; simpl;
    try (split; [discriminate|by intros (xs' & str & [?|?] & _)]).
  - rewrite (pattern_test_true "hp") by done. split.
    + intros (str & H0 & Hs). exists xs, str. split; [by right|done].
    + intros (xs' & str & [?|[= <-]] & H0 & Hs); [done|]. by exists str.
  - rewrite (pattern_test_true "hp") by done. split.
    + intros (str & H0 & Hs). exists xs, str. split; [by left|done].
    + intros (xs' & str & [[= <-]|?] & H0 & Hs); [|done]. by exists str.
Qed.

(** The tests fail on an empty sequence and on nothing else. *)
Lemma pattern_test_fails (tag : string) (xs : list PyVal) (e : Error) :
  pattern_test tag xs = Exn e <-> xs = [] /\ e = IndexError.
Proof.
  destruct xs as [|x0 rest]; simpl.
  - split; [by intros [= <-]|by intros [_ ->]].
  - split; [|by intros [? _]].
    destruct x0; try discriminate. simpl.
    destruct (split_once_cases s) as [->|(h & t & -> & _)]; simpl;
      by match goal with |- context [String.eqb ?a ?b] => destruct (String.eqb a b) end.
Qed.

(** X19.  What the two pattern tests accept: a tuple or list whose first
    element is a string that is the tag ('gr', 'hp') or starts with the
    tag and an underscore.  They raise on an empty sequence (IndexError)
    and on nothing else, and no value is both a grid and a hyperopt
    pattern. *)
Theorem patterns_read_the_tag (x : PyVal) :
  (is_grid x = Val true <->
   exists xs str,
     (x = PTuple xs \/ x = PList xs) /\
     xs !! 0%nat = Some (PStr str) /\
     (str = "gr" \/ exists rest, str = "gr_" +:+ rest)) /\
  (is_hyperopt x = Val true <->
   exists xs str,
     (x = PTuple xs \/ x = PList xs) /\
     xs !! 0%nat = Some (PStr str) /\
     (str = "hp" \/ exists rest, str = "hp_" +:+ rest)) /\
  (forall e, is_grid x = Exn e <-> (x = PTuple [] \/ x = PList []) /\ e = IndexError) /\
  (forall e, is_hyperopt x = Exn e <-> is_grid x = Exn e) /\
  ~ (is_grid x = Val true /\ is_hyperopt x = Val true).
Proof.
  split; [apply is_grid_true|]. split; [apply is_hyperopt_true|].
  assert (forall e, is_grid x = Exn e <->
            (x = PTuple [] \/ x = PList []) /\ e = IndexError) as Hg.
  { intros e. destruct x; simpl; try (split; [discriminate|by intros [[?|?] _]]).
    - rewrite (pattern_test_fails "gr"). split.
      + intros [-> ->]. split; [by right|done].
      + intros [[?|[= ->]] ->]; done.
    - rewrite (pattern_test_fails "gr"). split.
      + intros [-> ->]. split; [by left|done].
      + intros [[[= ->]|?] ->]; done. }
  split; [exact Hg|]. split.
  - intros e. rewrite Hg.
    destruct x; simpl; try (split; [discriminate|by intros [[?|?] _]]).
    + rewrite (pattern_test_fails "hp"). split.
      * intros [-> ->]. split; [by right|done].
      * intros [[?|[= ->]] ->]; done.
    + rewrite (pattern_test_fails "hp"). split.
      * intros [-> ->]. split; [by left|done].
      * intros [[[= ->]|?] ->]; done.
  - intros [Hgr Hhp].
    apply is_grid_true in Hgr as (xs & str & Hx & H0 & Hstr).
    apply is_hyperopt_true in Hhp as (xs' & str' & Hx' & H0' & Hstr').
    assert (xs' = xs) as ->.
    { destruct Hx as [-> | ->], Hx' as [Heq|Heq]; congruence. }
    rewrite H0 in H0'. injection H0' as <-.
    destruct Hstr as [->|[rest ->]], Hstr' as [Heq|[rest' Heq]]; discriminate.
Qed.

(** X20.  What [to_grid] does with a value that [is_grid] accepts.  The
    tag alone is accepted and then fails with an IndexError, since there
    is no name to look up.  Otherwise the name is all that follows the
    first underscore, and the grid function of that name is called with
    the remaining elements; a name the grid module does not have raises
    NotImplementedError. *)
Theorem to_grid_after_is_grid (x : PyVal) :
  is_grid x = Val true ->
  exists str,
    subscript0 x = Val (PStr str) /\
    ((str = "gr" /\ to_grid x = Exn IndexError) \/
     exists nm,
       str = "gr_" +:+ nm /\
       to_grid x =
         match gr nm with
         | Some f => f (slice1 x)
         | None =>
             Exn (NotImplementedError
                    ("Grid named " +:+ nm +:+ " is not (yet) implemented!"))
         end).
Proof.
  intros Hx. apply is_grid_true in Hx as (xs & str & Hx & H0 & Hstr).
  exists str.
  assert (subscript0 x = Val (PStr str)) as Hsub.
  { destruct Hx as [-> | ->]; simpl; unfold index; by rewrite H0. }
  split; [done|]. unfold Parse.to_grid. rewrite Hsub. simpl.
  destruct Hstr as [->|[nm ->]]; [by left|].
  right. by exists nm.
Qed.

(** X21.  The same for [to_hyperopt]: 'hp' alone is accepted by
    [is_hyperopt] and then fails with an IndexError; otherwise the
    hyperopt function named after the first underscore is called with the
    remaining elements, the label first, and a name hyperopt does not have
    raises NotImplementedError. *)
Theorem to_hyperopt_after_is_hyperopt (x : PyVal) :
  is_hyperopt x = Val true ->
  exists str,
    subscript0 x = Val (PStr str) /\
    ((str = "hp" /\ to_hyperopt x = Exn IndexError) \/
     exists nm,
       str = "hp_" +:+ nm /\
       to_hyperopt x =
         match hp nm with
         | Some f => f (slice1 x)
         | None =>
             Exn (NotImplementedError
                    ("Hyperopt can't find function named " +:+ nm +:+ "!"))
         end).
Proof.
  intros Hx. apply is_hyperopt_true in Hx as (xs & str & Hx & H0 & Hstr).
  exists str.
  assert (subscript0 x = Val (PStr str)) as Hsub.
  { destruct Hx as [-> | ->]; simpl; unfold index; by rewrite H0. }
  split; [done|]. unfold Parse.to_hyperopt. rewrite Hsub. simpl.
  destruct Hstr as [->|[nm ->]]; [by left|].
  right. by exists nm.
Qed.

End ParseFacts.

(** ** [cmlkit.model_spec]: defaults, tuples and the round trip *)

Section Dictionaries.

Import Py.

Implicit Types (d items : list (string * PyVal)) (k : string) (v : PyVal).

Lemma PyVal_nested_ind (P : PyVal -> Prop) :
  P PNone -> (forall b, P (PBool b)) -> (forall n, P (PInt n)) ->
  (forall m e, P (PFloat m e)) -> (forall s, P (PStr s)) ->
  (forall xs, P (PList xs)) -> (forall xs, P (PTuple xs)) ->
  (forall items, Forall (fun kv => P (snd kv)) items -> P (PDict items)) ->
  (forall items, Forall (fun kv => P (snd kv)) items -> P (PSON items)) ->
  forall v, P v.
Proof.
  intros HN HB HI HF HS HL HT HD HO.
  fix IH 1.
  intros [|b|n|m e|s|xs|xs|items|items];
    [apply HN|apply HB|apply HI|apply HF|apply HS|apply HL|apply HT| |].
  - apply HD. induction items as [|[k x] rest IHr]; constructor; [apply IH|apply IHr].
  - apply HO. induction items as [|[k x] rest IHr]; constructor; [apply IH|apply IHr].
Qed.

Lemma setitem_keys_in d k v :
  k ∈ map fst d -> map fst (setitem d k v) = map fst d.
Proof.
  induction d as [|[k' v'] rest IH]; simpl; [by intros ?%elem_of_nil|].
  destruct (String.eqb k' k) eqn:E; [done|].
  apply String.eqb_neq in E. intros Hin. simpl. f_equal. apply IH.
  apply elem_of_cons in Hin as [?|?]; [congruence|done].
Qed.

Lemma setitem_fresh d k v :
  k ∉ map fst d -> setitem d k v = d ++ [(k, v)].
Proof.
  induction d as [|[k' v'] rest IH]; simpl; [done|].
  intros Hnin. apply not_elem_of_cons in Hnin as [Hne Hnin].
  destruct (String.eqb k' k) eqn:E; [apply String.eqb_eq in E; congruence|].
  by rewrite IH.
Qed.

Lemma setitem_replace d1 d2 k v w :
  k ∉ map fst d1 ->
  setitem (d1 ++ (k, w) :: d2) k v = d1 ++ (k, v) :: d2.
Proof.
  induction d1 as [|[k' v'] rest IH]; simpl.
  - by rewrite String.eqb_refl.
  - intros Hnin. apply not_elem_of_cons in Hnin as [Hne Hnin].
    destruct (String.eqb k' k) eqn:E; [apply String.eqb_eq in E; congruence|].
    by rewrite IH.
Qed.

Lemma setitem_keys d k v :
  map fst (setitem d k v) = map fst d \/
  ((k ∉ map fst d) /\ setitem d k v = d ++ [(k, v)]).
Proof.
  destruct (decide (k ∈ map fst d)) as [Hin|Hnin].
  - left. by apply setitem_keys_in.
  - right. split; [done|]. by apply setitem_fresh.
Qed.

Lemma setitem_NoDup d k v :
  NoDup (map fst d) -> NoDup (map fst (setitem d k v)).
Proof.
  intros Hd. destruct (setitem_keys d k v) as [->|[Hnin ->]]; [done|].
  rewrite map_app. simpl. apply NoDup_app. split; [done|].
  split; [|apply NoDup_singleton].
  intros x Hx ->%list_elem_of_singleton. done.
Qed.

Lemma setitem_values (Q : PyVal -> Prop) d k v :
  Forall (fun kv => Q (snd kv)) d -> Q v ->
  Forall (fun kv => Q (snd kv)) (setitem d k v).
Proof.
  intros Hd Hv. induction Hd as [|[k' v'] rest Hx Hrest IH]; simpl.
  - by constructor.
  - destruct (String.eqb k' k); constructor; done.
Qed.

Lemma lookup_setitem d k v k' :
  lookup_item (setitem d k v) k' = if String.eqb k k' then Some v else lookup_item d k'.
Proof.
  induction d as [|[k0 v0] rest IH]; simpl.
  - done.
  - destruct (String.eqb k0 k) eqn:E; simpl.
    + apply String.eqb_eq in E as ->. by destruct (String.eqb k k').
    + rewrite IH. destruct (String.eqb k0 k') eqn:E'; [|done].
      apply String.eqb_eq in E' as ->. rewrite String.eqb_sym. by rewrite E.
Qed.

Lemma update_snoc d items k v :
  update d (items ++ [(k, v)]) = setitem (update d items) k v.
Proof. unfold update. by rewrite fold_left_app. Qed.

Lemma update_NoDup d items :
  NoDup (map fst d) -> NoDup (map fst (update d items)).
Proof.
  revert d. induction items as [|[k v] rest IH]; intros d Hd; simpl; [done|].
  apply IH. by apply setitem_NoDup.
Qed.

Lemma update_values (Q : PyVal -> Prop) d items :
  Forall (fun kv => Q (snd kv)) d ->
  Forall (fun kv => Q (snd kv)) items ->
  Forall (fun kv => Q (snd kv)) (update d items).
Proof.
  intros Hd Hi. revert d Hd.
  induction Hi as [|[k v] rest Hx Hrest IH]; intros d Hd; simpl; [done|].
  apply IH. by apply setitem_values.
Qed.

(** Where the keys of [d.update(items)] stand: those of [d] first, in
    their places. *)
Lemma update_split d items :
  exists a b, update d items = a ++ b /\ map fst a = map fst d.
Proof.
  revert d. induction items as [|[k v] rest IH]; intros d; simpl.
  - exists d, []. by rewrite app_nil_r.
  - destruct (IH (setitem d k v)) as (a & b & Heq & Hkeys).
    destruct (setitem_keys d k v) as [Hk|[_ Hk]].
    + exists a, b. split; [done|]. by rewrite Hkeys.
    + rewrite Hk, map_app in Hkeys. simpl in Hkeys.
      destruct (decide (a = [])) as [->|Hne].
      { by destruct (map fst d). }
      destruct (exists_last Hne) as (a' & [k' x] & ->).
      rewrite map_app in Hkeys. simpl in Hkeys.
      apply app_inj_tail in Hkeys as [Hkeys _].
      exists a', ((k', x) :: b). split; [|done].
      by rewrite Heq, <- app_assoc.
Qed.

(** The binding of a key after [d.update(items)], for items with
    distinct keys. *)
Lemma lookup_update d items k :
  NoDup (map fst items) ->
  lookup_item (update d items) k =
    match lookup_item items k with
    | Some v => Some v
    | None => lookup_item d k
    end.
Proof.
  revert d. induction items as [|[k' v'] rest IH]; intros d Hnd; simpl; [done|].
  simpl in Hnd. apply NoDup_cons in Hnd as [Hnin Hnd].
  change (update d ((k', v') :: rest)) with (update (setitem d k' v') rest).
  rewrite (IH _ Hnd), lookup_setitem.
  destruct (String.eqb k' k) eqn:E; [|done].
  apply String.eqb_eq in E as <-.
  assert (lookup_item rest k' = None) as ->; [|done].
  clear -Hnin. induction rest as [|[k0 v0] rest IH]; simpl; [done|].
  simpl in Hnin. apply not_elem_of_cons in Hnin as [Hne Hnin].
  destruct (String.eqb k0 k') eqn:E; [apply String.eqb_eq in E; congruence|].
  by apply IH.
Qed.

(** Updating with items whose keys are those of [d], in the same
    order, gives the items. *)
Lemma update_same_keys d0 d a :
  map fst a = map fst d ->
  NoDup (map fst (d0 ++ a)) ->
  update (d0 ++ d) a = d0 ++ a.
Proof.
  revert d0 d. induction a as [|[k v] a IH]; intros d0 d Hkeys Hnd.
  - destruct d; [done|discriminate].
  - destruct d as [|[k' w] d]; [discriminate|].
    simpl in Hkeys. injection Hkeys as <- Hkeys.
    change (update (d0 ++ (k, w) :: d) ((k, v) :: a))
      with (update (setitem (d0 ++ (k, w) :: d) k v) a).
    rewrite setitem_replace.
    + rewrite (cons_middle _ d0 d), app_assoc, (IH _ _ Hkeys).
      * by rewrite <- app_assoc.
      * by rewrite <- app_assoc.
    + rewrite map_app in Hnd. apply NoDup_app in Hnd as (_ & Hdis & _).
      intros Hin. apply (Hdis _ Hin). simpl. left.
Qed.

(** Updating with items whose keys are new adds them at the end. *)
Lemma update_new_keys d b :
  NoDup (map fst (d ++ b)) -> update d b = d ++ b.
Proof.
  revert d. induction b as [|[k v] b IH]; intros d Hnd.
  - by rewrite app_nil_r.
  - change (update d ((k, v) :: b)) with (update (setitem d k v) b).
    rewrite setitem_fresh.
    + rewrite IH; by rewrite <- app_assoc.
    + rewrite map_app in Hnd. apply NoDup_app in Hnd as (_ & Hdis & _).
      intros Hin. apply (Hdis _ Hin). simpl. left.
Qed.

(** Merging the same defaults in a second time changes nothing. *)
Lemma merged_again a b :
  NoDup (map fst a) -> merged a (merged a b) = merged a b.
Proof.
  intros Hnd. unfold merged.
  assert (update [] a = a) as ->.
  { apply (update_new_keys [] a). by rewrite app_nil_l. }
  destruct (update_split a b) as (a' & b' & Heq & Hkeys).
  pose proof (update_NoDup a b Hnd) as Hnd'.
  rewrite Heq in Hnd' |- *.
  unfold update at 1. rewrite fold_left_app. fold (update a a').
  assert (update a a' = a') as ->.
  { apply (update_same_keys [] a a' Hkeys). simpl.
    rewrite map_app in Hnd'. by apply NoDup_app in Hnd' as (? & _). }
  fold (update a' b'). by apply update_new_keys.
Qed.

End Dictionaries.

Section ModelSpecFacts.

Import Py ModelSpecs.

Variable hash_sortable_dict : PyVal -> string.
Variable to_plain_dict : list (string * PyVal) -> list (string * PyVal).

#[local] Abbreviation init := (init hash_sortable_dict).
#[local] Abbreviation plain := (plain to_plain_dict).
#[local] Abbreviation convert_from_SON := (convert_from_SON to_plain_dict).
#[local] Abbreviation from_dict := (from_dict hash_sortable_dict to_plain_dict).
#[local] Abbreviation own_hashes := (own_hashes hash_sortable_dict).

Implicit Types (d v : PyVal) (items : list (string * PyVal)) (k : string).

Lemma map_values_fixed (F : PyVal -> PyVal) items :
  map (fun kv => (fst kv, F (snd kv))) items = items <->
  Forall (fun kv => F (snd kv) = snd kv) items.
Proof.
  induction items as [|[k v] rest IH]; simpl.
  - split; [constructor|done].
  - split.
    + intros [= Hv Hrest]. constructor; [done|by apply IH].
    + intros [Hv Hrest]%Forall_cons. simpl in Hv. rewrite Hv. f_equal. by apply IH.
Qed.

Lemma lookup_item_map (F : PyVal -> PyVal) items k :
  lookup_item (map (fun kv => (fst kv, F (snd kv))) items) k
    = F <$> lookup_item items k.
Proof.
  induction items as [|[k' v] rest IH]; simpl; [done|].
  by destruct (String.eqb k' k).
Qed.

Lemma lookup_item_Forall (Q : PyVal -> Prop) items k v :
  Forall (fun kv => Q (snd kv)) items -> lookup_item items k = Some v -> Q v.
Proof.
  intros Hall. induction Hall as [|[k' v'] rest Hx Hrest IH]; simpl; [done|].
  destruct (String.eqb k' k); [by intros [= <-]|done].
Qed.

Lemma tupled_idem v : tupled (tupled v) = tupled v.
Proof.
  induction v as [| | | | | | |items IH|items IH] using PyVal_nested_ind;
    simpl; try done.
  - f_equal. rewrite map_map. simpl.
    induction IH as [|[k v] rest Hv Hrest IHr]; simpl; [done|].
    simpl in Hv. by rewrite Hv, IHr.
  - f_equal. rewrite map_map. simpl.
    induction IH as [|[k v] rest Hv Hrest IHr]; simpl; [done|].
    simpl in Hv. by rewrite Hv, IHr.
Qed.

(** X22.  [convert_to_tuple] goes through dictionaries only.  After the
    call the dictionary has the same keys in the same order; a list that
    was the value of a key is a tuple of the same elements, so lists and
    dictionaries inside it are as they were, and so is everything inside a
    tuple; a dictionary that was the value of a key has been converted in
    the same way; and a second call changes nothing. *)
Theorem convert_to_tuple_through_dicts_only d (d' : PyVal) :
  convert_to_tuple d = Val d' ->
  convert_to_tuple d' = Val d' /\
  exists items items',
    items_of d = Val items /\
    items_of d' = Val items' /\
    map fst items' = map fst items /\
    (forall k xs, lookup_item items k = Some (PList xs) ->
       lookup_item items' k = Some (PTuple xs)) /\
    (forall k xs, lookup_item items k = Some (PTuple xs) ->
       lookup_item items' k = Some (PTuple xs)) /\
    (forall k sub, lookup_item items k = Some (PDict sub) ->
       exists sub',
         convert_to_tuple (PDict sub) = Val sub' /\
         lookup_item items' k = Some sub').
Proof.
  intros Hd.
  assert (exists items, items_of d = Val items /\
            items_of d' = Val (map (fun kv => (fst kv, tupled (snd kv))) items) /\
            convert_to_tuple d' = Val d') as (items & Hi & Hi' & Hidem).
  { destruct d; try discriminate; injection Hd as <-;
      exists items; (split; [done|]); (split; [done|]);
      unfold convert_to_tuple; simpl; do 2 f_equal;
      rewrite map_map; simpl; apply map_ext; intros [k v]; simpl;
      by rewrite tupled_idem. }
  split; [done|].
  exists items, (map (fun kv => (fst kv, tupled (snd kv))) items).
  split; [done|]. split; [done|]. split; [by rewrite map_map|].
  split; [|split].
  - intros k xs Hk. by rewrite lookup_item_map, Hk.
  - intros k xs Hk. by rewrite lookup_item_map, Hk.
  - intros k sub Hk. eexists. split; [reflexivity|].
    by rewrite lookup_item_map, Hk.
Qed.

(** What the loop of [__init__] builds. *)
Lemma add_defaults_inv items (acc ms : list (string * PyVal)) :
  add_defaults items acc = Val ms ->
  exists items',
    Forall2 (fun kv kv' => fst kv' = fst kv /\ with_defaults (snd kv) = Val (snd kv'))
      items items' /\
    ms = update acc items'.
Proof.
  revert acc. induction items as [|[k v] rest IH]; intros acc; simpl.
  - intros [= <-]. exists []. split; [constructor|done].
  - destruct (with_defaults v) as [w|e] eqn:Hw; [|discriminate]. simpl.
    intros Hrest. destruct (IH _ Hrest) as (items' & Hall & ->).
    exists ((k, w) :: items'). split; [|done]. by constructor.
Qed.

Lemma with_defaults_inv v (w : PyVal) :
  with_defaults v = Val w ->
  exists ps, items_of v = Val ps /\ w = PDict (merged mbtr_defaults ps).
Proof. destruct v; try discriminate; intros [= <-]; by eexists. Qed.

Lemma defaults_NoDup : NoDup (map fst mbtr_defaults).
Proof. apply (bool_decide_unpack _). by vm_compute. Qed.

Lemma merged_defaults ps : merged mbtr_defaults ps = update mbtr_defaults ps.
Proof. done. Qed.

Lemma Forall2_keys items (items' : list (string * PyVal)) (R : PyVal -> PyVal -> Prop) :
  Forall2 (fun kv kv' => fst kv' = fst kv /\ R (snd kv) (snd kv')) items items' ->
  map fst items' = map fst items.
Proof.
  induction 1 as [|[k v] [k' v'] rest rest' [Hk _] _ IH]; simpl; [done|].
  simpl in Hk. by rewrite Hk, IH.
Qed.

Lemma Forall2_lookup_item items (items' : list (string * PyVal))
    (R : PyVal -> PyVal -> Prop) k v :
  Forall2 (fun kv kv' => fst kv' = fst kv /\ R (snd kv) (snd kv')) items items' ->
  lookup_item items k = Some v ->
  exists v', lookup_item items' k = Some v' /\ R v v'.
Proof.
  induction 1 as [|[k0 v0] [k' v'] rest rest' [Hk Hv] _ IH]; simpl; [done|].
  simpl in Hk, Hv. subst k'.
  destruct (String.eqb k0 k); [|done].
  intros [= <-]. by exists v'.
Qed.

(** X23.  [ModelSpec.__init__] lays the parameters of every MBTR over the
    defaults: the specification keeps the names of the MBTRs in their
    order, and the parameters stored under a name begin with the five
    default keys in their order and hold, for every key, the given
    parameter if there is one and the default otherwise. *)
Theorem init_lays_params_over_defaults (nm de da krr : PyVal) items
    (s : ModelSpec) (mbtr : string) (params : list (string * PyVal)) :
  init nm de da (PDict items) krr = Val s ->
  NoDup (map fst items) ->
  NoDup (map fst params) ->
  lookup_item items mbtr = Some (PDict params) ->
  exists ms ps,
    mbtrs s = PDict ms /\
    map fst ms = map fst items /\
    lookup_item ms mbtr = Some (PDict ps) /\
    take 5 (map fst ps) = map fst mbtr_defaults /\
    forall k,
      lookup_item ps k =
        match lookup_item params k with
        | Some v => Some v
        | None => lookup_item mbtr_defaults k
        end.
Proof.
  unfold ModelSpecs.init. simpl. intros Hinit Hnd Hndp Hmbtr.
  destruct (add_defaults items []) as [ms|e] eqn:Hadd; [|discriminate].
  injection Hinit as <-. simpl.
  apply add_defaults_inv in Hadd as (items' & Hall & ->).
  pose proof (Forall2_keys _ _ (fun v w => with_defaults v = Val w) Hall) as Hkeys.
  rewrite (update_new_keys [] items') by (simpl; by rewrite Hkeys).
  simpl.
  destruct (Forall2_lookup_item _ _ (fun v w => with_defaults v = Val w)
              mbtr _ Hall Hmbtr) as (w & Hw & Hdef).
  injection Hdef as <-.
  exists items', (merged mbtr_defaults params).
  split; [done|]. split; [done|]. split; [done|]. split.
  - rewrite merged_defaults.
    destruct (update_split mbtr_defaults params) as (a & b & -> & Ha).
    rewrite map_app, take_app_length'; [done|].
    by rewrite Ha.
  - intros k. rewrite merged_defaults. by apply lookup_update.
Qed.

(** A value that neither [convert_from_SON] nor [convert_to_tuple]
    changes. *)
#[local] Abbreviation settled v := (plain v = v /\ tupled v = v).

Section RoundTrip.

(** [SON.to_dict] is recursive: what it returns holds no SON where
    [convert_from_SON] would look for one. *)
Hypothesis to_dict_is_plain : forall items,
  plain (PDict (to_plain_dict items)) = PDict (to_plain_dict items).

Lemma plain_idem v : plain (plain v) = plain v.
Proof.
  induction v as [| | | | | | |items IH|items IH] using PyVal_nested_ind;
    simpl; try done.
  - f_equal. rewrite map_map. simpl.
    induction IH as [|[k v] rest Hv Hrest IHr]; simpl; [done|].
    simpl in Hv. by rewrite Hv, IHr.
  - apply to_dict_is_plain.
Qed.

Lemma plain_tupled v : plain v = v -> plain (tupled v) = tupled v.
Proof.
  induction v as [| | | | | | |items IH|items IH] using PyVal_nested_ind;
    simpl; try done.
  intros [= Hfix]. f_equal. rewrite map_map. simpl.
  apply map_values_fixed in Hfix.
  induction IH as [|[k v] rest Hv Hrest IHr]; simpl; [done|].
  apply Forall_cons in Hfix as [Hk Hfix]. simpl in Hv, Hk.
  by rewrite (Hv Hk), (IHr Hfix).
Qed.

Lemma settled_dict items :
  settled (PDict items) <-> Forall (fun kv => settled (snd kv)) items.
Proof.
  simpl. split.
  - intros [[= Hp] [= Ht]].
    apply map_values_fixed in Hp. apply map_values_fixed in Ht.
    apply Forall_and. done.
  - intros [Hp Ht]%Forall_and.
    apply (map_values_fixed plain) in Hp. apply (map_values_fixed tupled) in Ht.
    by rewrite Hp, Ht.
Qed.

Lemma settled_items v ps :
  settled v -> items_of v = Val ps ->
  v = PDict ps /\ Forall (fun kv => settled (snd kv)) ps.
Proof.
  destruct v; try discriminate.
  - intros Hs [= <-]. split; [done|]. by apply settled_dict.
  - by intros [Hp _].
Qed.

Lemma settled_lookup items k v :
  Forall (fun kv => settled (snd kv)) items ->
  lookup_item items k = Some v -> settled v.
Proof. apply (lookup_item_Forall (fun v => settled v)). Qed.

Lemma defaults_settled : Forall (fun kv => settled (snd kv)) mbtr_defaults.
Proof. repeat constructor. Qed.

(** What [from_dict] hands to [__init__]. *)
Lemma from_dict_inv d (s : ModelSpec) :
  from_dict d = Val s ->
  exists items nm de da mb kr,
    Forall (fun kv => settled (snd kv)) items /\
    lookup_item items "name" = Some nm /\
    lookup_item items "desc" = Some de /\
    lookup_item items "data" = Some da /\
    lookup_item items "mbtrs" = Some mb /\
    lookup_item items "krr" = Some kr /\
    init nm de da mb kr = Val s.
Proof.
  unfold ModelSpecs.from_dict. intros Hs.
  assert (exists i1, convert_from_SON d = Val (PDict i1) /\
            plain (PDict i1) = PDict i1) as (i1 & Hc & Hi1).
  { destruct d; try discriminate; simpl.
    - eexists. split; [reflexivity|]. simpl. f_equal.
      rewrite map_map. simpl. apply map_ext. intros [k v]. simpl.
      by rewrite plain_idem.
    - eexists. split; [reflexivity|]. apply to_dict_is_plain. }
  rewrite Hc in Hs. simpl in Hs.
  set (items := map (fun kv => (fst kv, tupled (snd kv))) i1) in *.
  assert (Forall (fun kv => settled (snd kv)) items) as Hall.
  { apply settled_dict. split.
    - apply (plain_tupled (PDict i1) Hi1).
    - apply (tupled_idem (PDict i1)). }
  exists items.
  destruct (lookup_item items "name") as [nm|]; [|discriminate].
  destruct (lookup_item items "desc") as [de|]; [|discriminate].
  destruct (lookup_item items "data") as [da|]; [|discriminate].
  destruct (lookup_item items "mbtrs") as [mb|]; [|discriminate].
  destruct (lookup_item items "krr") as [kr|]; [|discriminate].
  simpl in Hs. by exists nm, de, da, mb, kr.
Qed.

Lemma add_defaults_fixed items (acc : list (string * PyVal)) :
  Forall (fun kv => with_defaults (snd kv) = Val (snd kv)) items ->
  add_defaults items acc = Val (update acc items).
Proof.
  intros Hall. revert acc.
  induction Hall as [|[k v] rest Hv Hrest IH]; intros acc; simpl; [done|].
  simpl in Hv. rewrite Hv. simpl. apply IH.
Qed.

(** X24.  Saving and loading again gives the same specification: for a
    specification [s] made by [from_dict], [from_dict(s.to_dict())] has
    the same name, description, data, MBTRs and KRR and the same version.
    Its hashes are those of the attributes of [s], so the hash of the
    MBTRs is now taken with the defaults filled in. *)
Theorem from_dict_to_dict_round_trip d (s : ModelSpec) :
  from_dict d = Val s ->
  exists s',
    from_dict (to_dict s) = Val s' /\
    to_dict s' = to_dict s /\
    spec_version s' = spec_version s /\
    hashes s' = own_hashes s.
Proof.
  intros Hs.
  apply from_dict_inv in Hs
    as (items & nm & de & da & mb & kr & Hall & Hnm & Hde & Hda & Hmb & Hkr & Hinit).
  destruct (settled_lookup _ _ _ Hall Hnm) as [Hnm1 Hnm2].
  destruct (settled_lookup _ _ _ Hall Hde) as [Hde1 Hde2].
  destruct (settled_lookup _ _ _ Hall Hda) as [Hda1 Hda2].
  destruct (settled_lookup _ _ _ Hall Hkr) as [Hkr1 Hkr2].
  pose proof (settled_lookup _ _ _ Hall Hmb) as Hmbs.
  unfold ModelSpecs.init in Hinit.
  destruct (items_of mb) as [mitems|e] eqn:Hitems; [|discriminate].
  destruct (settled_items _ _ Hmbs Hitems) as [-> Hmitems].
  simpl in Hinit.
  destruct (add_defaults mitems []) as [ms|e] eqn:Hadd; [|discriminate].
  injection Hinit as <-.
  apply add_defaults_inv in Hadd as (items' & Hall' & ->).
  set (ms := update [] items').
  assert (Forall (fun kv => exists ps,
                    Forall (fun kv' => settled (snd kv')) ps /\
                    snd kv = PDict (merged mbtr_defaults ps)) items') as Hshape.
  { clear -Hall' Hmitems to_dict_is_plain.
    induction Hall' as [|[k v] [k' w] rest rest' [_ Hw] _ IH]; [constructor|].
    apply Forall_cons in Hmitems as [Hv Hrest]. simpl in Hv, Hw.
    constructor; [|by apply IH]. simpl.
    apply with_defaults_inv in Hw as (ps & Hps & ->).
    exists ps. split; [|done]. by apply (settled_items v). }
  assert (Forall (fun kv => exists ps,
                    Forall (fun kv' => settled (snd kv')) ps /\
                    snd kv = PDict (merged mbtr_defaults ps)) ms) as Hms.
  { apply (update_values
             (fun w => exists ps,
                Forall (fun kv' => settled (snd kv')) ps /\
                w = PDict (merged mbtr_defaults ps)) [] items');
      [constructor|exact Hshape]. }
  assert (Forall (fun kv => settled (snd kv)) ms) as Hsettled.
  { eapply Forall_impl; [exact Hms|]. intros [k w] (ps & Hps & ->).
    apply settled_dict. rewrite merged_defaults.
    apply (update_values (fun v => settled v)); [apply defaults_settled|done]. }
  assert (add_defaults ms [] = Val ms) as Hagain.
  { rewrite add_defaults_fixed.
    - f_equal. apply (update_new_keys [] ms). simpl.
      apply (update_NoDup [] items'). constructor.
    - eapply Forall_impl; [exact Hms|]. intros [k w] (ps & _ & ->). simpl.
      by rewrite (merged_again _ _ defaults_NoDup). }
  apply settled_dict in Hsettled as [Hms1 Hms2].
  eexists. split.
  - unfold ModelSpecs.from_dict, to_dict. simpl.
    rewrite Hnm1, Hde1, Hda1, Hkr1, Hnm2, Hde2, Hda2, Hkr2.
    injection Hms1 as Hms1. injection Hms2 as Hms2. rewrite Hms1, Hms2.
    unfold ModelSpecs.init. simpl. rewrite Hagain. simpl. reflexivity.
  - done.
Qed.

End RoundTrip.

End ModelSpecFacts.

(** ** The properties at sample inputs *)

(** The tape and the second suggestion of the sample run. *)
Lemma plain_files_hold_plain_ranking_witness :
  Tune.files (Tune.write_results Tune.sample_top Tune.sample_refined
                Tune.sample_attrs (Tune.l_state Tune.sample_third) Tune.sample_disk)
    !! (["run_run-0a1b"] ++ ["tape"])
    = Some (Tune.TapeFile (Tune.tape (Tune.l_state Tune.sample_third))) /\
  Tune.files (Tune.write_results Tune.sample_top Tune.sample_refined
                Tune.sample_attrs (Tune.l_state Tune.sample_third) Tune.sample_disk)
    !! (["run_run-0a1b"] ++ ["suggestion-" +:+ pretty 1%nat])
    = Some (Tune.YamlFile Tune.cfg_b).
Proof.
  destruct (plain_files_hold_plain_ranking Tune.sample_top Tune.sample_refined
              Tune.sample_attrs (Tune.l_state Tune.sample_third) Tune.sample_disk)
    as [Htape Hranking].
  split; [exact Htape|]. apply Hranking. reflexivity.
Defined.

(** C9 at concrete inputs: four calls with the identity as hash; a call
    of 1 after calls of 1 and 2, which finds its entry; and, at capacity
    one, the calls 1 and 2, after which the entry of 2 is in the cache. *)
Lemma memcached_refines_witness :
  fst (Caching.calls (fun a : nat => a) (fun a => (a * a)%nat)
         (Caching.init 2) [1; 2; 1; 3]%nat) = [1; 4; 1; 9]%nat /\
  fst (Caching.call (fun a : nat => a) (fun a => (a * a)%nat)
         (Caching.after (fun a : nat => a) (fun a => (a * a)%nat) 2 [1; 2]%nat)
         1%nat) = 1%nat /\
  exists it,
    Caching.dict_get
      (Caching.cache (Caching.after (fun a : nat => a) (fun a => (a * a)%nat) 1
                        ([1%nat] ++ [2%nat]))) 2%nat = Some it /\
    snd it = fst (Caching.call (fun a : nat => a) (fun a => (a * a)%nat)
                    (Caching.after (fun a : nat => a) (fun a => (a * a)%nat) 1
                       [1%nat]) 2%nat) /\
    fst (Caching.call (fun a : nat => a) (fun a => (a * a)%nat)
           (Caching.after (fun a : nat => a) (fun a => (a * a)%nat) 1
              ([1%nat] ++ [2%nat])) 2%nat)
      = fst (Caching.call (fun a : nat => a) (fun a => (a * a)%nat)
               (Caching.after (fun a : nat => a) (fun a => (a * a)%nat) 1
                  [1%nat]) 2%nat) /\
    Caching.invoked
      (snd (Caching.call (fun a : nat => a) (fun a => (a * a)%nat)
              (Caching.after (fun a : nat => a) (fun a => (a * a)%nat) 1
                 ([1%nat] ++ [2%nat])) 2%nat))
      = Caching.invoked
          (Caching.after (fun a : nat => a) (fun a => (a * a)%nat) 1
             ([1%nat] ++ [2%nat])).
Proof.
  split; [|split].
  - apply (proj1 (memcached_refines (fun a : nat => a) (fun a => (a * a)%nat)
                    2 [1; 2; 1; 3]%nat)).
    intros a b _ _ Hab. exact Hab.
  - refine (proj1 (proj1 (proj2 (memcached_refines (fun a : nat => a)
                                   (fun a => (a * a)%nat) 2 [1; 2]%nat))
                     1%nat (0, 1%nat) _)).
    reflexivity.
  - apply (proj2 (proj2 (memcached_refines (fun a : nat => a)
                           (fun a => (a * a)%nat) 1 [1%nat]))).
    lia.
Defined.

(** The claim at a hash that sends every argument to the same key: the
    calls of 2 and 3 find the entry of 1 and return its value, not
    theirs. *)
Lemma colliding_keys_return_a_stale_value :
  fst (Caching.calls (fun _ : nat => 0%nat) (fun a : nat => a)
         (Caching.init 2) [1; 2; 3]%nat) = [1; 1; 1]%nat /\
  map (fun a : nat => a) [1; 2; 3]%nat = [1; 2; 3]%nat.
Proof. split; reflexivity. Qed.

(** Capacity two and the sample function, which raises at the second of
    four calls: four calls, three misses and one hit, three invocations,
    and a clock of three. *)
Lemma memcached_statistics_witness :
  let m := CachingOps.try_steps (fun a : nat => a) CachingOps.sample_square 2
             [CachingOps.Call 1%nat; CachingOps.Call 2%nat;
              CachingOps.Call 1%nat; CachingOps.Call 3%nat] in
  Caching.total_hits m + Caching.total_misses m = 4 /\
  Caching.lruc m = 3 /\
  Caching.total_misses m = 3 /\
  length (Caching.invoked m) = 3%nat /\
  CachingOps.raised (fun a : nat => a) CachingOps.sample_square
    (CachingOps.make_memcached 2)
    [CachingOps.Call 1%nat; CachingOps.Call 2%nat;
     CachingOps.Call 1%nat; CachingOps.Call 3%nat] = 1.
Proof.
  destruct (memcached_statistics (fun a : nat => a) (fun a => (a * a)%nat)
              CachingOps.sample_square 2
              [CachingOps.Call 1%nat; CachingOps.Call 2%nat;
               CachingOps.Call 1%nat; CachingOps.Call 3%nat])
    as (Ht & Hl & Hm & _).
  split; [exact Ht|]. split; [exact Hl|]. split; [|split]; reflexivity.
Defined.

(** Capacity two, with a clearing between four calls on three keys. *)
Lemma memcached_with_clears_witness :
  CachingOps.returned (fun a : nat => a) (fun a => (a * a)%nat)
    (CachingOps.make_memcached 2)
    [CachingOps.Call 1%nat; CachingOps.Call 2%nat; CachingOps.ClearCache;
     CachingOps.Call 1%nat; CachingOps.Call 3%nat]
  = [1; 4; 1; 9]%nat.
Proof.
  apply (proj2 (memcached_with_clears (fun a : nat => a) (fun a => (a * a)%nat) 2
                  [CachingOps.Call 1%nat; CachingOps.Call 2%nat;
                   CachingOps.ClearCache;
                   CachingOps.Call 1%nat; CachingOps.Call 3%nat])).
  intros a b _ _ Hab. exact Hab.
Defined.

(** Capacity one: the call of 2 evicts 1, and is then repeated. *)
Lemma memcached_repeat_is_hit_witness :
  let m := Caching.after (fun a : nat => a) (fun a => (a * a)%nat) 1
             ([1%nat] ++ [2%nat]) in
  fst (Caching.call (fun a : nat => a) (fun a => (a * a)%nat) m 2%nat)
    = fst (Caching.call (fun a : nat => a) (fun a => (a * a)%nat)
             (Caching.after (fun a : nat => a) (fun a => (a * a)%nat) 1 [1%nat])
             2%nat) /\
  Caching.invoked (snd (Caching.call (fun a : nat => a) (fun a => (a * a)%nat) m 2%nat))
    = Caching.invoked m /\
  Caching.misses (snd (Caching.call (fun a : nat => a) (fun a => (a * a)%nat) m 2%nat))
    = Caching.misses m.
Proof.
  apply (memcached_repeat_is_hit (fun a : nat => a) (fun a => (a * a)%nat) 1
           [1%nat] 2%nat).
  lia.
Defined.

(** Capacity zero. *)
Lemma memcached_without_room_witness :
  Caching.cache (Caching.after (fun a : nat => a) (fun a => (a * a)%nat) 0
                   [1; 1; 2]%nat) = [] /\
  Caching.invoked (Caching.after (fun a : nat => a) (fun a => (a * a)%nat) 0
                     [1; 1; 2]%nat) = rev [1; 1; 2]%nat /\
  fst (Caching.calls (fun a : nat => a) (fun a => (a * a)%nat) (Caching.init 0)
         [1; 1; 2]%nat) = map (fun a => (a * a)%nat) [1; 1; 2]%nat.
Proof.
  apply (memcached_without_room (fun a : nat => a) (fun a => (a * a)%nat) 0
           [1; 1; 2]%nat).
  lia.
Defined.

(** Capacity two: after the last call of 1 only 3 is called, so 1 is
    still cached; after the last call of 2 both 1 and 3 are, so 2 is
    not. *)
Lemma memcached_lru_policy_witness :
  is_Some (Caching.dict_get
             (Caching.cache (Caching.after (fun a : nat => a)
                               (fun a => (a * a)%nat) 2 [1; 2; 1; 3]%nat))
             1%nat) /\
  ~ is_Some (Caching.dict_get
               (Caching.cache (Caching.after (fun a : nat => a)
                                 (fun a => (a * a)%nat) 2 [1; 2; 1; 3]%nat))
               2%nat).
Proof.
  split.
  - apply (memcached_lru_policy (fun a : nat => a) (fun a => (a * a)%nat) 2
             [1; 2; 1; 3]%nat [1; 2]%nat [3]%nat 1%nat).
    + reflexivity.
    + simpl. intros Hin. apply list_elem_of_singleton in Hin. discriminate.
    + vm_compute. reflexivity.
  - intros Hc.
    apply (memcached_lru_policy (fun a : nat => a) (fun a => (a * a)%nat) 2
             [1; 2; 1; 3]%nat [1]%nat [1; 3]%nat 2%nat) in Hc.
    + vm_compute in Hc. discriminate.
    + reflexivity.
    + simpl. intros Hin. apply elem_of_cons in Hin as [Hin|Hin]; [discriminate|].
      apply list_elem_of_singleton in Hin. discriminate.
Defined.

(** A slow computation on the empty sample disk, then the same call. *)
Lemma diskcached_round_trip_witness :
  let first := DiskCache.call DiskCache.sample_hash negb DiskCache.sample_cache
                 DiskCache.empty_disk true 20 in
  let second := DiskCache.call DiskCache.sample_hash negb
                  (DiskCache.object_of first) (DiskCache.disk_of first) true 1 in
  DiskCache.value_of first = negb true /\
  DiskCache.value_of second = negb true /\
  DiskCache.invoked (DiskCache.object_of second)
    = DiskCache.invoked (DiskCache.object_of first) /\
  DiskCache.hits (DiskCache.object_of second)
    = DiskCache.hits (DiskCache.object_of first) + 1 /\
  DiskCache.disk_of second = DiskCache.disk_of first.
Proof.
  apply (diskcached_round_trip DiskCache.sample_hash negb DiskCache.sample_cache
           DiskCache.empty_disk true 20 1).
  - intros v nm dur. vm_compute. discriminate.
  - vm_compute. reflexivity.
Defined.

(** A fast computation over an unreadable file: the file is removed and
    nothing is written. *)
Lemma diskcached_disk_discipline_witness :
  DiskCache.files
    (DiskCache.disk_of (DiskCache.call DiskCache.sample_hash negb
                          DiskCache.sample_cache DiskCache.sample_broken true 1))
    !! DiskCache.filename DiskCache.sample_hash DiskCache.sample_cache true
  = None.
Proof.
  apply (proj2 (proj2 (proj2 (proj2
           (diskcached_disk_discipline DiskCache.sample_hash negb
              DiskCache.sample_cache DiskCache.sample_broken true 1
              "cache/neg.t.cache.npy"))))).
  - vm_compute. discriminate.
  - vm_compute. reflexivity.
Defined.


(** Two functions wrapped for the folder 'cache': negation, and the
    identity. *)
Lemma make_discached_shares_files_witness :
  let cf := DiskCache.make_discached DiskCache.sample_normpath 5 "cache" "neg" in
  let cg := DiskCache.make_discached DiskCache.sample_normpath 5 "cache" "same" in
  let disk1 := DiskCache.disk_of (DiskCache.call DiskCache.sample_hash negb cf
                                    DiskCache.empty_disk true 20) in
  DiskCache.value_of (DiskCache.call DiskCache.sample_hash (fun b : bool => b) cg
                        disk1 true 20) = negb true /\
  DiskCache.invoked (DiskCache.object_of
                       (DiskCache.call DiskCache.sample_hash (fun b : bool => b) cg
                          disk1 true 20)) = [].
Proof.
  apply (make_discached_shares_files DiskCache.sample_hash DiskCache.sample_normpath 5
           negb (fun b : bool => b) "cache" "neg" "same" DiskCache.empty_disk true 20 20).
  - vm_compute. reflexivity.
  - vm_compute. reflexivity.
Defined.

(** 'kaggle' data with both counts: what is supported, and what is not. *)
Lemma convert_supported_witness :
  PropertyConverter.convert Z (fun a b => Ok (a / b)) (fun a b => Ok (a * b))
    {| PropertyConverter.family := Some "kaggle";
       PropertyConverter.name := Some "kaggle-set";
       PropertyConverter.p := Some ∅ |} 7 "fec" "fsb" = Ok 7.
Proof.
  apply (proj2 (convert_supported Z (fun a b => Ok (a / b)) (fun a b => Ok (a * b))
                  {| PropertyConverter.family := Some "kaggle";
                     PropertyConverter.name := Some "kaggle-set";
                     PropertyConverter.p := Some ∅ |} 7 "fec" "fsb" 7)).
  - reflexivity.
  - reflexivity.
Defined.

Lemma convert_missing_count_witness :
  PropertyConverter.convert Z (fun a b => Ok (a / b)) (fun a b => Ok (a * b))
    {| PropertyConverter.family := Some "kaggle";
       PropertyConverter.name := Some "kaggle-set";
       PropertyConverter.p := Some {["n_atoms" := 4]} |} 12 "fepa" "fe"
  = Raise (AssertionError "").
Proof.
  apply (convert_missing_count Z (fun a b => Ok (a / b)) (fun a b => Ok (a * b))
           {| PropertyConverter.family := Some "kaggle";
              PropertyConverter.name := Some "kaggle-set";
              PropertyConverter.p := Some {["n_atoms" := 4]} |} 12
           {["n_atoms" := 4]} "fepa").
  - reflexivity.
  - reflexivity.
  - right. right. split; [reflexivity|]. right. vm_compute. reflexivity.
Defined.

Lemma convert_per_atom_witness :
  PropertyConverter.convert Z (fun a b => Ok (a / b)) (fun a b => Ok (a * b))
    {| PropertyConverter.family := Some "kaggle";
       PropertyConverter.name := Some "kaggle-set";
       PropertyConverter.p := Some {["n_atoms" := 4; "n_sub" := 2]} |} 12 "fepa" "fe"
  = (x ← Ok (12 * 4);
     PropertyConverter.convert Z (fun a b => Ok (a / b)) (fun a b => Ok (a * b))
       {| PropertyConverter.family := Some "kaggle";
          PropertyConverter.name := Some "kaggle-set";
          PropertyConverter.p := Some {["n_atoms" := 4; "n_sub" := 2]} |}
       x "fecreal" "fe").
Proof.
  apply (proj2 (proj2
           (convert_per_atom Z (fun a b => Ok (a / b)) (fun a b => Ok (a * b))
              {| PropertyConverter.family := Some "kaggle";
                 PropertyConverter.name := Some "kaggle-set";
                 PropertyConverter.p := Some {["n_atoms" := 4; "n_sub" := 2]} |} 12
              {["n_atoms" := 4; "n_sub" := 2]} 4 2
              ltac:(reflexivity) ltac:(reflexivity)
              ltac:(vm_compute; reflexivity) ltac:(vm_compute; reflexivity)))).
Defined.

(** The sample run called with a duration of ten seconds: it goes on for
    three loop tests, far beyond the deadline [run] would have. *)
Lemma call_ends_only_when_stopped_witness :
  exists tk st,
    tk ∈ Tune.sample_ticks /\
    Tune.state (Tune.end_run TuneSamples.sample_called) = Some st /\
    Tune.stop_done (Tune.stop Tune.sample_ready) st (Tune.t_test tk) = true.
Proof.
  apply (call_ends_only_when_stopped Tune.sample_top Tune.sample_refined
           Tune.sample_ready (Tune.Finite 10) Tune.sample_env Tune.sample_ticks
           Tune.sample_disk TuneSamples.sample_called).
  vm_compute. reflexivity.
Defined.

(** [run] with the same duration: thirty seconds are kept for the
    shutdown, so the end is twenty seconds before the start. *)
Lemma run_without_time_witness :
  exists e pl,
    Tune.run Tune.sample_top Tune.sample_refined Tune.sample_ready
      (Tune.Finite 10) Tune.sample_env (Tune.first_tick :: [Tune.second_tick])
      Tune.sample_disk = Ok (Tune.Finished e) /\
    Tune.end_futures e = ∅ /\
    Tune.state (Tune.end_run e) = Tune.state Tune.sample_ready /\
    Tune.pool (Tune.end_run e) = Some pl /\ Tune.launched pl = 0%nat.
Proof.
  apply (run_without_time Tune.sample_top Tune.sample_refined
           (Tune.sample_new None) [] Tune.empty_fs Tune.sample_ready
           Tune.sample_disk 10 Tune.sample_env Tune.first_tick
           [Tune.second_tick] Tune.sample_disk).
  - vm_compute. reflexivity.
  - vm_compute. discriminate.
Defined.

(** The sample run after two passes: one worker, two futures. *)
Lemma run_keeps_futures_full_witness :
  (Tune.end_futures Tune.sample_running = ∅ /\
   Tune.state (Tune.end_run Tune.sample_running) = Tune.state Tune.sample_ready) \/
  Z.of_nat (size (Tune.end_futures Tune.sample_running))
    = Z.max 0 (Tune.max_workers (Tune.context Tune.sample_ready) + 1).
Proof.
  apply (run_keeps_futures_full Tune.sample_top Tune.sample_refined
           (Tune.sample_new None) [] Tune.empty_fs Tune.sample_ready
           Tune.sample_disk Tune.Infinite Tune.sample_env
           [Tune.first_tick; Tune.second_tick] Tune.sample_disk
           (Tune.Running Tune.sample_running)).
  - vm_compute. reflexivity.
  - vm_compute. reflexivity.
Defined.

(** The files of the finished sample run. *)
Lemma run_leaves_status_and_tape_witness :
  Tune.files (Tune.end_fs TuneSamples.sample_called)
    !! (["run_run-0a1b"] ++ ["status.txt"])
    = Some (Tune.StatusFile "run-0a1b" ("run-0a1b" +:+ ": Done. Have a good day!")
              (Tune.float_sub Tune.sample_env (Tune.t_end Tune.sample_env)
                 (Tune.t_start Tune.sample_env)) 0) /\
  exists st,
    Tune.state (Tune.end_run TuneSamples.sample_called) = Some st /\
    Tune.files (Tune.end_fs TuneSamples.sample_called)
      !! (["run_run-0a1b"] ++ ["tape"]) = Some (Tune.TapeFile (Tune.tape st)).
Proof.
  apply (run_leaves_status_and_tape Tune.sample_top Tune.sample_refined
           Tune.sample_ready Tune.Infinite Tune.sample_env Tune.sample_ticks
           Tune.sample_disk TuneSamples.sample_called "run-0a1b" ["run_run-0a1b"]).
  - vm_compute. reflexivity.
  - reflexivity.
  - reflexivity.
Defined.

(** The grid 'gr_lin' of the sample grid module. *)
Lemma to_grid_after_is_grid_witness :
  exists str,
    Py.subscript0 Parse.sample_grid = Py.Val (Py.PStr str) /\
    ((str = "gr" /\
      Parse.to_grid (list Py.PyVal) Parse.sample_gr Parse.sample_grid
        = Py.Exn Py.IndexError) \/
     exists nm,
       str = "gr_" +:+ nm /\
       Parse.to_grid (list Py.PyVal) Parse.sample_gr Parse.sample_grid =
         match Parse.sample_gr nm with
         | Some f => f (Py.slice1 Parse.sample_grid)
         | None =>
             Py.Exn (Py.NotImplementedError
                       ("Grid named " +:+ nm +:+ " is not (yet) implemented!"))
         end).
Proof.
  apply (to_grid_after_is_grid (list Py.PyVal) Parse.sample_gr Parse.sample_grid).
  reflexivity.
Defined.

(** The choice 'hp_choice' of the sample hyperopt. *)
Lemma to_hyperopt_after_is_hyperopt_witness :
  exists str,
    Py.subscript0 Parse.sample_choice = Py.Val (Py.PStr str) /\
    ((str = "hp" /\
      Parse.to_hyperopt (list Py.PyVal) Parse.sample_hp Parse.sample_choice
        = Py.Exn Py.IndexError) \/
     exists nm,
       str = "hp_" +:+ nm /\
       Parse.to_hyperopt (list Py.PyVal) Parse.sample_hp Parse.sample_choice =
         match Parse.sample_hp nm with
         | Some f => f (Py.slice1 Parse.sample_choice)
         | None =>
             Py.Exn (Py.NotImplementedError
                       ("Hyperopt can't find function named " +:+ nm +:+ "!"))
         end).
Proof.
  apply (to_hyperopt_after_is_hyperopt (list Py.PyVal) Parse.sample_hp
           Parse.sample_choice).
  reflexivity.
Defined.

(** The sample parameters, with a list of a float and an integer. *)
Lemma convert_to_tuple_through_dicts_only_witness :
  ModelSpecs.convert_to_tuple
    (Py.PDict [("k", Py.PInt 2); ("acc", Py.PFloat 1 (-2));
               ("d", Py.PTuple [Py.PFloat 1 (-1); Py.PInt 0])])
  = Py.Val (Py.PDict [("k", Py.PInt 2); ("acc", Py.PFloat 1 (-2));
                      ("d", Py.PTuple [Py.PFloat 1 (-1); Py.PInt 0])]).
Proof.
  apply (proj1 (convert_to_tuple_through_dicts_only
                  (Py.PDict ModelSpecs.sample_params)
                  (Py.PDict [("k", Py.PInt 2); ("acc", Py.PFloat 1 (-2));
                             ("d", Py.PTuple [Py.PFloat 1 (-1); Py.PInt 0])])
                  ltac:(reflexivity))).
Defined.

(** The sample MBTR: 'acc' is given, the other defaults are filled in. *)
Lemma init_lays_params_over_defaults_witness :
  exists ms ps,
    ModelSpecs.mbtrs ModelSpecs.sample_made = Py.PDict ms /\
    map fst ms = map fst ModelSpecs.sample_mbtrs /\
    Py.lookup_item ms "mbtr_1" = Some (Py.PDict ps) /\
    take 5 (map fst ps) = map fst ModelSpecs.mbtr_defaults /\
    forall k,
      Py.lookup_item ps k =
        match Py.lookup_item ModelSpecs.sample_params k with
        | Some v => Some v
        | None => Py.lookup_item ModelSpecs.mbtr_defaults k
        end.
Proof.
  apply (init_lays_params_over_defaults ModelSpecs.sample_hash
           (Py.PStr "model") (Py.PStr "") (Py.PDict []) (Py.PDict [])
           ModelSpecs.sample_mbtrs ModelSpecs.sample_made "mbtr_1"
           ModelSpecs.sample_params).
  - reflexivity.
  - apply (bool_decide_unpack _). vm_compute. reflexivity.
  - apply (bool_decide_unpack _). vm_compute. reflexivity.
  - reflexivity.
Defined.

(** The stand-in for [SON.to_dict] leaves no SON behind. *)
Lemma sample_to_dict_is_plain (items : list (string * Py.PyVal)) :
  ModelSpecs.plain ModelSpecs.sample_to_dict
    (Py.PDict (ModelSpecs.sample_to_dict items))
  = Py.PDict (ModelSpecs.sample_to_dict items).
Proof.
  assert (forall v, ModelSpecs.plain ModelSpecs.sample_to_dict
                      (ModelSpecs.sample_plain_value v)
                    = ModelSpecs.sample_plain_value v) as Hv.
  { intros v.
    induction v as [| | | | | | |its IH|its IH] using PyVal_nested_ind;
      simpl; try done.
    - f_equal. rewrite map_map. simpl.
      induction IH as [|[k v] rest Hv Hrest IHr]; simpl; [done|].
      simpl in Hv. by rewrite Hv, IHr.
    - f_equal. rewrite map_map. simpl.
      induction IH as [|[k v] rest Hv Hrest IHr]; simpl; [done|].
      simpl in Hv. by rewrite Hv, IHr. }
  apply (Hv (Py.PDict items)).
Qed.

(** The sample document, loaded, saved and loaded again. *)
Lemma from_dict_to_dict_round_trip_witness :
  exists s',
    ModelSpecs.from_dict ModelSpecs.sample_hash ModelSpecs.sample_to_dict
      (ModelSpecs.to_dict ModelSpecs.sample_spec) = Py.Val s' /\
    ModelSpecs.to_dict s' = ModelSpecs.to_dict ModelSpecs.sample_spec /\
    ModelSpecs.spec_version s' = ModelSpecs.spec_version ModelSpecs.sample_spec /\
    ModelSpecs.hashes s'
      = ModelSpecs.own_hashes ModelSpecs.sample_hash ModelSpecs.sample_spec.
Proof.
  apply (from_dict_to_dict_round_trip ModelSpecs.sample_hash
           ModelSpecs.sample_to_dict sample_to_dict_is_plain
           ModelSpecs.sample_document ModelSpecs.sample_spec).
  reflexivity.
Defined.
